(** * Chunked zstd compressor: hole detection, content-defined chunking,
      stream orchestration and the pipe-backed writer

    A shallow embedding of [pkg/chunked/compressor/compressor.go].

    - Go's [error] interface values are [goerror := option error]
      ([None] is [nil]).
    - [int64] counters are integers in [Z]; every arithmetic operation of
      the source is written with its two's-complement wrap-around
      ([add64], [sub64]).
    - A loop that the source writes as [for { ... }] is a step function
      (one iteration of the body) iterated under a fuel; [None] stands
      for "fuel exhausted", and the lemmas give the fuel that suffices. *)

From Stdlib Require Import ZArith List Bool Lia Sorted.
From Stdlib Require String.
From Stdlib Require Import Init.Byte.
Import ListNotations.
Local Open Scope Z_scope.

Set Implicit Arguments.

(** ** Machine integers *)

Definition wrap64 (z : Z) : Z := (z + 2 ^ 63) mod 2 ^ 64 - 2 ^ 63.
Definition add64 (a b : Z) : Z := wrap64 (a + b).
Definition sub64 (a b : Z) : Z := wrap64 (a - b).
Definition max_int64 : Z := 2 ^ 63 - 1.

(** ** Go errors *)

Inductive error : Type :=
| EOF                       (* io.EOF *)
| ErrUnexpectedEOF          (* io.ErrUnexpectedEOF *)
| ErrInvalidUnreadByte      (* bufio.ErrInvalidUnreadByte *)
| ErrClosedPipe             (* io.ErrClosedPipe *)
| ErrOther (msg : String.string).  (* any other error value *)

Definition goerror : Type := option error.

Definition is_EOF (e : error) : bool :=
  match e with EOF => true | _ => false end.

Definition is_zero (b : byte) : bool :=
  match b with x00 => true | _ => false end.

(** ** The fuel monad *)

Definition obind {A B : Type} (m : option A) (k : A -> option B) : option B :=
  match m with
  | Some a => k a
  | None => None
  end.

Notation "'do' x <- m ; k" := (obind m (fun x => k))
  (at level 10, x name, m at level 100, k at level 200).
Notation "'do' ' p <- m ; k" := (obind m (fun x => match x with p => k end))
  (at level 10, p pattern, m at level 100, k at level 200).

(** ** bufio.Reader over an entry's payload

    The payload source of one archive entry: the bytes still to come and
    the (sticky) error the archive reader reports once they are used up:
    [EOF] for a complete entry, anything else for a truncated or failing
    input. [lastByte] is what [UnreadByte] may push back. *)

Record bufioReader : Type := mkBufio {
  pending : list byte;
  fin : error;
  lastByte : option byte
}.

Definition NewReader (payload : list byte) (e : error) : bufioReader :=
  {| pending := payload; fin := e; lastByte := None |}.

Definition ReadByte (r : bufioReader) : (byte * goerror) * bufioReader :=
  match pending r with
  | c :: rest => ((c, None), {| pending := rest; fin := fin r; lastByte := Some c |})
  | [] => ((x00, Some (fin r)), r)
  end.

Definition UnreadByte (r : bufioReader) : goerror * bufioReader :=
  match lastByte r with
  | Some c => (None, {| pending := c :: pending r; fin := fin r; lastByte := None |})
  | None => (Some ErrInvalidUnreadByte, r)
  end.

(** ** holesFinder *)

Inductive holesFinderState : Type :=
| holesFinderStateRead
| holesFinderStateAccumulate
| holesFinderStateFound
| holesFinderStateEOF.

Record holesFinder : Type := mkHolesFinder {
  hf_reader : bufioReader;
  hf_zeros : Z;
  hf_threshold : Z;
  hf_state : holesFinderState
}.

Definition set_reader (f : holesFinder) (r : bufioReader) : holesFinder :=
  {| hf_reader := r; hf_zeros := hf_zeros f;
     hf_threshold := hf_threshold f; hf_state := hf_state f |}.
Definition set_zeros (f : holesFinder) (z : Z) : holesFinder :=
  {| hf_reader := hf_reader f; hf_zeros := z;
     hf_threshold := hf_threshold f; hf_state := hf_state f |}.
Definition set_state (f : holesFinder) (s : holesFinderState) : holesFinder :=
  {| hf_reader := hf_reader f; hf_zeros := hf_zeros f;
     hf_threshold := hf_threshold f; hf_state := s |}.

(** What one call of [readByte] returns: [(holeLen, byte, err)]. *)
Definition readByteResult : Type := (Z * byte * goerror)%type.

(** One iteration of the [for { switch f.state ... }] loop: either the
    loop goes round again with the new state, or the call returns. *)
Inductive iter (S R : Type) : Type :=
| Continue (s : S)
| Return (r : R) (s : S).
Arguments Continue {S R} s.
Arguments Return {S R} r s.

Definition readByte_body (f : holesFinder) : iter holesFinder readByteResult :=
  match hf_state f with
  | holesFinderStateRead =>
      if 0 <? hf_zeros f then
        Return (0, x00, None) (set_zeros f (sub64 (hf_zeros f) 1))
      else
        let '((b, err), r) := ReadByte (hf_reader f) in
        let f := set_reader f r in
        match err with
        | Some e => Return (0, b, Some e) f
        | None =>
            if negb (is_zero b) then Return (0, b, None) f
            else
              let f := set_zeros f 1 in
              if hf_zeros f =? hf_threshold f
              then Continue (set_state f holesFinderStateFound)
              else Continue (set_state f holesFinderStateAccumulate)
        end
  | holesFinderStateAccumulate =>
      let '((b, err), r) := ReadByte (hf_reader f) in
      let f := set_reader f r in
      match err with
      | Some e =>
          if is_EOF e then Continue (set_state f holesFinderStateEOF)
          else Return (0, b, Some e) f
      | None =>
          if is_zero b then
            let f := set_zeros f (add64 (hf_zeros f) 1) in
            if hf_zeros f =? hf_threshold f
            then Continue (set_state f holesFinderStateFound)
            else Continue f
          else
            let '(err, r) := UnreadByte (hf_reader f) in
            let f := set_reader f r in
            match err with
            | Some e => Return (0, x00, Some e) f
            | None => Continue (set_state f holesFinderStateRead)
            end
      end
  | holesFinderStateFound =>
      let '((b, err), r) := ReadByte (hf_reader f) in
      let f := set_reader f r in
      match err with
      | Some e =>
          let f := if is_EOF e then set_state f holesFinderStateEOF else f in
          let holeLen := hf_zeros f in
          Return (holeLen, x00, None) (set_zeros f 0)
      | None =>
          if negb (is_zero b) then
            let '(err, r) := UnreadByte (hf_reader f) in
            let f := set_reader f r in
            match err with
            | Some e => Return (0, x00, Some e) f
            | None =>
                let f := set_state f holesFinderStateRead in
                let holeLen := hf_zeros f in
                Return (holeLen, x00, None) (set_zeros f 0)
            end
          else Continue (set_zeros f (add64 (hf_zeros f) 1))
      end
  | holesFinderStateEOF =>
      if 0 <? hf_zeros f then
        Return (0, x00, None) (set_zeros f (sub64 (hf_zeros f) 1))
      else Return (0, x00, Some EOF) f
  end.

Fixpoint readByte_loop (fuel : nat) (f : holesFinder)
  : option (readByteResult * holesFinder) :=
  match fuel with
  | O => None
  | S fuel' =>
      match readByte_body f with
      | Return r f' => Some (r, f')
      | Continue f' => readByte_loop fuel' f'
      end
  end.

(** Every round of the loop either returns or uses up a byte of the
    source (a byte that is pushed back sends the machine to [Read], which
    is lighter), so this much fuel always suffices ([readByte_total]). *)
Definition readByte_weight (f : holesFinder) : nat :=
  (3 * length (pending (hf_reader f)) +
   match hf_state f with
   | holesFinderStateRead => 1
   | holesFinderStateAccumulate => 2
   | holesFinderStateFound => 2
   | holesFinderStateEOF => 0
   end)%nat.

Definition readByte (f : holesFinder) : option (readByteResult * holesFinder) :=
  readByte_loop (S (readByte_weight f)) f.

(** ** Slices

    [b[i] = v] on a slice. Every index the source writes is below
    [len(b)] (the loops are guarded by it), so the out-of-range case, a
    run-time panic in Go, never arises; [upd] leaves the slice alone
    there. *)
Fixpoint upd (i : nat) (v : byte) (b : list byte) : list byte :=
  match b, i with
  | [], _ => []
  | _ :: t, O => v :: t
  | h :: t, S i' => h :: upd i' v t
  end.

(** [for i := int64(0); i < toCopy; i++ { b[i] = 0 }], counting up from [i]. *)
Fixpoint zero_fill (n : nat) (i : nat) (b : list byte) : list byte :=
  match n with
  | O => b
  | S n' => zero_fill n' (S i) (upd i x00 b)
  end.

(** [&holesFinder{threshold: th, reader: bufio.NewReader(...)}] *)
Definition holesFinder_on (th : Z) (payload : list byte) (e : error) : holesFinder :=
  {| hf_reader := NewReader payload e; hf_zeros := 0;
     hf_threshold := th; hf_state := holesFinderStateRead |}.

Definition RollsumBits : Z := 16.
Definition holesThreshold : Z := wrap64 (Z.shiftl 1 10).

(** ** rollingChecksumReader

    The rolling checksum ([RollSum], [NewRollSum], [Roll],
    [OnSplitWithBits]) lives in a file of the package that is not part
    of the sources at hand; the reader is verified for every
    implementation of it. *)
Section Chunker.

Variable RollSum : Type.
Variable NewRollSum : RollSum.
Variable Roll : RollSum -> byte -> RollSum.
Variable OnSplitWithBits : RollSum -> Z -> bool.

Record rollingChecksumReader : Type := mkRC {
  rc_reader : holesFinder;
  closed : bool;
  rollsum : RollSum;
  pendingHole : Z;
  WrittenOut : Z;
  IsLastChunkZeros : bool
}.

(** [for j := int64(0); j < holeLen; j++ { rc.rollsum.Roll(0) }] *)
Fixpoint roll_zeros (n : nat) (r : RollSum) : RollSum :=
  match n with
  | O => r
  | S n' => roll_zeros n' (Roll r x00)
  end.

(** What [Read] returns, [(mustSplit, n, err)]. *)
Definition ReadResult : Type := (bool * Z * goerror)%type.

(** The [for i := 0; i < len(b); i++] loop of [Read]; [k] is
    [len(b) - i]. *)
Fixpoint Read_loop (k : nat) (i : nat) (b : list byte) (rc : rollingChecksumReader)
  : option (ReadResult * list byte * rollingChecksumReader) :=
  match k with
  | O => Some ((false, Z.of_nat (length b), None), b, rc)
  | S k' =>
      do '((holeLen, n, err), hf) <- readByte (rc_reader rc);
      let rc := {| rc_reader := hf; closed := closed rc; rollsum := rollsum rc;
                   pendingHole := pendingHole rc; WrittenOut := WrittenOut rc;
                   IsLastChunkZeros := IsLastChunkZeros rc |} in
      match err with
      | Some e =>
          if is_EOF e then
            let rc := {| rc_reader := rc_reader rc; closed := true; rollsum := rollsum rc;
                         pendingHole := pendingHole rc; WrittenOut := WrittenOut rc;
                         IsLastChunkZeros := IsLastChunkZeros rc |} in
            if (i =? 0)%nat then Some ((false, 0, Some e), b, rc)
            else Some ((false, Z.of_nat i, None), b, rc)
          else Some ((false, -1, Some e), b, rc)
      | None =>
          if 0 <? holeLen then
            let rc := {| rc_reader := rc_reader rc; closed := closed rc;
                         rollsum := roll_zeros (Z.to_nat holeLen) (rollsum rc);
                         pendingHole := holeLen; WrittenOut := WrittenOut rc;
                         IsLastChunkZeros := IsLastChunkZeros rc |} in
            Some ((true, Z.of_nat i, None), b, rc)
          else
            let b := upd i n b in
            let rc := {| rc_reader := rc_reader rc; closed := closed rc;
                         rollsum := Roll (rollsum rc) n;
                         pendingHole := pendingHole rc;
                         WrittenOut := add64 (WrittenOut rc) 1;
                         IsLastChunkZeros := IsLastChunkZeros rc |} in
            if OnSplitWithBits (rollsum rc) RollsumBits
            then Some ((true, Z.of_nat i + 1, None), b, rc)
            else Read_loop k' (S i) b rc
      end
  end.

Definition Read (b : list byte) (rc : rollingChecksumReader)
  : option (ReadResult * list byte * rollingChecksumReader) :=
  let rc := {| rc_reader := rc_reader rc; closed := closed rc; rollsum := rollsum rc;
               pendingHole := pendingHole rc; WrittenOut := WrittenOut rc;
               IsLastChunkZeros := false |} in
  if 0 <? pendingHole rc then
    let toCopy := Z.of_nat (length b) in
    let toCopy := if pendingHole rc <? toCopy then pendingHole rc else toCopy in
    let rc := {| rc_reader := rc_reader rc; closed := closed rc; rollsum := rollsum rc;
                 pendingHole := sub64 (pendingHole rc) toCopy;
                 WrittenOut := WrittenOut rc;
                 IsLastChunkZeros := IsLastChunkZeros rc |} in
    let b := zero_fill (Z.to_nat toCopy) 0 b in
    let rc := {| rc_reader := rc_reader rc; closed := closed rc; rollsum := rollsum rc;
                 pendingHole := pendingHole rc;
                 WrittenOut := add64 (WrittenOut rc) toCopy;
                 IsLastChunkZeros := true |} in
    Some ((pendingHole rc =? 0, toCopy, None), b, rc)
  else if closed rc then Some ((false, 0, Some EOF), b, rc)
  else Read_loop (length b) 0 b rc.

(** The reader the orchestrator builds for an entry's payload. *)
Definition newHolesFinder (payload : list byte) (e : error) : holesFinder :=
  holesFinder_on holesThreshold payload e.

Definition newRollingChecksumReader (hf : holesFinder) : rollingChecksumReader :=
  {| rc_reader := hf; closed := false; rollsum := NewRollSum;
     pendingHole := 0; WrittenOut := 0; IsLastChunkZeros := false |}.

End Chunker.

(** ** The archive reader

    [tar.Reader] with raw accounting, as the orchestrator consumes it: a
    sequence of entries, each with its header, the raw bytes that
    encoded the header and its payload source; then the error [Next]
    reports after the last entry ([EOF] for a well-formed archive) and
    the raw bytes that follow the last entry. *)

Abbreviation string := String.string.

Record Header : Type := mkHeader {
  Typeflag : byte;
  hdr_Name : string;
  hdr_Linkname : string;
  hdr_Mode : Z;
  hdr_Size : Z;
  hdr_Uid : Z;
  hdr_Gid : Z;
  hdr_ModTime : Z;
  hdr_AccessTime : Z;
  hdr_ChangeTime : Z;
  hdr_Devmajor : Z;
  hdr_Devminor : Z;
  hdr_Xattrs : list (string * string)
}.

Record tarEntry : Type := mkTarEntry {
  te_hdr : Header;
  te_raw : list byte;
  te_payload : list byte;
  te_fin : error
}.

Record tarReader : Type := mkTarReader {
  tr_entries : list tarEntry;
  tr_end : error;
  tr_trailer : list byte
}.

(** ** Records of the manifest

    [internal.FileMetadata], with the fields the orchestrator sets; a
    composite literal leaves the others at their zero value. *)
Record FileMetadata : Type := mkFileMetadata {
  Type_ : string;
  Name : string;
  Linkname : string;
  Mode : Z;
  Size : Z;
  UID : Z;
  GID : Z;
  ModTime : option Z;
  AccessTime : option Z;
  ChangeTime : option Z;
  Devmajor : Z;
  Devminor : Z;
  Xattrs : list (string * string);
  Digest : string;
  Offset : Z;
  EndOffset : Z;
  ChunkSize : Z;
  ChunkOffset : Z;
  ChunkDigest : string;
  ChunkType : string
}.

Record chunk : Type := mkChunk {
  c_ChunkOffset : Z;
  c_Offset : Z;
  c_Checksum : string;
  c_ChunkSize : Z;
  c_ChunkType : string
}.

(** [entries[i].ChunkSize = ...] and its three companions, on the slice
    of records. *)
Definition backfill (c : chunk) (m : FileMetadata) : FileMetadata :=
  {| Type_ := Type_ m; Name := Name m; Linkname := Linkname m; Mode := Mode m;
     Size := Size m; UID := UID m; GID := GID m; ModTime := ModTime m;
     AccessTime := AccessTime m; ChangeTime := ChangeTime m;
     Devmajor := Devmajor m; Devminor := Devminor m; Xattrs := Xattrs m;
     Digest := Digest m;
     Offset := c_Offset c;
     EndOffset := EndOffset m;
     ChunkSize := c_ChunkSize c;
     ChunkOffset := ChunkOffset m;
     ChunkDigest := c_Checksum c;
     ChunkType := c_ChunkType c |}.

Fixpoint upd_entry (i : nat) (f : FileMetadata -> FileMetadata)
  (l : list FileMetadata) : list FileMetadata :=
  match l, i with
  | [], _ => []
  | m :: t, O => f m :: t
  | m :: t, S i' => m :: upd_entry i' f t
  end.

(** [for i := range chunks { entries[i]... = chunks[i]... }], from index [i]
    on, over the chunks not yet visited. *)
Fixpoint backfill_from (i : nat) (cs : list chunk) (entries : list FileMetadata)
  : list FileMetadata :=
  match cs with
  | [] => entries
  | c :: cs' => backfill_from (S i) cs' (upd_entry i (backfill c) entries)
  end.

(** ** The stream orchestrator *)
Section Orchestrator.

Variable RollSum : Type.
Variable NewRollSum : RollSum.
Variable Roll : RollSum -> byte -> RollSum.
Variable OnSplitWithBits : RollSum -> Z -> bool.

(** The output side: the destination file under its write counter
    ([dest]) together with the zstd encoder on top of it ([zstdWriter]).
    The encoder is an external collaborator, and so are the digest, the
    base64 encoding, and the helpers and constants of the [internal]
    package. A write of payload bytes goes through [io.MultiWriter] to
    the two digests and then to the encoder; the digests do not fail,
    so the error of that write is the encoder's ([zw_Write]), a short
    write included. *)
Variable Out : Type.
Variable ZstdWriterWithLevel : Out -> Z -> goerror * Out.
Variable zw_Write : Out -> list byte -> goerror * Out.
Variable zw_Close : Out -> goerror * Out.
Variable zw_Flush : Out -> goerror * Out.
Variable zw_Reset : Out -> Out.
Variable dest_Count : Out -> Z.
Variable WriteZstdChunkedManifest :
  Out -> list (string * string) -> Z -> list FileMetadata -> Z -> goerror * Out.

Variable digest_String : list byte -> string.
Variable base64_EncodeToString : string -> string.
Variable GetType : byte -> string * goerror.
Variable TypeChunk : string.
Variable ChunkTypeData : string.
Variable ChunkTypeZeros : string.

Abbreviation rcReader_t := (rollingChecksumReader RollSum).

(** The closure [restartCompression]. Between its creation and the end
    of the traversal [zstdWriter] is not nil, and the closure is only
    called there. *)
Definition restartCompression (o : Out) : (Z * goerror) * Out :=
  let '(err, o) := zw_Close o in
  match err with
  | Some e => ((0, Some e), o)
  | None =>
      let '(err, o) := zw_Flush o in
      match err with
      | Some e => ((0, Some e), o)
      | None =>
          let offset := dest_Count o in
          ((offset, None), zw_Reset o)
      end
  end.

(** The variables of the loop over one entry's payload. [ps_err] is the
    variable [err] of the enclosing loop body, which [tr.Next] declared;
    the byte hashes are kept as the bytes written to them. *)
Record payloadState : Type := mkPayloadState {
  ps_out : Out;
  ps_err : goerror;
  ps_buf : list byte;
  startOffset : Z;
  lastOffset : Z;
  lastChunkOffset : Z;
  checksum : string;
  chunks : list chunk;
  payloadDigester : list byte;
  chunkDigester : list byte;
  rcReader : rcReader_t
}.

(** How an iteration of a loop body inside the function ends. *)
Inductive flow (S : Type) : Type :=
| Next (s : S)                       (* next iteration *)
| Break (s : S)                      (* leave the loop *)
| Stop (e : goerror) (o : Out).     (* [return e] from the function *)
Arguments Next {S} s.
Arguments Break {S} s.
Arguments Stop {S} e o.

(** [if read > 0 { ... }] *)
Definition write_payload (read : Z) (st : payloadState) : payloadState + goerror * Out :=
  if 0 <? read then
    let r :=
      if startOffset st =? 0 then
        let '((off, err), o) := restartCompression (ps_out st) in
        let st := {| ps_out := o; ps_err := err; ps_buf := ps_buf st;
                     startOffset := off; lastOffset := lastOffset st;
                     lastChunkOffset := lastChunkOffset st; checksum := checksum st;
                     chunks := chunks st; payloadDigester := payloadDigester st;
                     chunkDigester := chunkDigester st; rcReader := rcReader st |} in
        match err with
        | Some _ => inr (ps_err st, ps_out st)
        | None =>
            inl {| ps_out := ps_out st; ps_err := ps_err st; ps_buf := ps_buf st;
                   startOffset := startOffset st; lastOffset := startOffset st;
                   lastChunkOffset := lastChunkOffset st; checksum := checksum st;
                   chunks := chunks st; payloadDigester := payloadDigester st;
                   chunkDigester := chunkDigester st; rcReader := rcReader st |}
        end
      else inl st in
    match r with
    | inr a => inr a
    | inl st =>
        let p := firstn (Z.to_nat read) (ps_buf st) in
        let '(err, o) := zw_Write (ps_out st) p in
        match err with
        | Some e => inr (Some e, o)
        | None =>
            inl {| ps_out := o; ps_err := ps_err st; ps_buf := ps_buf st;
                   startOffset := startOffset st; lastOffset := lastOffset st;
                   lastChunkOffset := lastChunkOffset st; checksum := checksum st;
                   chunks := chunks st;
                   payloadDigester := payloadDigester st ++ p;
                   chunkDigester := chunkDigester st ++ p;
                   rcReader := rcReader st |}
        end
    end
  else inl st.

(** [if (mustSplit || errRead == io.EOF) && startOffset > 0 { ... }] *)
Definition close_chunk (mustSplit : bool) (eof : bool) (st : payloadState)
  : payloadState + goerror * Out :=
  if (mustSplit || eof) && (0 <? startOffset st) then
    let '((off, err), o) := restartCompression (ps_out st) in
    match err with
    | Some e => inr (Some e, o)
    | None =>
        let chunkSize := sub64 (WrittenOut (rcReader st)) (lastChunkOffset st) in
        let chunks' :=
          if 0 <? chunkSize then
            let chunkType :=
              if IsLastChunkZeros (rcReader st) then ChunkTypeZeros else ChunkTypeData in
            chunks st ++
              [{| c_ChunkOffset := lastChunkOffset st;
                  c_Offset := lastOffset st;
                  c_Checksum := digest_String (chunkDigester st);
                  c_ChunkSize := chunkSize;
                  c_ChunkType := chunkType |}]
          else chunks st in
        inl {| ps_out := o; ps_err := ps_err st; ps_buf := ps_buf st;
               startOffset := startOffset st; lastOffset := off;
               lastChunkOffset := WrittenOut (rcReader st); checksum := checksum st;
               chunks := chunks';
               payloadDigester := payloadDigester st;
               chunkDigester := [];
               rcReader := rcReader st |}
    end
  else inl st.

(** One iteration of the loop over the payload. *)
Definition payload_body (st : payloadState) : option (flow payloadState) :=
  do '((mustSplit, read, errRead), b, rc) <-
     Read Roll OnSplitWithBits (ps_buf st) (rcReader st);
  let st := {| ps_out := ps_out st; ps_err := ps_err st; ps_buf := b;
               startOffset := startOffset st; lastOffset := lastOffset st;
               lastChunkOffset := lastChunkOffset st; checksum := checksum st;
               chunks := chunks st; payloadDigester := payloadDigester st;
               chunkDigester := chunkDigester st; rcReader := rc |} in
  let eof := match errRead with Some e => is_EOF e | None => false end in
  if match errRead with Some e => negb (is_EOF e) | None => false end
  then Some (Stop (ps_err st) (ps_out st))
  else
    match write_payload read st with
    | inr (e, o) => Some (Stop e o)
    | inl st =>
        match close_chunk mustSplit eof st with
        | inr (e, o) => Some (Stop e o)
        | inl st =>
            if eof then
              if 0 <? startOffset st then
                Some (Break
                  {| ps_out := ps_out st; ps_err := ps_err st; ps_buf := ps_buf st;
                     startOffset := startOffset st; lastOffset := lastOffset st;
                     lastChunkOffset := lastChunkOffset st;
                     checksum := digest_String (payloadDigester st);
                     chunks := chunks st; payloadDigester := payloadDigester st;
                     chunkDigester := chunkDigester st; rcReader := rcReader st |})
              else Some (Break st)
            else Some (Next st)
        end
    end.

(** The loop over the payload: it ends with the state at [break], or
    with the value the function returns and the output side then. *)
Fixpoint payload_loop (fuel : nat) (st : payloadState)
  : option (payloadState + goerror * Out) :=
  match fuel with
  | O => None
  | S fuel' =>
      do r <- payload_body st;
      match r with
      | Next st' => payload_loop fuel' st'
      | Break st' => Some (inl st')
      | Stop e o => Some (inr (e, o))
      end
  end.

Definition primary_entry (typ : string) (hdr : Header) (xattrs : list (string * string))
  (st : payloadState) : FileMetadata :=
  {| Type_ := typ; Name := hdr_Name hdr; Linkname := hdr_Linkname hdr;
     Mode := hdr_Mode hdr; Size := hdr_Size hdr; UID := hdr_Uid hdr; GID := hdr_Gid hdr;
     ModTime := Some (hdr_ModTime hdr); AccessTime := Some (hdr_AccessTime hdr);
     ChangeTime := Some (hdr_ChangeTime hdr);
     Devmajor := hdr_Devmajor hdr; Devminor := hdr_Devminor hdr; Xattrs := xattrs;
     Digest := checksum st; Offset := startOffset st; EndOffset := lastOffset st;
     ChunkSize := 0; ChunkOffset := 0; ChunkDigest := String.EmptyString;
     ChunkType := String.EmptyString |}.

Definition chunk_entry (name : string) (c : chunk) : FileMetadata :=
  {| Type_ := TypeChunk; Name := name; Linkname := String.EmptyString;
     Mode := 0; Size := 0; UID := 0; GID := 0;
     ModTime := None; AccessTime := None; ChangeTime := None;
     Devmajor := 0; Devminor := 0; Xattrs := [];
     Digest := String.EmptyString; Offset := 0; EndOffset := 0;
     ChunkSize := 0; ChunkOffset := c_ChunkOffset c;
     ChunkDigest := String.EmptyString; ChunkType := String.EmptyString |}.

(** [for i := 1; i < len(chunks); i++ { entries = append(entries, ...) }],
    over the chunks from index 1 on. *)
Fixpoint append_chunk_entries (name : string) (cs : list chunk)
  (entries : list FileMetadata) : list FileMetadata :=
  match cs with
  | [] => entries
  | c :: cs' => append_chunk_entries name cs' (entries ++ [chunk_entry name c])
  end.

Definition make_entries (typ : string) (hdr : Header) (xattrs : list (string * string))
  (st : payloadState) : list FileMetadata :=
  let entries := [primary_entry typ hdr xattrs st] in
  let entries := append_chunk_entries (hdr_Name hdr) (skipn 1 (chunks st)) entries in
  if (1 <? length (chunks st))%nat
  then backfill_from 0 (chunks st) entries
  else entries.

(** The variables that live across the entries of the archive. *)
Record streamState : Type := mkStreamState {
  ss_out : Out;
  ss_buf : list byte;
  metadata : list FileMetadata
}.

Definition init_payloadState (ss : streamState) (o : Out) (e : tarEntry) : payloadState :=
  {| ps_out := o; ps_err := None; ps_buf := ss_buf ss;
     startOffset := 0; lastOffset := 0; lastChunkOffset := 0;
     checksum := String.EmptyString; chunks := [];
     payloadDigester := []; chunkDigester := [];
     rcReader := newRollingChecksumReader NewRollSum
                   (newHolesFinder (te_payload e) (te_fin e)) |}.

(** The body of the loop over the archive, for the entry [e] that
    [tr.Next] returned. *)
Definition entry_body (fuel : nat) (ss : streamState) (e : tarEntry)
  : option (streamState + goerror * Out) :=
  let hdr := te_hdr e in
  let '(err, o) := zw_Write (ss_out ss) (te_raw e) in
  match err with
  | Some x => Some (inr (Some x, o))
  | None =>
      do r <- payload_loop fuel (init_payloadState ss o e);
      match r with
      | inr a => Some (inr a)
      | inl st =>
          let '(typ, err) := GetType (Typeflag hdr) in
          match err with
          | Some x => Some (inr (Some x, ps_out st))
          | None =>
              let xattrs :=
                map (fun kv => (fst kv, base64_EncodeToString (snd kv))) (hdr_Xattrs hdr) in
              let entries := make_entries typ hdr xattrs st in
              Some (inl {| ss_out := ps_out st; ss_buf := ps_buf st;
                           metadata := metadata ss ++ entries |})
          end
      end
  end.

(** The loop over the archive: [tr.Next] hands out the entries one by
    one and then reports [tr_end]. *)
Fixpoint stream_loop (fuel : nat) (tr_end : error) (es : list tarEntry) (ss : streamState)
  : option (streamState + goerror * Out) :=
  match es with
  | [] => if is_EOF tr_end then Some (inl ss) else Some (inr (Some tr_end, ss_out ss))
  | e :: es' =>
      do r <- entry_body fuel ss e;
      match r with
      | inr a => Some (inr a)
      | inl ss' => stream_loop fuel tr_end es' ss'
      end
  end.

(** The deferred function: [zstdWriter] is still set on every early
    return, so the encoder is closed and flushed, whatever that gives. *)
Definition deferred (o : Out) : Out := snd (zw_Flush (snd (zw_Close o))).

Definition writeZstdChunkedStream (fuel : nat) (destFile : Out)
  (outMetadata : list (string * string)) (reader : tarReader) (level : Z)
  : option (goerror * Out) :=
  let buf := repeat x00 4096 in
  let '(err, o) := ZstdWriterWithLevel destFile level in
  match err with
  | Some e => Some (Some e, o)
  | None =>
      do r <- stream_loop fuel (tr_end reader) (tr_entries reader)
                {| ss_out := o; ss_buf := buf; metadata := [] |};
      match r with
      | inr (e, o) => Some (e, deferred o)
      | inl ss =>
          let '(err, o) := zw_Write (ss_out ss) (tr_trailer reader) in
          match err with
          | Some e => Some (Some e, deferred o)
          | None =>
              let '(err, o) := zw_Flush o in
              match err with
              | Some e => Some (Some e, deferred o)
              | None =>
                  let '(err, o) := zw_Close o in
                  match err with
                  | Some e => Some (Some e, deferred o)
                  | None =>
                      Some (WriteZstdChunkedManifest o outMetadata
                              (dest_Count o mod 2 ^ 64) (metadata ss) level)
                  end
              end
          end
      end
  end.

End Orchestrator.

Arguments Next {Out S} s.
Arguments Break {Out S} s.
Arguments Stop {Out S} e o.

(** ** The hole detector as a scanner

    What the detector reports for a payload, written directly on the
    bytes: a maximal run of [z] zero bytes is one [Hole z] when it
    reaches the threshold and [z] literal zero bytes when it does not;
    any other byte is a literal. [scan th z l] scans [l] with [z] zero
    bytes already seen. *)

Inductive event : Type :=
| Lit (b : byte)
| Hole (n : Z).

Definition flush (th z : Z) : list event :=
  if z <=? 0 then []
  else if th <=? z then [Hole z]
  else repeat (Lit x00) (Z.to_nat z).

Fixpoint scan (th z : Z) (l : list byte) : list event :=
  match l with
  | [] => flush th z
  | b :: t =>
      if is_zero b then scan th (z + 1) t
      else flush th z ++ Lit b :: scan th 0 t
  end.

(** The events a detector in state [f] has still to report. *)
Definition remaining (f : holesFinder) : list event :=
  let th := hf_threshold f in
  let l := pending (hf_reader f) in
  match hf_state f with
  | holesFinderStateRead => repeat (Lit x00) (Z.to_nat (hf_zeros f)) ++ scan th 0 l
  | holesFinderStateAccumulate => scan th (hf_zeros f) l
  | holesFinderStateFound => scan th (hf_zeros f) l
  | holesFinderStateEOF => repeat (Lit x00) (Z.to_nat (hf_zeros f))
  end.

(** The states of a detector over a payload that ends with [EOF] and is
    short enough for the counter: what the code keeps true. *)
Definition hf_ok (f : holesFinder) : Prop :=
  fin (hf_reader f) = EOF /\
  1 <= hf_threshold f /\
  0 <= hf_zeros f /\
  hf_zeros f + Z.of_nat (length (pending (hf_reader f))) <= max_int64 /\
  match hf_state f with
  | holesFinderStateAccumulate => hf_zeros f < hf_threshold f /\ 1 <= hf_zeros f
  | holesFinderStateFound => hf_threshold f <= hf_zeros f
  | _ => True
  end.

(** Between two calls the machine is in [Read] or in [EOF]. *)
Definition quiet (f : holesFinder) : Prop :=
  hf_state f = holesFinderStateRead \/ hf_state f = holesFinderStateEOF.

(** [readByte] reports the first event, and end-of-stream when there is none. *)
Definition emits (evs : list event) (res : readByteResult) (evs' : list event) : Prop :=
  match evs with
  | [] => res = (0, x00, Some EOF) /\ evs' = []
  | Lit b :: t => res = (0, b, None) /\ evs' = t
  | Hole n :: t => res = (n, x00, None) /\ evs' = t
  end.


(** Calling [readByte] until it reports an error: the events reported,
    read off the results the way [Read] does ([holeLen > 0] is a hole,
    anything else a literal byte), and the error that ended the run. *)
Fixpoint readByte_all (fuel : nat) (f : holesFinder) : option (list event * error) :=
  match fuel with
  | O => None
  | S fuel' =>
      do '((holeLen, b, err), f') <- readByte f;
      match err with
      | Some e => Some ([], e)
      | None =>
          do '(evs, e) <- readByte_all fuel' f';
          Some ((if 0 <? holeLen then Hole holeLen else Lit b) :: evs, e)
      end
  end.

(** Calling [readByte] [n] times, whatever the calls return: the
    results in order and the detector at the end. *)
Fixpoint readByte_n (n : nat) (f : holesFinder)
  : option (list readByteResult * holesFinder) :=
  match n with
  | O => Some ([], f)
  | S n' =>
      do '(res, f') <- readByte f;
      do '(rest, f'') <- readByte_n n' f';
      Some (res :: rest, f'')
  end.

(** A detector that never reports an error, however often it is called. *)
Definition silent (f : holesFinder) : Prop :=
  forall n, exists rs f',
    readByte_n n f = Some (rs, f') /\ Forall (fun r : readByteResult => snd r = None) rs.

(** No run of zero bytes in [l] reaches [th], [z] zero bytes being
    already counted. *)
Fixpoint runs_below (th z : Z) (l : list byte) : bool :=
  match l with
  | [] => true
  | b :: t =>
      if is_zero b then (z + 1 <? th) && runs_below th (z + 1) t
      else runs_below th 0 t
  end.

(** The bytes an event stands for, and the payload a list of events
    spells out. *)
Definition ev_bytes (e : event) : list byte :=
  match e with
  | Lit b => [b]
  | Hole n => repeat x00 (Z.to_nat n)
  end.

Definition flat (evs : list event) : list byte := flat_map ev_bytes evs.

Definition is_lit (e : event) : Prop :=
  match e with
  | Lit _ => True
  | Hole _ => False
  end.

(** Holes are at least as long as the threshold. *)
Definition ev_ok (th : Z) (e : event) : Prop :=
  match e with
  | Lit _ => True
  | Hole n => th <= n
  end.

(** Fewer than [th] literal zero bytes in a row among the events, [z]
    of them being already counted. *)
Fixpoint lit_zeros_below (th z : Z) (evs : list event) : bool :=
  match evs with
  | [] => true
  | Lit b :: t =>
      if is_zero b then (z + 1 <? th) && lit_zeros_below th (z + 1) t
      else lit_zeros_below th 0 t
  | Hole _ :: t => lit_zeros_below th 0 t
  end.

(** ** The chunk reader on events

    [fill k r evs] is the loop of [Read] over a buffer with [k] free
    slots, on the events the detector has still to report: the bytes
    stored, why the loop stopped, the checksum and the events left. *)
Section ChunkerOnEvents.

Variable RollSum : Type.
Variable NewRollSum : RollSum.
Variable Roll : RollSum -> byte -> RollSum.
Variable OnSplitWithBits : RollSum -> Z -> bool.

Inductive fill_end : Type :=
| Full                (* the buffer is full *)
| AtEOF               (* the detector reported end-of-stream *)
| HoleFound (h : Z)   (* the detector reported a hole *)
| Split.              (* the checksum asked for a split *)

Fixpoint fill (k : nat) (r : RollSum) (evs : list event)
  : list byte * fill_end * RollSum * list event :=
  match k with
  | O => ([], Full, r, evs)
  | S k' =>
      match evs with
      | [] => ([], AtEOF, r, [])
      | Hole h :: evs' => ([], HoleFound h, roll_zeros Roll (Z.to_nat h) r, evs')
      | Lit c :: evs' =>
          let r' := Roll r c in
          if OnSplitWithBits r' RollsumBits then ([c], Split, r', evs')
          else
            let '(d, o, r2, evs2) := fill k' r' evs' in
            (c :: d, o, r2, evs2)
      end
  end.

(** What the chunk reader knows between two calls: the hole still to
    hand out, whether end-of-stream was seen, the checksum, and the
    events its detector has still to report. *)
Record view : Type := mkView {
  v_hole : Z;
  v_closed : bool;
  v_sum : RollSum;
  v_evs : list event
}.

Definition view_of (rc : rollingChecksumReader RollSum) : view :=
  {| v_hole := pendingHole rc; v_closed := closed rc; v_sum := rollsum rc;
     v_evs := remaining (rc_reader rc) |}.

(** One call of [Read] with a buffer of [n] bytes, on views: whether to
    split, the bytes delivered, whether end-of-stream is reported,
    [IsLastChunkZeros] after the call, and the next view. *)
Definition Read_view (n : nat) (v : view) : (bool * list byte * bool * bool) * view :=
  if 0 <? v_hole v then
    let k := if v_hole v <? Z.of_nat n then v_hole v else Z.of_nat n in
    ((v_hole v - k =? 0, repeat x00 (Z.to_nat k), false, true),
     {| v_hole := v_hole v - k; v_closed := v_closed v; v_sum := v_sum v;
        v_evs := v_evs v |})
  else if v_closed v then ((false, [], true, false), v)
  else
    let '(d, o, r, evs) := fill n (v_sum v) (v_evs v) in
    match o with
    | Full =>
        ((false, d, false, false),
         {| v_hole := v_hole v; v_closed := false; v_sum := r; v_evs := evs |})
    | AtEOF =>
        ((false, d, match d with [] => true | _ => false end, false),
         {| v_hole := v_hole v; v_closed := true; v_sum := r; v_evs := evs |})
    | HoleFound h =>
        ((true, d, false, false),
         {| v_hole := h; v_closed := false; v_sum := r; v_evs := evs |})
    | Split =>
        ((true, d, false, false),
         {| v_hole := v_hole v; v_closed := false; v_sum := r; v_evs := evs |})
    end.

(** The states of a chunk reader over a payload that ends with [EOF]
    and is short enough for the counters. *)
Definition rc_ok (rc : rollingChecksumReader RollSum) : Prop :=
  hf_ok (rc_reader rc) /\ quiet (rc_reader rc) /\
  0 <= pendingHole rc /\ 0 <= WrittenOut rc /\
  WrittenOut rc + pendingHole rc +
    Z.of_nat (length (flat (remaining (rc_reader rc)))) <= max_int64 /\
  (closed rc = true -> remaining (rc_reader rc) = [] /\ pendingHole rc = 0).

(** Calling [Read] with the same buffer until it reports an error: for
    each call that delivered, whether it asked for a split, the bytes
    [b[:n]] and [IsLastChunkZeros] after the call; and the error that
    ended the run. *)
Fixpoint Read_all (fuel : nat) (b : list byte) (rc : rollingChecksumReader RollSum)
  : option (list (bool * list byte * bool) * error) :=
  match fuel with
  | O => None
  | S fuel' =>
      do '((mustSplit, n, err), b', rc') <- Read Roll OnSplitWithBits b rc;
      match err with
      | Some e => Some ([], e)
      | None =>
          do '(calls, e) <- Read_all fuel' b' rc';
          Some ((mustSplit, firstn (Z.to_nat n) b', IsLastChunkZeros rc') :: calls, e)
      end
  end.

(** Calling [Read] once with each of the buffers [bufs], whatever the
    calls return: the results with the buffers after the calls, and the
    reader at the end. *)
Fixpoint Read_many (bufs : list (list byte)) (rc : rollingChecksumReader RollSum)
  : option (list (ReadResult * list byte) * rollingChecksumReader RollSum) :=
  match bufs with
  | [] => Some ([], rc)
  | b :: bufs' =>
      do '(res, b', rc') <- Read Roll OnSplitWithBits b rc;
      do '(rest, rc'') <- Read_many bufs' rc';
      Some ((res, b') :: rest, rc'')
  end.

(** The chunks a run of calls delimits, the way the orchestrator cuts
    them: bytes pile up in [cur] until a call asks for a split, a chunk
    is recorded when it is not empty, with the kind [IsLastChunkZeros]
    gives at that call; end-of-stream closes the last chunk as data. A
    chunk is (is it a run of zeros, its bytes). *)
Definition one_chunk (zeros : bool) (bs : list byte) : list (bool * list byte) :=
  match bs with
  | [] => []
  | _ => [(zeros, bs)]
  end.

Fixpoint group_chunks (cur : list byte) (calls : list (bool * list byte * bool))
  : list (bool * list byte) :=
  match calls with
  | [] => one_chunk false cur
  | (mustSplit, d, il) :: rest =>
      if mustSplit then one_chunk il (cur ++ d) ++ group_chunks [] rest
      else group_chunks (cur ++ d) rest
  end.

(** The chunks of a payload, written directly on its events: literal
    bytes pile up in [cur] and are rolled into the checksum, a chunk of
    data ends where the checksum asks for a split, before a hole and at
    the end; a hole is a chunk of zeros of its own. *)
Fixpoint cut (r : RollSum) (cur : list byte) (evs : list event) : list (bool * list byte) :=
  match evs with
  | [] => one_chunk false cur
  | Lit c :: t =>
      let r' := Roll r c in
      if OnSplitWithBits r' RollsumBits then (false, cur ++ [c]) :: cut r' [] t
      else cut r' (cur ++ [c]) t
  | Hole h :: t =>
      one_chunk false cur ++
      (true, repeat x00 (Z.to_nat h)) :: cut (roll_zeros Roll (Z.to_nat h) r) [] t
  end.

(** The chunks of a payload. *)
Definition payload_chunks (p : list byte) : list (bool * list byte) :=
  cut NewRollSum [] (scan holesThreshold 0 p).

(** The chunks still to come from a reader with view [v] when [cur] are
    the bytes of the chunk under way. *)
Definition chunks_from (v : view) (cur : list byte) : list (bool * list byte) :=
  if 0 <? v_hole v
  then (true, cur ++ repeat x00 (Z.to_nat (v_hole v))) :: cut (v_sum v) [] (v_evs v)
  else cut (v_sum v) cur (v_evs v).

(** Calls of [Read] that deliver are at most this many. *)
Definition view_measure (v : view) : nat :=
  (Z.to_nat (v_hole v) + 2 * length (flat (v_evs v)) + if v_closed v then 0 else 1)%nat.

End ChunkerOnEvents.

(** The offsets at which consecutive intervals of the given sizes start,
    the first one at [lo]; and the sum of the sizes. *)
Fixpoint starts (lo : Z) (sizes : list Z) : list Z :=
  match sizes with
  | [] => []
  | s :: t => lo :: starts (lo + s) t
  end.

Definition total (sizes : list Z) : Z := fold_right Z.add 0 sizes.


(** ** The orchestrator on chunks

    What the loop over a payload keeps true, for a payload [p] that ends
    with [EOF]; [done] are the chunks already recorded, as (is it a run
    of zeros, its bytes). *)
Section OrchestratorOnChunks.

Variable RollSum : Type.
Variable Roll : RollSum -> byte -> RollSum.
Variable OnSplitWithBits : RollSum -> Z -> bool.
Variable Out : Type.
Variable zw_Write : Out -> list byte -> goerror * Out.
Variable zw_Close : Out -> goerror * Out.
Variable zw_Flush : Out -> goerror * Out.
Variable zw_Reset : Out -> Out.
Variable dest_Count : Out -> Z.
Variable digest_String : list byte -> string.
Variable ChunkTypeData : string.
Variable ChunkTypeZeros : string.

Definition chunk_bytes (done : list (bool * list byte)) : list byte :=
  concat (map snd done).

(** The record of the chunk [k], which starts at offset [off] of the payload. *)
Definition chunk_matches (off : Z) (k : bool * list byte) (c : chunk) : Prop :=
  c_ChunkOffset c = off /\
  c_ChunkSize c = Z.of_nat (length (snd k)) /\
  0 < c_ChunkSize c /\
  c_Checksum c = digest_String (snd k) /\
  c_ChunkType c = (if fst k then ChunkTypeZeros else ChunkTypeData).

Fixpoint chunks_match (off : Z) (ks : list (bool * list byte)) (cs : list chunk) : Prop :=
  match ks, cs with
  | [], [] => True
  | k :: ks', c :: cs' =>
      chunk_matches off k c /\ chunks_match (off + Z.of_nat (length (snd k))) ks' cs'
  | _, _ => False
  end.

Definition ps_inv (p : list byte) (st : payloadState RollSum Out)
  (done : list (bool * list byte)) : Prop :=
  let v := view_of (rcReader st) in
  rc_ok (rcReader st) /\
  (0 < length (ps_buf st))%nat /\
  payloadDigester st ++ repeat x00 (Z.to_nat (v_hole v)) ++ flat (v_evs v) = p /\
  WrittenOut (rcReader st) = Z.of_nat (length (payloadDigester st)) /\
  chunk_bytes done ++ chunkDigester st = payloadDigester st /\
  lastChunkOffset st = Z.of_nat (length (chunk_bytes done)) /\
  chunks_match 0 done (chunks st) /\
  (chunks st <> [] -> 0 < startOffset st) /\
  ps_err st = None /\
  checksum st = String.EmptyString.

(** What holds when the loop is left. *)
Definition ps_final (p : list byte) (st : payloadState RollSum Out)
  (done : list (bool * list byte)) : Prop :=
  chunks_match 0 done (chunks st) /\
  (0 < startOffset st -> checksum st = digest_String p /\ chunk_bytes done = p) /\
  (startOffset st <= 0 -> checksum st = String.EmptyString /\ chunks st = []) /\
  ps_err st = None.

(** The encoder has put bytes into the destination whenever a frame is
    closed: the offset [restartCompression] reports is positive. *)
Definition restart_positive (o : Out) : Prop :=
  forall off o',
  restartCompression zw_Close zw_Flush zw_Reset dest_Count o = ((off, None), o') -> 0 < off.

(** What the loop over a payload keeps true of the compressed offsets,
    [o] being the output side when the loop is entered: the encoder is
    not touched before the first payload bytes; [startOffset] is what
    the first restart reports, and it is the offset of the first chunk. *)
Definition ps_offsets (o : Out) (st : payloadState RollSum Out) : Prop :=
  0 <= startOffset st /\
  (startOffset st = 0 ->
   ps_out st = o /\ payloadDigester st = [] /\ chunks st = []) /\
  (0 < startOffset st ->
   payloadDigester st <> [] /\
   (exists oa,
      restartCompression zw_Close zw_Flush zw_Reset dest_Count o =
        ((startOffset st, None), oa)) /\
   (chunks st = [] -> lastOffset st = startOffset st) /\
   (forall c cs, chunks st = c :: cs -> c_Offset c = startOffset st)).

(** An error that a write, a close or a flush of the encoder gave. *)
Definition encoder_error (g : goerror) : Prop :=
  exists x, g = Some x /\
    ((exists o p, fst (zw_Write o p) = Some x) \/
     (exists o, fst (zw_Close o) = Some x) \/
     (exists o, fst (zw_Flush o) = Some x)).

(** With such an encoder the chunks recorded are those of the payload. *)
Definition ps_canon (target : list (bool * list byte)) (st : payloadState RollSum Out)
  (done : list (bool * list byte)) : Prop :=
  done ++ chunks_from Roll OnSplitWithBits (view_of (rcReader st)) (chunkDigester st) = target /\
  (payloadDigester st = [] /\ startOffset st = 0 \/ 0 < startOffset st).

Definition ps_measure (st : payloadState RollSum Out) : nat :=
  view_measure (view_of (rcReader st)).

End OrchestratorOnChunks.

(** The records of one archive entry: the primary record, of the
    entry's type, then records of the chunk type, all under the entry's
    name. *)
Definition entry_group (GetType : byte -> string * goerror) (TypeChunk : string)
  (e : tarEntry) (g : list FileMetadata) : Prop :=
  exists m rest,
    g = m :: rest /\
    Type_ m = fst (GetType (Typeflag (te_hdr e))) /\
    Forall (fun x => Type_ x = TypeChunk) rest /\
    Forall (fun x => Name x = hdr_Name (te_hdr e)) g.

(** ** The pipe-backed writer

    [zstdChunkedWriter] and the goroutine that feeds it. The two sides
    share a channel of capacity 1 and an [io.Pipe]; they are modelled by
    their state, and each operation either returns (with the new state)
    or blocks. *)
Module PipeWriter.

(** [chan error]: the values sent and not yet received, and whether the
    channel was closed. *)
Record chan : Type := mkChan {
  ch_buf : list goerror;
  ch_closed : bool
}.

(** [io.Pipe]: the errors stored by closing the write end and the read
    end; the pipe is done as soon as one of them is set. *)
Record pipe : Type := mkPipe {
  werr : goerror;
  rerr : goerror
}.

Record world : Type := mkWorld {
  tarSplitErr : chan;
  tarSplitOut : pipe
}.

(** What a call does in a given state: it returns at once, or it waits
    for the goroutine to act first. *)
Inductive outcome (A : Type) : Type :=
| Returns (a : A) (w : world)
| Blocks.
Arguments Returns {A} a w.
Arguments Blocks {A}.

(** [<-ch]: a value that was sent, else the zero value of a closed
    channel, else the receiver waits. *)
Definition recv (c : chan) : option (goerror * chan) :=
  match ch_buf c with
  | v :: rest => Some (v, {| ch_buf := rest; ch_closed := ch_closed c |})
  | [] => if ch_closed c then Some (None, c) else None
  end.

Definition pipe_done (p : pipe) : bool :=
  match werr p, rerr p with
  | None, None => false
  | _, _ => true
  end.

(** [PipeWriter.Close]: stores [io.EOF] as the write error unless one is
    stored already, and returns nil. *)
Definition pw_Close (p : pipe) : goerror * pipe :=
  (None, {| werr := match werr p with None => Some EOF | Some e => Some e end;
            rerr := rerr p |}).

(** [PipeReader.Close]. *)
Definition pr_Close (p : pipe) : pipe :=
  {| werr := werr p;
     rerr := match rerr p with None => Some ErrClosedPipe | Some e => Some e end |}.

Definition writeCloseError (p : pipe) : error :=
  match werr p, rerr p with
  | None, Some e => e
  | _, _ => ErrClosedPipe
  end.

(** [PipeWriter.Write] on a pipe that is done returns at once with the
    close error. On an open pipe it hands the bytes to the read end and
    waits until they are taken, and then returns [(len(p), nil)]: the
    bytes in flight and the reads of the goroutine are not part of
    [pipe], so this definition answers [None] there, which says only
    that the call does not return before the read end has acted. *)
Definition pw_Write (p : pipe) (bs : list byte) : option (Z * goerror) :=
  if pipe_done p then Some (0, Some (writeCloseError p)) else None.

(** [func (w zstdChunkedWriter) Close() error] *)
Definition Close (w : world) : outcome goerror :=
  match recv (tarSplitErr w) with
  | None => Blocks
  | Some (err, c) =>
      let '(cerr, p) := pw_Close (tarSplitOut w) in
      let w' := {| tarSplitErr := c; tarSplitOut := p |} in
      match err with
      | Some e => Returns (Some e) w'
      | None => Returns cerr w'
      end
  end.

(** [func (w zstdChunkedWriter) Write(p []byte) (int, error)]: the
    [select] takes the receive when it is ready and the [default]
    otherwise. *)
Definition Write (bs : list byte) (w : world) : outcome (Z * goerror) :=
  match recv (tarSplitErr w) with
  | Some (err, c) =>
      let '(_, p) := pw_Close (tarSplitOut w) in
      Returns (0, err) {| tarSplitErr := c; tarSplitOut := p |}
  | None =>
      match pw_Write (tarSplitOut w) bs with
      | Some r => Returns r w
      | None => Blocks
      end
  end.

(** [zstdChunkedWriterWithLevel]: a fresh channel and a fresh pipe. *)
Definition start : world :=
  {| tarSplitErr := {| ch_buf := []; ch_closed := false |};
     tarSplitOut := {| werr := None; rerr := None |} |}.

(** The goroutine, once [writeZstdChunkedStream] has returned [result]:
    [ch <- result]; the channel has room for it. *)
Definition bg_finish (result : goerror) (w : world) : world :=
  {| tarSplitErr := {| ch_buf := ch_buf (tarSplitErr w) ++ [result];
                       ch_closed := ch_closed (tarSplitErr w) |};
     tarSplitOut := tarSplitOut w |}.

(** The goroutine, once the rest of the pipe is drained: [r.Close()],
    [close(ch)]. *)
Definition bg_close (w : world) : world :=
  {| tarSplitErr := {| ch_buf := ch_buf (tarSplitErr w); ch_closed := true |};
     tarSplitOut := pr_Close (tarSplitOut w) |}.

(** The state [k] steps of the goroutine later ([k] is 0 or 1 once the
    result was sent). *)
Definition bg_after (closed_by_then : bool) (w : world) : world :=
  if closed_by_then then bg_close w else w.

End PipeWriter.

(** ** The compressor

    [zstdChunkedWriterWithLevel] and [ZstdCompressor]. The writer that
    is returned is the shared state of [PipeWriter]; the goroutine that
    is started is returned with it, as a function of the archive that
    the caller will send through the pipe. *)
Section Compressor.

Variable RollSum : Type.
Variable NewRollSum : RollSum.
Variable Roll : RollSum -> byte -> RollSum.
Variable OnSplitWithBits : RollSum -> Z -> bool.
Variable Out : Type.
Variable ZstdWriterWithLevel : Out -> Z -> goerror * Out.
Variable zw_Write : Out -> list byte -> goerror * Out.
Variable zw_Close : Out -> goerror * Out.
Variable zw_Flush : Out -> goerror * Out.
Variable zw_Reset : Out -> Out.
Variable dest_Count : Out -> Z.
Variable WriteZstdChunkedManifest :
  Out -> list (string * string) -> Z -> list FileMetadata -> Z -> goerror * Out.
Variable digest_String : list byte -> string.
Variable base64_EncodeToString : string -> string.
Variable GetType : byte -> string * goerror.
Variable TypeChunk : string.
Variable ChunkTypeData : string.
Variable ChunkTypeZeros : string.

(** The goroutine up to its first statement included,
    [ch <- writeZstdChunkedStream(out, metadata, r, level)]; what comes
    after it, once the pipe is drained, is [PipeWriter.bg_close]. *)
Definition goroutine (out : Out) (metadata : list (string * string)) (level : Z)
  (fuel : nat) (reader : tarReader) (w : PipeWriter.world) : option PipeWriter.world :=
  do r <- writeZstdChunkedStream NewRollSum Roll OnSplitWithBits ZstdWriterWithLevel
            zw_Write zw_Close zw_Flush zw_Reset dest_Count WriteZstdChunkedManifest
            digest_String base64_EncodeToString GetType TypeChunk ChunkTypeData
            ChunkTypeZeros fuel out metadata reader level;
  Some (PipeWriter.bg_finish (fst r) w).

Definition zstdChunkedWriterWithLevel (out : Out) (metadata : list (string * string))
  (level : Z)
  : (PipeWriter.world * (nat -> tarReader -> PipeWriter.world -> option PipeWriter.world))
    * goerror :=
  ((PipeWriter.start, goroutine out metadata level), None).

(** [level *int]: [None] is the nil pointer. *)
Definition ZstdCompressor (r : Out) (metadata : list (string * string)) (level : option Z)
  : (PipeWriter.world * (nat -> tarReader -> PipeWriter.world -> option PipeWriter.world))
    * goerror :=
  let level := match level with None => 10 | Some l => l end in
  zstdChunkedWriterWithLevel r metadata level.

End Compressor.

(** ** An encoder that records what it is given

    To say which bytes the orchestrator hands to the encoder, and in
    which order, the encoder is replaced by one that keeps every byte
    written to it; closing, flushing and resetting it leave the record
    alone, and it never fails. Its destination counts one byte more
    than the record, so that every restart reports a positive offset. *)
Module Recorder.

Definition Out : Type := list byte.
Definition ZstdWriterWithLevel (o : Out) (level : Z) : goerror * Out := (None, o).
Definition zw_Write (o : Out) (p : list byte) : goerror * Out := (None, o ++ p).
Definition zw_Close (o : Out) : goerror * Out := (None, o).
Definition zw_Flush (o : Out) : goerror * Out := (None, o).
Definition zw_Reset (o : Out) : Out := o.
Definition dest_Count (o : Out) : Z := 1 + Z.of_nat (length o).
Definition WriteZstdChunkedManifest (o : Out) (outMetadata : list (string * string))
  (off : Z) (md : list FileMetadata) (level : Z) : goerror * Out := (None, o).

End Recorder.

(** ** Stand-ins for the external collaborators

    Small executable instances, used to run the model on concrete
    archives: a byte-sum checksum (it splits when the low bits of the sum
    are all ones), an encoder that stores its input behind a one-byte
    frame header and never fails, and trivial digests and encodings. *)
Module Demo.

Import String.

Definition RollSum : Type := Z.
Definition NewRollSum : RollSum := 0.
Definition Roll (r : RollSum) (b : byte) : RollSum :=
  (r + Z.of_N (Byte.to_N b)) mod 2 ^ 32.
Definition OnSplitWithBits (r : RollSum) (n : Z) : bool :=
  Z.land r (Z.ones n) =? Z.ones n.

(** Bytes already in the destination, and bytes of the open frame. *)
Definition Out : Type := (nat * nat)%type.
Definition ZstdWriterWithLevel (o : Out) (level : Z) : goerror * Out := (None, o).
Definition zw_Write (o : Out) (p : list byte) : goerror * Out :=
  (None, (fst o, snd o + List.length p)%nat).
Definition zw_Close (o : Out) : goerror * Out := (None, (S (fst o + snd o), O)).
Definition zw_Flush (o : Out) : goerror * Out := (None, o).
Definition zw_Reset (o : Out) : Out := (fst o, O).
Definition dest_Count (o : Out) : Z := Z.of_nat (fst o).
Definition WriteZstdChunkedManifest (o : Out) (outMetadata : list (string * string))
  (off : Z) (md : list FileMetadata) (level : Z) : goerror * Out := (None, o).

Definition digest_String (p : list byte) : string := string_of_list_byte p.
Definition base64_EncodeToString (s : string) : string := s.
Definition GetType (t : byte) : string * goerror :=
  (String.String (Ascii.ascii_of_byte t) String.EmptyString, None).
Definition TypeChunk : string := "chunk"%string.
Definition ChunkTypeData : string := String.EmptyString.
Definition ChunkTypeZeros : string := "zeros"%string.

Definition hdr (name : string) (size : Z) : Header :=
  {| Typeflag := x30; hdr_Name := name; hdr_Linkname := String.EmptyString;
     hdr_Mode := 420; hdr_Size := size; hdr_Uid := 0; hdr_Gid := 0;
     hdr_ModTime := 0; hdr_AccessTime := 0; hdr_ChangeTime := 0;
     hdr_Devmajor := 0; hdr_Devminor := 0; hdr_Xattrs := [] |}.

Definition entry (name : string) (payload : list byte) (e : error) : tarEntry :=
  {| te_hdr := hdr name (Z.of_nat (List.length payload)); te_raw := repeat x00 512;
     te_payload := payload; te_fin := e |}.

Definition run_entry (fuel : nat) (e : tarEntry) :=
  entry_body NewRollSum Roll OnSplitWithBits zw_Write zw_Close zw_Flush zw_Reset
    dest_Count digest_String base64_EncodeToString GetType TypeChunk
    ChunkTypeData ChunkTypeZeros fuel
    {| ss_out := (O, O); ss_buf := repeat x00 4096; metadata := [] |} e.

Definition run_stream (fuel : nat) (r : tarReader) :=
  writeZstdChunkedStream NewRollSum Roll OnSplitWithBits ZstdWriterWithLevel
    zw_Write zw_Close zw_Flush zw_Reset dest_Count WriteZstdChunkedManifest
    digest_String base64_EncodeToString GetType TypeChunk
    ChunkTypeData ChunkTypeZeros fuel (O, O) [] r 10.

(** Concrete inputs. *)
Definition ss0 : streamState Out :=
  {| ss_out := (O, O); ss_buf := repeat x00 4096; metadata := [] |}.

Definition sparse : list byte := [x01; x02] ++ repeat x00 1024 ++ [x03].
Definition e_sparse : tarEntry := entry "sparse" sparse EOF.
Definition e_empty : tarEntry := entry "empty" [] EOF.
Definition e_truncated : tarEntry := entry "truncated" [] ErrUnexpectedEOF.

Definition e_cut : tarEntry := entry "cut" [x01; x02] ErrUnexpectedEOF.

(** What a run on one entry leaves in the metadata: type, chunk type,
    chunk offset and chunk size of each record. *)
Definition records_of (r : option (streamState Out + goerror * Out))
  : option (list (string * string * Z * Z)) :=
  match r with
  | Some (inl ss) =>
      Some (map (fun m => (Type_ m, ChunkType m, ChunkOffset m, ChunkSize m)) (metadata ss))
  | _ => None
  end.

Definition rc_at_eof : rollingChecksumReader RollSum :=
  {| rc_reader := newHolesFinder [] EOF; closed := true; rollsum := NewRollSum;
     pendingHole := 0; WrittenOut := 0; IsLastChunkZeros := false |}.

Definition two_chunks : payloadState RollSum Out :=
  {| ps_out := (O, O); ps_err := None; ps_buf := [x00];
     startOffset := 513; lastOffset := 520; lastChunkOffset := 5;
     checksum := "digest"; chunks :=
       [ {| c_ChunkOffset := 0; c_Offset := 513; c_Checksum := "d0";
            c_ChunkSize := 2; c_ChunkType := ChunkTypeData |};
         {| c_ChunkOffset := 2; c_Offset := 516; c_Checksum := "d1";
            c_ChunkSize := 3; c_ChunkType := ChunkTypeData |} ];
     payloadDigester := []; chunkDigester := [];
     rcReader := rc_at_eof |}.

Definition h_two : Header := hdr "f" 5.
Definition reg : string := "reg".
Definition reg_flag : string := "0".

(** A payload of zero bytes cut off by a failing source, archives, and
    a reader in the middle of a hole. *)
Definition e_hole_cut : tarEntry := entry "hole" (repeat x00 1024) ErrUnexpectedEOF.

Definition e_zeros : tarEntry := entry "zeros" (repeat x00 1024) EOF.

Definition archive : tarReader :=
  {| tr_entries := [e_sparse; e_empty]; tr_end := EOF; tr_trailer := repeat x00 1024 |}.

Definition archive_cut : tarReader :=
  {| tr_entries := [e_empty]; tr_end := ErrUnexpectedEOF; tr_trailer := [] |}.

Definition rc_in_hole : rollingChecksumReader RollSum :=
  {| rc_reader := newHolesFinder [x01] EOF; closed := false; rollsum := NewRollSum;
     pendingHole := 5; WrittenOut := 3; IsLastChunkZeros := false |}.

Definition boom : error := ErrOther "no space left on device".
Definition failed : PipeWriter.world :=
  PipeWriter.bg_finish (Some boom) PipeWriter.start.

End Demo.

(** * Properties *)

Unset Implicit Arguments.

(** ** Machine arithmetic without overflow *)

Lemma wrap64_small (z : Z) : - 2 ^ 63 <= z <= max_int64 -> wrap64 z = z.
Proof.
  unfold wrap64, max_int64. intros H.
  rewrite Z.mod_small by lia. lia.
Qed.

Lemma add64_small (a b : Z) : - 2 ^ 63 <= a + b <= max_int64 -> add64 a b = a + b.
Proof. apply wrap64_small. Qed.

Lemma sub64_small (a b : Z) : - 2 ^ 63 <= a - b <= max_int64 -> sub64 a b = a - b.
Proof. apply wrap64_small. Qed.

Lemma holesThreshold_eq : holesThreshold = 1024.
Proof. reflexivity. Qed.

Lemma is_zero_true (b : byte) : is_zero b = true -> b = x00.
Proof. destruct b; simpl; congruence. Qed.

(** ** [readByte] always returns *)

Lemma ReadByte_cons (r : bufioReader) (c : byte) (t : list byte) :
  pending r = c :: t ->
  ReadByte r = ((c, None), {| pending := t; fin := fin r; lastByte := Some c |}).
Proof. unfold ReadByte. intros ->. reflexivity. Qed.

Lemma ReadByte_nil (r : bufioReader) :
  pending r = [] -> ReadByte r = ((x00, Some (fin r)), r).
Proof. unfold ReadByte. intros ->. reflexivity. Qed.

Ltac splits := repeat match goal with |- _ /\ _ => split end.

Ltac hsimpl :=
  cbn -[Z.eqb Z.ltb Z.leb Z.add Z.sub Z.mul Z.of_nat Z.to_nat Z.pow
        add64 sub64 wrap64 max_int64 readByte_loop].
Ltac hsimpl_all :=
  cbn -[Z.eqb Z.ltb Z.leb Z.add Z.sub Z.mul Z.of_nat Z.to_nat Z.pow
        add64 sub64 wrap64 max_int64 readByte_loop] in *.
Ltac weigh := unfold readByte_weight in *; hsimpl_all; lia.

Lemma readByte_loop_total (fuel : nat) :
  forall f, (readByte_weight f < fuel)%nat ->
  exists r, readByte_loop fuel f = Some r.
Proof.
  induction fuel as [|fuel IH]; intros f Hw; [lia|].
  destruct f as [[l e lb] z th st].
  cbn [readByte_loop]. unfold readByte_body.
  destruct st; hsimpl.
  - destruct (0 <? z); [eexists; reflexivity|].
    destruct l as [|c t]; hsimpl; [eexists; reflexivity|].
    destruct (is_zero c); hsimpl; [|eexists; reflexivity].
    destruct (1 =? th); apply IH; weigh.
  - destruct l as [|c t]; hsimpl.
    + destruct (is_EOF e); [|eexists; reflexivity].
      apply IH. weigh.
    + destruct (is_zero c); hsimpl.
      * destruct (add64 z 1 =? th); apply IH; weigh.
      * apply IH. weigh.
  - destruct l as [|c t]; hsimpl; [eexists; reflexivity|].
    destruct (is_zero c); hsimpl; [|eexists; reflexivity].
    apply IH. weigh.
  - destruct (0 <? z); eexists; reflexivity.
Qed.

Lemma readByte_total (f : holesFinder) : exists r, readByte f = Some r.
Proof. apply readByte_loop_total. lia. Qed.

Lemma readByte_loop_fuel (fuel : nat) :
  forall f fuel' r, readByte_loop fuel f = Some r -> (fuel <= fuel')%nat ->
  readByte_loop fuel' f = Some r.
Proof.
  induction fuel as [|fuel IH]; intros f fuel' r H Hle; [discriminate|].
  destruct fuel' as [|fuel']; [lia|].
  cbn [readByte_loop] in *. destruct (readByte_body f); [|assumption].
  apply IH; [assumption | lia].
Qed.

Lemma flush_zero (th : Z) : flush th 0 = [].
Proof. reflexivity. Qed.

Lemma flush_below (th z : Z) : 0 <= z < th -> flush th z = repeat (Lit x00) (Z.to_nat z).
Proof.
  intros H. unfold flush.
  destruct (Z.leb_spec z 0).
  - replace z with 0 by lia. reflexivity.
  - destruct (Z.leb_spec th z); [lia | reflexivity].
Qed.

Lemma flush_hole (th z : Z) : 1 <= th <= z -> flush th z = [Hole z].
Proof.
  intros H. unfold flush.
  destruct (Z.leb_spec z 0); [lia|].
  destruct (Z.leb_spec th z); [reflexivity | lia].
Qed.

Lemma repeat_succ_Z (A : Type) (a : A) (z : Z) :
  0 < z -> repeat a (Z.to_nat z) = a :: repeat a (Z.to_nat (z - 1)).
Proof.
  intros H. replace (Z.to_nat z) with (S (Z.to_nat (z - 1))) by lia. reflexivity.
Qed.

Ltac leaf :=
  unfold hf_ok, quiet, remaining, emits; hsimpl_all;
  change (Z.to_nat 0) with O; rewrite ?flush_zero; hsimpl.

Ltac hf_solve := unfold hf_ok; hsimpl_all; repeat split; auto; lia.

Lemma readByte_loop_emits (fuel : nat) :
  forall f, (readByte_weight f < fuel)%nat -> hf_ok f ->
  exists res f',
    readByte_loop fuel f = Some (res, f') /\
    hf_ok f' /\ quiet f' /\ hf_threshold f' = hf_threshold f /\
    emits (remaining f) res (remaining f').
Proof.
  induction fuel as [|fuel IH]; intros f Hw Hok; [lia|].
  destruct f as [[l e lb] z th st].
  unfold hf_ok in Hok. hsimpl_all. destruct Hok as (He & Hth & Hz & Hmax & Hst). subst e.
  cbn [readByte_loop]. unfold readByte_body.
  destruct st; hsimpl.
  - (* Read *)
    destruct (Z.ltb_spec 0 z).
    + eexists _, _. split; [reflexivity|].
      rewrite sub64_small by (unfold max_int64 in *; lia).
      leaf.
      rewrite (repeat_succ_Z _ _ _ H). hsimpl.
      repeat split; auto; try lia.
    + assert (z = 0) by lia. subst z.
      destruct l as [|c t]; hsimpl_all.
      * eexists _, _. split; [reflexivity|].
        leaf.
        repeat split; auto; lia.
      * destruct (is_zero c) eqn:Hc; hsimpl_all.
        -- apply is_zero_true in Hc. subst c.
           destruct (Z.eqb_spec 1 th).
           ++ subst th.
              destruct (IH {| hf_reader := {| pending := t; fin := EOF; lastByte := Some x00 |};
                              hf_zeros := 1; hf_threshold := 1;
                              hf_state := holesFinderStateFound |})
                as (res & f' & Hr & Hok' & Hq & Hth' & Hem).
              { weigh. }
              { hf_solve. }
              exists res, f'. do 4 (split; [assumption|]).
              unfold remaining in Hem |- *; hsimpl_all. exact Hem.
           ++ destruct (IH {| hf_reader := {| pending := t; fin := EOF; lastByte := Some x00 |};
                              hf_zeros := 1; hf_threshold := th;
                              hf_state := holesFinderStateAccumulate |})
                as (res & f' & Hr & Hok' & Hq & Hth' & Hem).
              { weigh. }
              { hf_solve. }
              exists res, f'. do 4 (split; [assumption|]).
              unfold remaining in Hem |- *; hsimpl_all. exact Hem.
        -- eexists _, _. split; [reflexivity|].
           leaf.
           repeat split; auto; lia.
  - (* Accumulate *)
    destruct Hst as [Hlt Hge].
    destruct l as [|c t]; hsimpl_all.
    + destruct (IH {| hf_reader := {| pending := []; fin := EOF; lastByte := lb |};
                      hf_zeros := z; hf_threshold := th;
                      hf_state := holesFinderStateEOF |})
        as (res & f' & Hr & Hok' & Hq & Hth' & Hem).
      { weigh. }
      { hf_solve. }
      exists res, f'. do 4 (split; [assumption|]).
      unfold remaining in Hem |- *; hsimpl_all. rewrite flush_below by lia. exact Hem.
    + destruct (is_zero c) eqn:Hc; hsimpl_all.
      * rewrite add64_small by (unfold max_int64 in *; lia).
        destruct (Z.eqb_spec (z + 1) th).
        -- destruct (IH {| hf_reader := {| pending := t; fin := EOF; lastByte := Some c |};
                      hf_zeros := z + 1; hf_threshold := th;
                      hf_state := holesFinderStateFound |})
             as (res & f' & Hr & Hok' & Hq & Hth' & Hem).
           { weigh. }
           { hf_solve. }
           exists res, f'. do 4 (split; [assumption|]).
           unfold remaining in Hem |- *; hsimpl_all. exact Hem.
        -- destruct (IH {| hf_reader := {| pending := t; fin := EOF; lastByte := Some c |};
                      hf_zeros := z + 1; hf_threshold := th;
                      hf_state := holesFinderStateAccumulate |})
             as (res & f' & Hr & Hok' & Hq & Hth' & Hem).
           { weigh. }
           { hf_solve. }
           exists res, f'. do 4 (split; [assumption|]).
           unfold remaining in Hem |- *; hsimpl_all. exact Hem.
      * destruct (IH {| hf_reader := {| pending := c :: t; fin := EOF; lastByte := None |};
                      hf_zeros := z; hf_threshold := th;
                      hf_state := holesFinderStateRead |})
             as (res & f' & Hr & Hok' & Hq & Hth' & Hem).
        { weigh. }
        { hf_solve. }
        exists res, f'. do 4 (split; [assumption|]).
        unfold remaining in Hem |- *; hsimpl_all.
        rewrite Hc, flush_zero in Hem.
        rewrite flush_below by lia. exact Hem.
  - (* Found *)
    destruct l as [|c t]; hsimpl_all.
    + eexists _, _. split; [reflexivity|].
      leaf.
      rewrite flush_hole by lia.
      repeat split; auto; lia.
    + destruct (is_zero c) eqn:Hc; hsimpl_all.
      * rewrite add64_small by (unfold max_int64 in *; lia).
        destruct (IH {| hf_reader := {| pending := t; fin := EOF; lastByte := Some c |};
                      hf_zeros := z + 1; hf_threshold := th;
                      hf_state := holesFinderStateFound |})
             as (res & f' & Hr & Hok' & Hq & Hth' & Hem).
        { weigh. }
        { hf_solve. }
        exists res, f'. do 4 (split; [assumption|]).
        unfold remaining in Hem |- *; hsimpl_all. exact Hem.
      * eexists _, _. split; [reflexivity|].
        leaf.
        rewrite flush_hole by lia. hsimpl. rewrite Hc.
        repeat split; auto; lia.
  - (* EOF *)
    destruct (Z.ltb_spec 0 z).
    + eexists _, _. split; [reflexivity|].
      rewrite sub64_small by (unfold max_int64 in *; lia).
      leaf.
      rewrite (repeat_succ_Z _ _ _ H).
      repeat split; auto; try lia.
    + assert (z = 0) by lia. subst z.
      eexists _, _. split; [reflexivity|].
      leaf.
      repeat split; auto; lia.
Qed.

Lemma readByte_emits (f : holesFinder) :
  hf_ok f ->
  exists res f',
    readByte f = Some (res, f') /\
    hf_ok f' /\ quiet f' /\ hf_threshold f' = hf_threshold f /\
    emits (remaining f) res (remaining f').
Proof. intros H. apply readByte_loop_emits; [lia | exact H]. Qed.

(** ** What the scanner produces *)

Lemma flat_app (a b : list event) : flat (a ++ b) = flat a ++ flat b.
Proof. unfold flat. apply flat_map_app. Qed.

Lemma flat_repeat_Lit (n : nat) : flat (repeat (Lit x00) n) = repeat x00 n.
Proof. induction n as [|n IH]; [reflexivity|]. cbn. unfold flat in IH. now rewrite IH. Qed.

Lemma repeat_snoc (A : Type) (a : A) (n : nat) : repeat a n ++ [a] = a :: repeat a n.
Proof. induction n as [|n IH]; [reflexivity|]. cbn. now rewrite IH. Qed.

Lemma flat_flush (th z : Z) : 0 <= z -> flat (flush th z) = repeat x00 (Z.to_nat z).
Proof.
  intros Hz. unfold flush.
  destruct (Z.leb_spec z 0).
  - replace z with 0 by lia. reflexivity.
  - destruct (th <=? z).
    + cbn. now rewrite app_nil_r.
    + apply flat_repeat_Lit.
Qed.

Lemma flat_scan (th : Z) (l : list byte) :
  forall z, 0 <= z -> flat (scan th z l) = repeat x00 (Z.to_nat z) ++ l.
Proof.
  induction l as [|b t IH]; intros z Hz; cbn [scan].
  - rewrite flat_flush by assumption. now rewrite app_nil_r.
  - destruct (is_zero b) eqn:Hb.
    + apply is_zero_true in Hb. subst b.
      rewrite IH by lia.
      replace (Z.to_nat (z + 1)) with (S (Z.to_nat z)) by lia.
      cbn [repeat]. rewrite <- repeat_snoc. now rewrite <- app_assoc.
    + rewrite flat_app, flat_flush by assumption.
      cbn. change (flat_map ev_bytes (scan th 0 t)) with (flat (scan th 0 t)).
      rewrite IH by lia. reflexivity.
Qed.

Lemma Forall_ev_ok_repeat (th : Z) (n : nat) : Forall (ev_ok th) (repeat (Lit x00) n).
Proof. induction n; cbn; constructor; auto. exact I. Qed.

Lemma Forall_ev_ok_flush (th z : Z) : Forall (ev_ok th) (flush th z).
Proof.
  unfold flush. destruct (z <=? 0); [constructor|].
  destruct (Z.leb_spec th z).
  - constructor; [exact H | constructor].
  - apply Forall_ev_ok_repeat.
Qed.

Lemma Forall_ev_ok_scan (th : Z) (l : list byte) :
  forall z, Forall (ev_ok th) (scan th z l).
Proof.
  induction l as [|b t IH]; intros z; cbn [scan].
  - apply Forall_ev_ok_flush.
  - destruct (is_zero b); [apply IH|].
    apply Forall_app. split; [apply Forall_ev_ok_flush|].
    constructor; [exact I | apply IH].
Qed.

Lemma Forall_ev_ok_remaining (f : holesFinder) :
  Forall (ev_ok (hf_threshold f)) (remaining f).
Proof.
  unfold remaining. destruct (hf_state f).
  - apply Forall_app. split; [apply Forall_ev_ok_repeat | apply Forall_ev_ok_scan].
  - apply Forall_ev_ok_scan.
  - apply Forall_ev_ok_scan.
  - apply Forall_ev_ok_repeat.
Qed.

(** ** Slices *)

Lemma upd_length (i : nat) (v : byte) (b : list byte) : length (upd i v b) = length b.
Proof.
  revert i. induction b as [|h t IH]; intros [|i]; cbn; auto.
Qed.

Lemma firstn_upd_ge (i : nat) (v : byte) (b : list byte) (n : nat) :
  (n <= i)%nat -> firstn n (upd i v b) = firstn n b.
Proof.
  revert i n. induction b as [|h t IH]; intros [|i] [|n] H; cbn; auto; try lia.
  rewrite IH by lia. reflexivity.
Qed.

Lemma firstn_upd_snoc (i : nat) (v : byte) (b : list byte) :
  (i < length b)%nat -> firstn (S i) (upd i v b) = firstn i b ++ [v].
Proof.
  revert i. induction b as [|h t IH]; intros [|i] H; cbn in *; try lia; auto.
  rewrite <- IH by lia. reflexivity.
Qed.

Lemma zero_fill_length (n : nat) : forall i b, length (zero_fill n i b) = length b.
Proof.
  induction n as [|n IH]; intros i b; cbn; [reflexivity|].
  rewrite IH. apply upd_length.
Qed.

Lemma firstn_zero_fill (n : nat) :
  forall i b, (i + n <= length b)%nat ->
  firstn (i + n) (zero_fill n i b) = firstn i b ++ repeat x00 n.
Proof.
  induction n as [|n IH]; intros i b H; cbn [zero_fill repeat].
  - now rewrite Nat.add_0_r, app_nil_r.
  - replace (i + S n)%nat with (S i + n)%nat by lia.
    rewrite IH by (rewrite upd_length; lia).
    rewrite firstn_upd_snoc by lia.
    now rewrite <- app_assoc.
Qed.

(** ** [Read] on events *)
Section Chunking.

Variable RollSum : Type.
Variable NewRollSum : RollSum.
Variable Roll : RollSum -> byte -> RollSum.
Variable OnSplitWithBits : RollSum -> Z -> bool.

Lemma flat_length_cons_Lit (c : byte) (t : list event) :
  length (flat (Lit c :: t)) = S (length (flat t)).
Proof. reflexivity. Qed.

Lemma flat_length_cons_Hole (h : Z) (t : list event) :
  length (flat (Hole h :: t)) = (Z.to_nat h + length (flat t))%nat.
Proof. unfold flat. cbn. rewrite length_app, repeat_length. reflexivity. Qed.

Lemma Read_loop_fill (k : nat) :
  forall i b (rc : rollingChecksumReader RollSum) d o r evs,
  (i + k = length b)%nat ->
  rc_ok rc -> closed rc = false -> pendingHole rc = 0 ->
  fill Roll OnSplitWithBits k (rollsum rc) (remaining (rc_reader rc)) = (d, o, r, evs) ->
  exists b' rc',
    Read_loop Roll OnSplitWithBits k i b rc =
      Some (match o with
            | Full => (false, Z.of_nat (length b), None)
            | AtEOF => if (i + length d =? 0)%nat then (false, 0, Some EOF)
                       else (false, Z.of_nat (i + length d), None)
            | HoleFound _ => (true, Z.of_nat (i + length d), None)
            | Split => (true, Z.of_nat (i + length d), None)
            end, b', rc') /\
    firstn (i + length d) b' = firstn i b ++ d /\
    length b' = length b /\
    rc_ok rc' /\
    WrittenOut rc' = WrittenOut rc + Z.of_nat (length d) /\
    IsLastChunkZeros rc' = IsLastChunkZeros rc /\
    view_of rc' =
      {| v_hole := match o with HoleFound h => h | _ => 0 end;
         v_closed := match o with AtEOF => true | _ => false end;
         v_sum := r; v_evs := evs |} /\
    (i + length d <= length b)%nat /\
    (o = Full -> (i + length d)%nat = length b).
Proof.
  induction k as [|k IH]; intros i b rc d o r evs Hik Hok Hcl Hph Hfill.
  - cbn in Hfill. injection Hfill as <- <- <- <-.
    exists b, rc. cbn [Read_loop length]. rewrite Nat.add_0_r, app_nil_r.
    splits; auto; try lia.
    unfold view_of. now rewrite Hcl, Hph.
  - pose proof Hok as (Hhf & Hq & Hph0 & Hw0 & Hmax & Hclosed).
    destruct (readByte_emits _ Hhf) as (res & f' & Hr & Hhf' & Hq' & Hth' & Hem).
    pose proof (Forall_ev_ok_remaining (rc_reader rc)) as Hevok.
    destruct Hhf as (_ & Hth1 & _).
    cbn [Read_loop]. rewrite Hr. cbn [obind].
    cbn [fill] in Hfill.
    destruct (remaining (rc_reader rc)) as [|[c|h] t] eqn:Hrem; cbn [emits] in Hem.
    + (* end of stream *)
      destruct Hem as [-> Hrem']. injection Hfill as <- <- <- <-.
      cbn [is_EOF length]. rewrite Nat.add_0_r.
      eexists b, _. split; [destruct (i =? 0)%nat; reflexivity|].
      cbn [rc_reader closed rollsum pendingHole WrittenOut IsLastChunkZeros].
      rewrite app_nil_r.
      splits; auto; try lia.
      * unfold rc_ok. cbn [rc_reader closed rollsum pendingHole WrittenOut].
        rewrite Hrem'. cbn [flat flat_map length]. splits; auto; lia.
      * unfold view_of. cbn. now rewrite Hrem', Hph.
      * discriminate.
    + (* a literal byte *)
      destruct Hem as [-> Hrem'].
      change (0 <? 0) with false. cbv iota.
      cbn [rc_reader closed rollsum pendingHole WrittenOut IsLastChunkZeros].
      rewrite flat_length_cons_Lit in Hmax.
      rewrite add64_small by (unfold max_int64 in *; lia).
      assert (Hok1 : rc_ok {| rc_reader := f'; closed := closed rc;
                              rollsum := Roll (rollsum rc) c;
                              pendingHole := pendingHole rc;
                              WrittenOut := WrittenOut rc + 1;
                              IsLastChunkZeros := IsLastChunkZeros rc |}).
      { unfold rc_ok. cbn [rc_reader closed rollsum pendingHole WrittenOut].
        rewrite Hrem'. splits; auto; try lia. intros Hc. congruence. }
      destruct (OnSplitWithBits (Roll (rollsum rc) c) RollsumBits) eqn:Hsplit.
      * injection Hfill as <- <- <- <-.
        eexists _, _. split.
        { replace (Z.of_nat i + 1) with (Z.of_nat (i + length [c]))
            by (cbn [length]; lia).
          reflexivity. }
        cbn [rc_reader closed rollsum pendingHole WrittenOut IsLastChunkZeros length].
        replace (i + 1)%nat with (S i) by lia.
        rewrite firstn_upd_snoc by lia. rewrite upd_length.
        splits; auto; try lia.
        -- unfold view_of. cbn. now rewrite Hrem', Hcl, Hph.
        -- discriminate.
      * destruct (fill Roll OnSplitWithBits k (Roll (rollsum rc) c) t)
          as [[[d1 o1] r1] evs1] eqn:Hfill1.
        injection Hfill as <- <- <- <-.
        edestruct (IH (S i) (upd i c b) _ d1 o1 r1 evs1 ltac:(rewrite upd_length; lia) Hok1)
          as (b' & rc' & HR & Hfirst & Hlen & Hok' & Hw' & Hil' & Hview' & Hle & Hfull).
        { exact Hcl. }
        { exact Hph. }
        { cbn [rollsum rc_reader]. rewrite Hrem'. exact Hfill1. }
        cbn [WrittenOut IsLastChunkZeros] in *.
        rewrite upd_length in *.
        exists b', rc'. cbn [length].
        replace (i + S (length d1))%nat with (S i + length d1)%nat by lia.
        split; [exact HR|].
        split.
        { rewrite Hfirst. rewrite firstn_upd_snoc by lia.
          now rewrite <- app_assoc. }
        splits; auto; try lia.
    + (* a hole *)
      destruct Hem as [-> Hrem'].
      pose proof (Forall_inv Hevok) as Hh. cbn [ev_ok] in Hh.
      destruct (Z.ltb_spec 0 h); [|lia].
      injection Hfill as <- <- <- <-.
      eexists b, _. split; [cbn [length]; rewrite Nat.add_0_r; reflexivity|].
      cbn [rc_reader closed rollsum pendingHole WrittenOut IsLastChunkZeros length].
      rewrite Nat.add_0_r, app_nil_r.
      rewrite flat_length_cons_Hole in Hmax.
      splits; auto; try lia.
      * unfold rc_ok. cbn [rc_reader closed rollsum pendingHole WrittenOut].
        rewrite Hrem'. splits; auto; try lia. intros Hc. congruence.
      * unfold view_of. cbn. now rewrite Hrem', Hcl.
      * discriminate.
Qed.

Lemma Read_view_spec (b : list byte) (rc : rollingChecksumReader RollSum)
  ms d eof il v' :
  rc_ok rc -> (0 < length b)%nat ->
  Read_view Roll OnSplitWithBits (length b) (view_of rc) = ((ms, d, eof, il), v') ->
  exists b' rc',
    Read Roll OnSplitWithBits b rc =
      Some ((ms, Z.of_nat (length d), if eof then Some EOF else None), b', rc') /\
    firstn (length d) b' = d /\
    length b' = length b /\
    rc_ok rc' /\
    view_of rc' = v' /\
    IsLastChunkZeros rc' = il /\
    WrittenOut rc' = WrittenOut rc + Z.of_nat (length d) /\
    (length d <= length b)%nat.
Proof.
  intros Hok Hb Hv.
  pose proof Hok as (Hhf & Hq & Hph0 & Hw0 & Hmax & Hclosed).
  unfold Read_view in Hv. unfold Read.
  cbn [rc_reader closed rollsum pendingHole WrittenOut IsLastChunkZeros v_hole v_closed
       v_sum v_evs view_of] in *.
  destruct (Z.ltb_spec 0 (pendingHole rc)) as [Hpos|Hnpos].
  - (* a hole is being handed out *)
    set (k := if pendingHole rc <? Z.of_nat (length b)
              then pendingHole rc else Z.of_nat (length b)) in *.
    assert (Hk : 0 < k <= pendingHole rc /\ k <= Z.of_nat (length b)).
    { unfold k. destruct (Z.ltb_spec (pendingHole rc) (Z.of_nat (length b))); lia. }
    injection Hv as <- <- <- <- <-.
    rewrite sub64_small by (unfold max_int64 in *; lia).
    rewrite add64_small by (unfold max_int64 in *; lia).
    rewrite repeat_length, Z2Nat.id by lia.
    eexists _, _. split; [reflexivity|].
    cbn [rc_reader closed rollsum pendingHole WrittenOut IsLastChunkZeros].
    splits; auto; try lia.
    + apply (firstn_zero_fill (Z.to_nat k) 0 b). lia.
    + apply zero_fill_length.
    + unfold rc_ok. cbn [rc_reader closed rollsum pendingHole WrittenOut].
      splits; auto; try lia.
      intros Hc. destruct (Hclosed Hc) as [_ Hz]. lia.
  - assert (Hph : pendingHole rc = 0) by lia.
    destruct (closed rc) eqn:Hcl.
    + (* end-of-stream was seen before *)
      injection Hv as <- <- <- <- <-.
      eexists _, _. split; [reflexivity|].
      cbn [rc_reader closed rollsum pendingHole WrittenOut IsLastChunkZeros length firstn].
      splits; auto; try lia.
      * unfold rc_ok. cbn [rc_reader closed rollsum pendingHole WrittenOut].
        splits; auto.
      * unfold view_of. cbn. now rewrite Hcl.
    + destruct (fill Roll OnSplitWithBits (length b) (rollsum rc) (remaining (rc_reader rc)))
        as [[[d1 o1] r1] evs1] eqn:Hfill.
      edestruct (Read_loop_fill (length b) 0 b
                  {| rc_reader := rc_reader rc; closed := closed rc; rollsum := rollsum rc;
                     pendingHole := pendingHole rc; WrittenOut := WrittenOut rc;
                     IsLastChunkZeros := false |} d1 o1 r1 evs1)
        as (b' & rc' & HR & Hfirst & Hlen & Hok' & Hw' & Hil' & Hview' & Hle & Hfull);
        [reflexivity | exact Hok | exact Hcl | exact Hph | exact Hfill |].
      cbn [rc_reader closed rollsum pendingHole WrittenOut IsLastChunkZeros
           Nat.add firstn app] in *.
      rewrite Hcl in HR. rewrite HR.
      exists b', rc'.
      destruct o1; injection Hv as <- <- <- <- <-;
        (split; [|splits; auto; rewrite Hview', ?Hph; reflexivity]).
      * rewrite Hfull; reflexivity.
      * destruct d1; reflexivity.
      * reflexivity.
      * reflexivity.
Qed.


(** ** The chunks behind the calls of [Read] *)

Lemma one_chunk_cons (zeros : bool) (c : byte) (l : list byte) :
  one_chunk zeros (c :: l) = [(zeros, c :: l)].
Proof. reflexivity. Qed.

Lemma one_chunk_snoc (zeros : bool) (l : list byte) (c : byte) :
  one_chunk zeros (l ++ [c]) = [(zeros, l ++ [c])].
Proof. destruct l; reflexivity. Qed.

Lemma one_chunk_app_ne (zeros : bool) (l d : list byte) :
  d <> [] -> one_chunk zeros (l ++ d) = [(zeros, l ++ d)].
Proof. intros H. destruct l; [destruct d; [congruence|]|]; reflexivity. Qed.

Lemma fill_flat (k : nat) :
  forall r evs d o r' evs',
  fill Roll OnSplitWithBits k r evs = (d, o, r', evs') ->
  flat evs =
    d ++ match o with HoleFound h => repeat x00 (Z.to_nat h) | _ => [] end ++ flat evs'.
Proof.
  induction k as [|k IH]; intros r evs d o r' evs' H; cbn [fill] in H.
  - injection H as <- <- <- <-. reflexivity.
  - destruct evs as [|[c|h] t].
    + injection H as <- <- <- <-. reflexivity.
    + destruct (OnSplitWithBits (Roll r c) RollsumBits).
      * injection H as <- <- <- <-. reflexivity.
      * destruct (fill Roll OnSplitWithBits k (Roll r c) t) as [[[d1 o1] r1] evs1] eqn:Hf.
        injection H as <- <- <- <-.
        apply IH in Hf. change (flat (Lit c :: t)) with (c :: flat t).
        rewrite Hf. reflexivity.
    + injection H as <- <- <- <-. reflexivity.
Qed.

Lemma fill_end_facts (k : nat) :
  forall r evs d o r' evs',
  fill Roll OnSplitWithBits k r evs = (d, o, r', evs') ->
  (o = Full -> length d = k) /\
  (o = Split -> d <> []) /\
  (o = AtEOF -> evs' = []) /\
  (forall h, o = HoleFound h -> In (Hole h) evs).
Proof.
  induction k as [|k IH]; intros r evs d o r' evs' H; cbn [fill] in H.
  - injection H as <- <- <- <-. splits; try discriminate; auto.
  - destruct evs as [|[c|h] t].
    + injection H as <- <- <- <-. splits; try discriminate; auto.
    + destruct (OnSplitWithBits (Roll r c) RollsumBits).
      * injection H as <- <- <- <-. splits; try discriminate; auto.
      * destruct (fill Roll OnSplitWithBits k (Roll r c) t) as [[[d1 o1] r1] evs1] eqn:Hf.
        injection H as <- <- <- <-.
        apply IH in Hf. destruct Hf as (H1 & H2 & H3 & H4).
        splits; auto.
        -- intros Ho. cbn. now rewrite H1.
        -- discriminate.
        -- intros h Ho. right. now apply H4.
    + injection H as <- <- <- <-. splits; try discriminate; auto.
      intros h0 Ho. injection Ho as <-. now left.
Qed.

Lemma fill_cut (k : nat) :
  forall r evs d o r' evs' cur,
  fill Roll OnSplitWithBits k r evs = (d, o, r', evs') ->
  cut Roll OnSplitWithBits r cur evs =
    match o with
    | Full => cut Roll OnSplitWithBits r' (cur ++ d) evs'
    | AtEOF => cut Roll OnSplitWithBits r' (cur ++ d) []
    | HoleFound h =>
        one_chunk false (cur ++ d) ++
        (true, repeat x00 (Z.to_nat h)) :: cut Roll OnSplitWithBits r' [] evs'
    | Split => (false, cur ++ d) :: cut Roll OnSplitWithBits r' [] evs'
    end.
Proof.
  induction k as [|k IH]; intros r evs d o r' evs' cur H; cbn [fill] in H.
  - injection H as <- <- <- <-. now rewrite app_nil_r.
  - destruct evs as [|[c|h] t].
    + injection H as <- <- <- <-. now rewrite app_nil_r.
    + cbn [cut]. destruct (OnSplitWithBits (Roll r c) RollsumBits).
      * injection H as <- <- <- <-. reflexivity.
      * destruct (fill Roll OnSplitWithBits k (Roll r c) t) as [[[d1 o1] r1] evs1] eqn:Hf.
        injection H as <- <- <- <-.
        rewrite (IH _ _ _ _ _ _ (cur ++ [c]) Hf).
        rewrite <- !app_assoc. reflexivity.
    + injection H as <- <- <- <-. cbn [cut]. now rewrite app_nil_r.
Qed.

(** A call of [Read] either closes the chunk under way or adds to it. *)
Lemma Read_view_chunks (n : nat) (v : view RollSum) (cur : list byte) ms d eof il v' :
  0 <= v_hole v ->
  (v_closed v = true -> v_evs v = [] /\ v_hole v = 0) ->
  Forall (ev_ok 1) (v_evs v) ->
  Read_view Roll OnSplitWithBits n v = ((ms, d, eof, il), v') ->
  chunks_from Roll OnSplitWithBits v cur =
    (if ms || eof
     then one_chunk il (cur ++ d) ++ chunks_from Roll OnSplitWithBits v' []
     else chunks_from Roll OnSplitWithBits v' (cur ++ d)) /\
  (eof = true ->
   d = [] /\ il = false /\ v_hole v' = 0 /\ v_evs v' = [] /\
   chunks_from Roll OnSplitWithBits v' [] = []).
Proof.
  intros Hph Hcl Hev Hv. unfold Read_view in Hv. unfold chunks_from at 1.
  destruct (Z.ltb_spec 0 (v_hole v)) as [Hpos|Hnpos].
  - set (k := if v_hole v <? Z.of_nat n then v_hole v else Z.of_nat n) in *.
    injection Hv as <- <- <- <- <-. rewrite orb_false_r.
    split; [|discriminate].
    unfold chunks_from. cbn [v_hole v_sum v_evs].
    destruct (Z.eqb_spec (v_hole v - k) 0) as [Hk|Hk].
    + rewrite Hk. change (0 <? 0) with false. cbv iota.
      replace k with (v_hole v) by lia.
      rewrite one_chunk_app_ne; [reflexivity|].
      replace (Z.to_nat (v_hole v)) with (S (Z.to_nat (v_hole v - 1))) by lia.
      discriminate.
    + assert (Hk' : 0 <= k < v_hole v).
      { unfold k in *. destruct (Z.ltb_spec (v_hole v) (Z.of_nat n)); lia. }
      destruct (Z.ltb_spec 0 (v_hole v - k)); [|lia].
      rewrite <- app_assoc, <- repeat_app.
      replace (Z.to_nat k + Z.to_nat (v_hole v - k))%nat with (Z.to_nat (v_hole v)) by lia.
      reflexivity.
  - destruct (v_closed v) eqn:Hc.
    + injection Hv as <- <- <- <- <-. destruct (Hcl eq_refl) as [Hevs Hh].
      unfold chunks_from. rewrite Hh, Hevs. change (0 <? 0) with false. cbv iota.
      cbn [orb cut one_chunk]. rewrite !app_nil_r. auto 10.
    + destruct (fill Roll OnSplitWithBits n (v_sum v) (v_evs v)) as [[[d1 o1] r1] evs1] eqn:Hf.
      rewrite (fill_cut _ _ _ _ _ _ _ cur Hf).
      destruct (fill_end_facts _ _ _ _ _ _ _ Hf) as (Hfull & Hsplit & Heof & Hhole).
      assert (Hh0 : v_hole v = 0) by lia.
      destruct o1; injection Hv as <- <- <- <- <-;
        unfold chunks_from; cbn [v_hole v_sum v_evs orb]; rewrite ?Hh0;
        change (0 <? 0) with false; cbv iota.
      * split; [reflexivity | discriminate].
      * rewrite (Heof eq_refl). destruct d1; cbn [orb cut].
        -- rewrite !app_nil_r. auto 10.
        -- split; [reflexivity | discriminate].
      * pose proof (Hhole h eq_refl) as Hin.
        rewrite Forall_forall in Hev. apply Hev in Hin. cbn [ev_ok] in Hin.
        destruct (Z.ltb_spec 0 h); [|lia].
        split; [reflexivity | discriminate].
      * rewrite one_chunk_app_ne by auto.
        split; [reflexivity | discriminate].
Qed.

(** A call of [Read] hands out a prefix of what is left of the payload. *)
Lemma Read_view_flat (n : nat) (v : view RollSum) ms d eof il v' :
  0 <= v_hole v ->
  Read_view Roll OnSplitWithBits n v = ((ms, d, eof, il), v') ->
  repeat x00 (Z.to_nat (v_hole v)) ++ flat (v_evs v) =
    d ++ repeat x00 (Z.to_nat (v_hole v')) ++ flat (v_evs v').
Proof.
  intros Hph Hv. unfold Read_view in Hv.
  destruct (Z.ltb_spec 0 (v_hole v)) as [Hpos|Hnpos].
  - set (k := if v_hole v <? Z.of_nat n then v_hole v else Z.of_nat n) in *.
    assert (Hk' : 0 <= k <= v_hole v).
    { unfold k in *. destruct (Z.ltb_spec (v_hole v) (Z.of_nat n)); lia. }
    injection Hv as <- <- <- <- <-. cbn [v_hole v_evs].
    rewrite app_assoc, <- repeat_app.
    replace (Z.to_nat k + Z.to_nat (v_hole v - k))%nat with (Z.to_nat (v_hole v)) by lia.
    reflexivity.
  - replace (v_hole v) with 0 by lia.
    destruct (v_closed v).
    + injection Hv as <- <- <- <- <-. now replace (v_hole v) with 0 by lia.
    + destruct (fill Roll OnSplitWithBits n (v_sum v) (v_evs v)) as [[[d1 o1] r1] evs1] eqn:Hf.
      rewrite (fill_flat _ _ _ _ _ _ _ Hf).
      destruct o1; injection Hv as <- <- <- <- <-; cbn [v_hole v_evs];
        try replace (v_hole v) with 0 by lia; reflexivity.
Qed.

(** A call of [Read] that does not report end-of-stream makes progress. *)
Lemma Read_view_measure (n : nat) (v : view RollSum) ms d eof il v' :
  (0 < n)%nat -> 0 <= v_hole v ->
  Forall (ev_ok 1) (v_evs v) ->
  Read_view Roll OnSplitWithBits n v = ((ms, d, eof, il), v') ->
  eof = false ->
  (view_measure v' < view_measure v)%nat.
Proof.
  intros Hn Hph Hev Hv Heof. unfold Read_view in Hv. unfold view_measure.
  destruct (Z.ltb_spec 0 (v_hole v)) as [Hpos|Hnpos].
  - set (k := if v_hole v <? Z.of_nat n then v_hole v else Z.of_nat n) in *.
    assert (Hk' : 0 < k <= v_hole v).
    { unfold k in *. destruct (Z.ltb_spec (v_hole v) (Z.of_nat n)); lia. }
    injection Hv as <- <- <- <- <-. cbn [v_hole v_evs v_closed]. lia.
  - destruct (v_closed v).
    + injection Hv as <- <- <- <- <-. discriminate.
    + destruct (fill Roll OnSplitWithBits n (v_sum v) (v_evs v)) as [[[d1 o1] r1] evs1] eqn:Hf.
      pose proof (fill_flat _ _ _ _ _ _ _ Hf) as Hflat.
      destruct (fill_end_facts _ _ _ _ _ _ _ Hf) as (Hfull & Hsplit & Hateof & Hhole).
      apply (f_equal (@length byte)) in Hflat. rewrite !length_app in Hflat.
      destruct o1; injection Hv as <- <- <- <- <-; cbn [v_hole v_evs v_closed].
      * rewrite (Hfull eq_refl) in Hflat. cbn [length] in Hflat. lia.
      * destruct d1; [discriminate|]. cbn [length] in Hflat. lia.
      * pose proof (Hhole h eq_refl) as Hin.
        rewrite Forall_forall in Hev. apply Hev in Hin. cbn [ev_ok] in Hin.
        rewrite repeat_length in Hflat. lia.
      * destruct d1; [now exfalso; apply Hsplit|]. cbn [length] in Hflat. lia.
Qed.


(** ** Runs of the detector *)

Lemma ev_ok_weaken (th : Z) (evs : list event) :
  1 <= th -> Forall (ev_ok th) evs -> Forall (ev_ok 1) evs.
Proof.
  intros Hth H. eapply Forall_impl; [|exact H].
  intros [c|h]; cbn; lia.
Qed.

Lemma scan_length (th : Z) (l : list byte) :
  forall z, 0 <= z -> 1 <= th ->
  (length (scan th z l) <= Z.to_nat z + length l)%nat.
Proof.
  assert (Hflush : forall z, 0 <= z -> 1 <= th -> (length (flush th z) <= Z.to_nat z)%nat).
  { intros z Hz Hth. unfold flush. destruct (Z.leb_spec z 0); [cbn; lia|].
    destruct (th <=? z); [cbn; lia|]. rewrite repeat_length. lia. }
  induction l as [|b t IH]; intros z Hz Hth; cbn [scan length].
  - specialize (Hflush z Hz Hth). lia.
  - destruct (is_zero b).
    + specialize (IH (z + 1) ltac:(lia) Hth). lia.
    + rewrite length_app. cbn [length].
      specialize (Hflush z Hz Hth). specialize (IH 0 ltac:(lia) Hth).
      change (Z.to_nat 0) with O in IH. lia.
Qed.

Lemma holesFinder_on_ok (th : Z) (l : list byte) :
  1 <= th -> Z.of_nat (length l) <= max_int64 -> hf_ok (holesFinder_on th l EOF).
Proof. intros Hth Hl. unfold hf_ok. cbn. splits; auto; lia. Qed.

Lemma remaining_holesFinder_on (th : Z) (l : list byte) :
  remaining (holesFinder_on th l EOF) = scan th 0 l.
Proof. reflexivity. Qed.

Lemma readByte_all_remaining (fuel : nat) :
  forall f, hf_ok f -> (length (remaining f) < fuel)%nat ->
  readByte_all fuel f = Some (remaining f, EOF).
Proof.
  induction fuel as [|fuel IH]; intros f Hok Hfuel; [lia|].
  destruct (readByte_emits _ Hok) as (res & f' & Hr & Hok' & _ & Hth' & Hem).
  pose proof (Forall_ev_ok_remaining f) as Hev.
  destruct Hok as (_ & Hth & _).
  cbn [readByte_all]. rewrite Hr. cbn [obind].
  destruct (remaining f) as [|[c|h] t] eqn:Hrem; cbn [emits] in Hem;
    destruct Hem as [-> Hrem'].
  - reflexivity.
  - rewrite (IH f' Hok') by (rewrite Hrem'; cbn [length] in Hfuel; lia).
    cbn [obind]. rewrite Hrem'. reflexivity.
  - pose proof (Forall_inv Hev) as Hh. cbn [ev_ok] in Hh.
    rewrite (IH f' Hok') by (rewrite Hrem'; cbn [length] in Hfuel; lia).
    cbn [obind]. rewrite Hrem'.
    destruct (Z.ltb_spec 0 h); [reflexivity | lia].
Qed.

Lemma scan_snoc_nonzero (th : Z) (pre : list byte) :
  forall z b rest, is_zero b = false ->
  scan th z (pre ++ b :: rest) = scan th z (pre ++ [b]) ++ scan th 0 rest.
Proof.
  induction pre as [|c pre IH]; intros z b rest Hb; cbn [app scan].
  - rewrite Hb. cbn [scan]. rewrite flush_zero, <- app_assoc. reflexivity.
  - destruct (is_zero c).
    + now apply IH.
    + rewrite (IH 0 b rest Hb). rewrite <- app_assoc. reflexivity.
Qed.

Lemma scan_zeros (th : Z) (L : nat) :
  forall z post, scan th z (repeat x00 L ++ post) = scan th (z + Z.of_nat L) post.
Proof.
  induction L as [|L IH]; intros z post.
  - cbn [repeat app]. f_equal. lia.
  - cbn [repeat app scan is_zero]. rewrite IH. f_equal. lia.
Qed.

Lemma scan_nonzero_head (th z : Z) (post : list byte) :
  is_zero (hd x01 post) = false ->
  scan th z post = flush th z ++ scan th 0 post.
Proof.
  destruct post as [|c t]; cbn [hd scan]; intros H.
  - rewrite flush_zero. now rewrite app_nil_r.
  - rewrite H, flush_zero. reflexivity.
Qed.

Lemma last_snoc_inv (pre : list byte) :
  is_zero (last pre x01) = false ->
  pre = [] \/ exists pre' b, pre = pre' ++ [b] /\ is_zero b = false.
Proof.
  intros H. destruct pre as [|c t] using rev_ind; [now left|].
  right. exists t, c. split; [reflexivity|].
  rewrite last_last in H. exact H.
Qed.

Lemma scan_run (th : Z) (pre post : list byte) (L : nat) :
  1 <= th ->
  is_zero (last pre x01) = false ->
  is_zero (hd x01 post) = false ->
  scan th 0 (pre ++ repeat x00 L ++ post) =
    scan th 0 pre ++
    (if th <=? Z.of_nat L then [Hole (Z.of_nat L)] else repeat (Lit x00) L) ++
    scan th 0 post.
Proof.
  intros Hth Hpre Hpost.
  assert (Hmid : scan th 0 (repeat x00 L ++ post) =
                 (if th <=? Z.of_nat L then [Hole (Z.of_nat L)] else repeat (Lit x00) L) ++
                 scan th 0 post).
  { rewrite scan_zeros, (scan_nonzero_head _ _ _ Hpost). f_equal.
    change (0 + Z.of_nat L) with (Z.of_nat L).
    destruct (Z.leb_spec th (Z.of_nat L)).
    - apply flush_hole. lia.
    - rewrite flush_below by lia. now rewrite Nat2Z.id. }
  destruct (last_snoc_inv _ Hpre) as [->|(pre' & b & -> & Hb)].
  - cbn [app]. rewrite Hmid. reflexivity.
  - rewrite <- app_assoc. cbn [app].
    rewrite scan_snoc_nonzero by exact Hb. rewrite Hmid. reflexivity.
Qed.

(** ** Runs of the chunk reader *)

Lemma rc_ok_events (rc : rollingChecksumReader RollSum) :
  rc_ok rc -> Forall (ev_ok 1) (v_evs (view_of rc)).
Proof.
  intros (Hhf & _). cbn [view_of v_evs].
  apply ev_ok_weaken with (th := hf_threshold (rc_reader rc)).
  - apply Hhf.
  - apply Forall_ev_ok_remaining.
Qed.

Lemma rc_ok_closed (rc : rollingChecksumReader RollSum) :
  rc_ok rc ->
  v_closed (view_of rc) = true -> v_evs (view_of rc) = [] /\ v_hole (view_of rc) = 0.
Proof. intros (_ & _ & _ & _ & _ & H). exact H. Qed.

Lemma rc_ok_hole (rc : rollingChecksumReader RollSum) :
  rc_ok rc -> 0 <= v_hole (view_of rc).
Proof. intros (_ & _ & H & _). exact H. Qed.

Lemma fill_Forall (P : event -> Prop) (k : nat) :
  forall r evs d o r' evs',
  fill Roll OnSplitWithBits k r evs = (d, o, r', evs') ->
  Forall P evs -> Forall P evs'.
Proof.
  induction k as [|k IH]; intros r evs d o r' evs' H HP; cbn [fill] in H.
  - injection H as <- <- <- <-. exact HP.
  - destruct evs as [|[c|h] t].
    + injection H as <- <- <- <-. exact HP.
    + destruct (OnSplitWithBits (Roll r c) RollsumBits).
      * injection H as <- <- <- <-. now apply Forall_inv_tail in HP.
      * destruct (fill Roll OnSplitWithBits k (Roll r c) t) as [[[d1 o1] r1] evs1] eqn:Hf.
        injection H as <- <- <- <-.
        apply (IH _ _ _ _ _ _ Hf). now apply Forall_inv_tail in HP.
    + injection H as <- <- <- <-. now apply Forall_inv_tail in HP.
Qed.

(** Without holes the reader only hands out literal bytes. *)
Lemma Read_view_literal (n : nat) (v : view RollSum) ms d eof il v' :
  v_hole v = 0 -> Forall is_lit (v_evs v) ->
  Read_view Roll OnSplitWithBits n v = ((ms, d, eof, il), v') ->
  il = false /\ v_hole v' = 0 /\ Forall is_lit (v_evs v').
Proof.
  intros Hh Hlit Hv. unfold Read_view in Hv. rewrite Hh in Hv.
  change (0 <? 0) with false in Hv. cbv iota in Hv.
  destruct (v_closed v).
  - injection Hv as <- <- <- <- <-. auto.
  - destruct (fill Roll OnSplitWithBits n (v_sum v) (v_evs v)) as [[[d1 o1] r1] evs1] eqn:Hf.
    pose proof (fill_Forall _ _ _ _ _ _ _ _ Hf Hlit) as Hlit'.
    destruct (fill_end_facts _ _ _ _ _ _ _ Hf) as (_ & _ & _ & Hhole).
    destruct o1; injection Hv as <- <- <- <- <-; cbn [v_hole v_evs]; auto.
    pose proof (Hhole h eq_refl) as Hin.
    rewrite Forall_forall in Hlit. apply Hlit in Hin. destruct Hin.
Qed.

(** The calls of [Read] over a payload: they end with end-of-stream,
    they delimit the chunks of the payload and they hand out its bytes. *)
Lemma Read_all_spec (fuel : nat) :
  forall b (rc : rollingChecksumReader RollSum) cur,
  rc_ok rc -> (0 < length b)%nat ->
  (view_measure (view_of rc) < fuel)%nat ->
  exists calls,
    Read_all Roll OnSplitWithBits fuel b rc = Some (calls, EOF) /\
    group_chunks cur calls = chunks_from Roll OnSplitWithBits (view_of rc) cur /\
    concat (map (fun c => snd (fst c)) calls) =
      repeat x00 (Z.to_nat (pendingHole rc)) ++ flat (remaining (rc_reader rc)) /\
    (pendingHole rc = 0 -> Forall is_lit (remaining (rc_reader rc)) ->
     Forall (fun c => snd c = false) calls).
Proof.
  induction fuel as [|fuel IH]; intros b rc cur Hok Hb Hfuel; [lia|].
  destruct (Read_view Roll OnSplitWithBits (length b) (view_of rc))
    as [[[[ms d] eof] il] v'] eqn:Hv.
  destruct (Read_view_spec b rc _ _ _ _ _ Hok Hb Hv)
    as (b' & rc' & HR & Hfirst & Hlen & Hok' & Hview & Hil & Hw & Hle).
  destruct (Read_view_chunks _ _ cur _ _ _ _ _ (rc_ok_hole _ Hok) (rc_ok_closed _ Hok) (rc_ok_events _ Hok) Hv)
    as [Hchunks Heof].
  pose proof (Read_view_flat _ _ _ _ _ _ _ (rc_ok_hole _ Hok) Hv) as Hflat.
  cbn [Read_all]. rewrite HR. cbn [obind].
  destruct eof.
  - destruct (Heof eq_refl) as (-> & -> & Hh' & Hevs' & Hnil).
    exists []. cbn [group_chunks concat map]. rewrite orb_true_r in Hchunks.
    rewrite Hchunks, Hnil, !app_nil_r.
    splits; auto.
    cbn [view_of v_hole v_evs] in Hflat. rewrite Hflat, Hh', Hevs'. reflexivity.
  - pose proof (Read_view_measure _ _ _ _ _ _ _ Hb (rc_ok_hole _ Hok) (rc_ok_events _ Hok) Hv eq_refl) as Hm.
    rewrite <- Hview in Hm.
    destruct (IH b' rc' (if ms then [] else cur ++ d) Hok' ltac:(lia) ltac:(lia))
      as (calls & Hall & Hgroup & Hcat & Hlit).
    rewrite Hall. cbn [obind].
    eexists. split; [reflexivity|].
    rewrite Nat2Z.id, Hfirst, Hil.
    cbn [group_chunks concat map fst snd].
    rewrite orb_false_r in Hchunks. rewrite Hchunks, <- Hview.
    splits.
    + destruct ms; rewrite Hgroup; reflexivity.
    + rewrite Hcat. cbn [view_of v_hole v_evs] in Hflat. rewrite Hflat.
      rewrite <- Hview. reflexivity.
    + intros Hh0 Hl.
      destruct (Read_view_literal (length b) (view_of rc) ms d false il v' Hh0 Hl Hv)
        as (-> & Hh' & Hl').
      constructor; [reflexivity|].
      rewrite <- Hview in Hh', Hl'. now apply Hlit.
Qed.

Lemma newReader_ok (p : list byte) :
  Z.of_nat (length p) <= max_int64 ->
  rc_ok (newRollingChecksumReader NewRollSum (newHolesFinder p EOF)).
Proof.
  intros Hp. unfold rc_ok, newRollingChecksumReader, newHolesFinder.
  cbn [rc_reader closed pendingHole WrittenOut].
  rewrite remaining_holesFinder_on, flat_scan by lia.
  change (Z.to_nat 0) with O. cbn [repeat app].
  splits; try lia.
  - apply holesFinder_on_ok; [rewrite holesThreshold_eq; lia | exact Hp].
  - now left.
Qed.

Lemma newReader_view (p : list byte) :
  view_of (newRollingChecksumReader NewRollSum (newHolesFinder p EOF)) =
    {| v_hole := 0; v_closed := false; v_sum := NewRollSum;
       v_evs := scan holesThreshold 0 p |}.
Proof. reflexivity. Qed.

Lemma newReader_measure (p : list byte) :
  view_measure (view_of (newRollingChecksumReader NewRollSum (newHolesFinder p EOF))) =
    (2 * length p + 1)%nat.
Proof.
  rewrite newReader_view. unfold view_measure. cbn [v_hole v_evs v_closed].
  rewrite flat_scan by lia. change (Z.to_nat 0) with O. cbn [repeat app]. lia.
Qed.

Lemma runs_below_scan (th : Z) (l : list byte) :
  forall z, 0 <= z < th -> runs_below th z l = true -> Forall is_lit (scan th z l).
Proof.
  assert (Hflush : forall z, 0 <= z < th -> Forall is_lit (flush th z)).
  { intros z Hz. rewrite flush_below by lia.
    induction (Z.to_nat z); cbn; constructor; auto. exact I. }
  induction l as [|b t IH]; intros z Hz H; cbn [scan runs_below] in *.
  - now apply Hflush.
  - destruct (is_zero b).
    + apply andb_prop in H. destruct H as [H1 H2].
      apply IH; [|exact H2]. apply Z.ltb_lt in H1. lia.
    + apply Forall_app. split; [now apply Hflush|].
      constructor; [exact I|]. apply IH; [lia | exact H].
Qed.



(** ** The hole detector over a source that fails inside a hole *)

Ltac same_hole H :=
  etransitivity; [exact H|];
  match goal with
  | |- Some (?a, _, _, _) = Some (?b, _, _, _) => replace a with b by lia; reflexivity
  end.

Lemma found_run (th : Z) (e : error) (k : nat) :
  forall z lb fuel,
  is_EOF e = false ->
  - 2 ^ 63 <= z -> z + Z.of_nat k <= max_int64 -> (k < fuel)%nat ->
  exists lb',
    readByte_loop fuel
      {| hf_reader := {| pending := repeat x00 k; fin := e; lastByte := lb |};
         hf_zeros := z; hf_threshold := th; hf_state := holesFinderStateFound |} =
    Some ((z + Z.of_nat k, x00, None),
          {| hf_reader := {| pending := []; fin := e; lastByte := lb' |};
             hf_zeros := 0; hf_threshold := th; hf_state := holesFinderStateFound |}).
Proof.
  induction k as [|k IH]; intros z lb fuel He Hlo Hhi Hfuel;
    (destruct fuel as [|fuel]; [lia|]); cbn [readByte_loop repeat];
    unfold readByte_body; hsimpl.
  - rewrite He. hsimpl. exists lb. rewrite Z.add_0_r. reflexivity.
  - rewrite add64_small by lia.
    destruct (IH (z + 1) (Some x00) fuel He ltac:(lia) ltac:(lia) ltac:(lia)) as (lb' & H).
    exists lb'. same_hole H.
Qed.

Lemma accumulate_run (th : Z) (e : error) (k : nat) :
  forall z lb fuel,
  is_EOF e = false ->
  1 <= z < th -> th <= z + Z.of_nat k -> z + Z.of_nat k <= max_int64 -> (k < fuel)%nat ->
  exists lb',
    readByte_loop fuel
      {| hf_reader := {| pending := repeat x00 k; fin := e; lastByte := lb |};
         hf_zeros := z; hf_threshold := th; hf_state := holesFinderStateAccumulate |} =
    Some ((z + Z.of_nat k, x00, None),
          {| hf_reader := {| pending := []; fin := e; lastByte := lb' |};
             hf_zeros := 0; hf_threshold := th; hf_state := holesFinderStateFound |}).
Proof.
  induction k as [|k IH]; intros z lb fuel He Hz Hth Hhi Hfuel; [lia|].
  destruct fuel as [|fuel]; [lia|]. cbn [readByte_loop repeat].
  unfold readByte_body. hsimpl.
  rewrite add64_small by lia.
  destruct (Z.eqb_spec (z + 1) th) as [Heq|Hne].
  - destruct (found_run th e k (z + 1) (Some x00) fuel He ltac:(lia) ltac:(lia) ltac:(lia))
      as (lb' & H).
    exists lb'. same_hole H.
  - destruct (IH (z + 1) (Some x00) fuel He ltac:(lia) ltac:(lia) ltac:(lia) ltac:(lia))
      as (lb' & H).
    exists lb'. same_hole H.
Qed.

Lemma found_stuck (th : Z) (e : error) (lb : option byte) (n : nat) :
  is_EOF e = false ->
  let f := {| hf_reader := {| pending := []; fin := e; lastByte := lb |};
              hf_zeros := 0; hf_threshold := th; hf_state := holesFinderStateFound |} in
  readByte_n n f = Some (repeat (0, x00, None) n, f).
Proof.
  intros He f. induction n as [|n IH]; [reflexivity|].
  cbn [readByte_n repeat]. unfold readByte. cbn [readByte_loop].
  unfold readByte_body, f at 1. hsimpl. rewrite He. hsimpl.
  match goal with |- context [readByte_n n ?x] => change x with f end.
  rewrite IH. reflexivity.
Qed.

Lemma hole_first_call (th : Z) (L : nat) (e : error) :
  is_EOF e = false ->
  1 <= th -> th <= Z.of_nat L -> Z.of_nat L <= max_int64 ->
  exists lb',
    readByte (holesFinder_on th (repeat x00 L) e) =
      Some ((Z.of_nat L, x00, None),
            {| hf_reader := {| pending := []; fin := e; lastByte := lb' |};
               hf_zeros := 0; hf_threshold := th;
               hf_state := holesFinderStateFound |}).
Proof.
  intros He Hth HL Hmax.
  destruct L as [|L]; [cbn in HL; lia|].
  assert (H : exists lb',
            readByte_loop (S (S L)) (holesFinder_on th (repeat x00 (S L)) e) =
              Some ((Z.of_nat (S L), x00, None),
                    {| hf_reader := {| pending := []; fin := e; lastByte := lb' |};
                       hf_zeros := 0; hf_threshold := th;
                       hf_state := holesFinderStateFound |})).
  { cbn [readByte_loop]. unfold readByte_body at 1, holesFinder_on, NewReader.
    cbn [repeat]. hsimpl. change (0 <? 0) with false. hsimpl.
    destruct (Z.eqb_spec 1 th) as [H1|H1].
    - destruct (found_run th e L 1 (Some x00) (S L) He
                  ltac:(lia) ltac:(lia) ltac:(lia)) as (lb' & H).
      exists lb'. same_hole H.
    - destruct (accumulate_run th e L 1 (Some x00) (S L) He
                  ltac:(lia) ltac:(lia) ltac:(lia) ltac:(lia)) as (lb' & H).
      exists lb'. same_hole H. }
  destruct H as (lb' & H). exists lb'.
  unfold readByte. apply (readByte_loop_fuel _ _ _ _ H).
  unfold readByte_weight, holesFinder_on, NewReader. hsimpl.
  rewrite repeat_length. lia.
Qed.

Lemma hole_then_silent (th : Z) (L : nat) (e : error) :
  is_EOF e = false ->
  1 <= th -> th <= Z.of_nat L -> Z.of_nat L <= max_int64 ->
  silent (holesFinder_on th (repeat x00 L) e).
Proof.
  intros He Hth HL Hmax [|n].
  - do 2 eexists. split; [reflexivity | constructor].
  - destruct (hole_first_call th L e He Hth HL Hmax) as (lb' & H).
    do 2 eexists. cbn [readByte_n]. rewrite H. cbn [obind].
    rewrite (found_stuck th e lb' n He). split; [reflexivity|].
    constructor; [reflexivity|]. apply Forall_forall. intros r Hr.
    apply repeat_spec in Hr. now subst r.
Qed.

Lemma silent_step (f : holesFinder) :
  silent f ->
  exists h c f', readByte f = Some ((h, c, None), f') /\ silent f'.
Proof.
  intros Hs. destruct (Hs 1%nat) as (rs & f1 & H1 & Hall).
  cbn [readByte_n] in H1.
  destruct (readByte f) as [[[[h c] err] f']|] eqn:Hr; [|discriminate].
  cbn [obind] in H1. injection H1 as <- _.
  apply Forall_inv in Hall. cbn in Hall. subst err.
  exists h, c, f'. split; [reflexivity|].
  intros n. destruct (Hs (S n)) as (rs & f2 & H2 & Hall2).
  cbn [readByte_n] in H2. rewrite Hr in H2. cbn [obind] in H2.
  destruct (readByte_n n f') as [[rest f3]|]; [|discriminate].
  cbn [obind] in H2. injection H2 as <- <-.
  exists rest, f3. split; [reflexivity|]. exact (Forall_inv_tail Hall2).
Qed.

(** ** The loop of the chunk reader, in any state *)

Lemma skipn_upd (i : nat) (v : byte) :
  forall b m, (i < m)%nat -> skipn m (upd i v b) = skipn m b.
Proof.
  induction i as [|i IH]; intros b m Hm; destruct b as [|h t]; cbn [upd];
    try reflexivity; (destruct m as [|m]; [lia|]); cbn [skipn]; [reflexivity|].
  apply IH. lia.
Qed.

Lemma skipn_zero_fill (n : nat) :
  forall i b, skipn (i + n) (zero_fill n i b) = skipn (i + n) b.
Proof.
  induction n as [|n IH]; intros i b; cbn [zero_fill]; [reflexivity|].
  replace (i + S n)%nat with (S i + n)%nat by lia.
  rewrite IH. apply skipn_upd. lia.
Qed.

Lemma firstn_firstn_upd (i : nat) (v : byte) (b b' : list byte) :
  firstn (S i) b' = firstn (S i) (upd i v b) -> firstn i b' = firstn i b.
Proof.
  intros H. apply (f_equal (firstn i)) in H.
  rewrite !firstn_firstn in H. replace (Nat.min i (S i)) with i in H by lia.
  rewrite H. apply firstn_upd_ge. lia.
Qed.

Lemma Read_loop_shape (k : nat) :
  forall i b (rc : rollingChecksumReader RollSum) ms n err b' rc',
  (i + k = length b)%nat ->
  Read_loop Roll OnSplitWithBits k i b rc = Some ((ms, n, err), b', rc') ->
  length b' = length b /\
  firstn i b' = firstn i b /\
  match err with
  | None =>
      Z.of_nat i <= n <= Z.of_nat (length b) /\
      skipn (Z.to_nat n) b' = skipn (Z.to_nat n) b
  | Some e =>
      ms = false /\
      if is_EOF e then n = 0 /\ i = O /\ b' = b /\ closed rc' = true else n = -1
  end.
Proof.
  induction k as [|k IH]; intros i b rc ms n err b' rc' Hik H; cbn [Read_loop] in H.
  - injection H as <- <- <- <- <-. splits; auto; try lia;
      rewrite Nat2Z.id; reflexivity.
  - destruct (readByte (rc_reader rc)) as [[[[holeLen c] e] hf]|]; [|discriminate].
    cbn [obind] in H.
    cbn [rc_reader closed rollsum pendingHole WrittenOut IsLastChunkZeros] in H.
    destruct e as [e|].
    + destruct (is_EOF e) eqn:He.
      * destruct (Nat.eqb_spec i 0) as [Hi|Hi]; injection H as <- <- <- <- <-.
        -- rewrite He. splits; auto.
        -- splits; auto; try lia; rewrite Nat2Z.id; reflexivity.
      * injection H as <- <- <- <- <-. rewrite He. splits; auto.
    + destruct (0 <? holeLen).
      * injection H as <- <- <- <- <-. splits; auto; try lia;
          rewrite Nat2Z.id; reflexivity.
      * destruct (OnSplitWithBits (Roll (rollsum rc) c) RollsumBits).
        -- injection H as <- <- <- <- <-.
           rewrite upd_length. splits; auto; try lia.
           ++ apply firstn_upd_ge. lia.
           ++ replace (Z.to_nat (Z.of_nat i + 1)) with (S i) by lia.
              apply skipn_upd. lia.
        -- apply IH in H; [|rewrite upd_length; lia].
           rewrite upd_length in H. destruct H as (Hlen & Hfirst & Herr).
           split; [exact Hlen|]. split; [exact (firstn_firstn_upd _ _ _ _ Hfirst)|].
           destruct err as [e|].
           ++ destruct Herr as [Hms Herr]. split; [exact Hms|].
              destruct (is_EOF e); [|exact Herr]. destruct Herr as (_ & Hi & _). discriminate.
           ++ destruct Herr as [Hn Hskip]. split; [lia|].
              rewrite Hskip. apply skipn_upd. lia.
Qed.

Lemma Read_loop_total (k : nat) :
  forall i b (rc : rollingChecksumReader RollSum),
  exists r, Read_loop Roll OnSplitWithBits k i b rc = Some r.
Proof.
  induction k as [|k IH]; intros i b rc; cbn [Read_loop]; [eexists; reflexivity|].
  destruct (readByte_total (rc_reader rc)) as ([[[holeLen c] e] hf] & ->).
  cbn [obind]. cbn [rc_reader closed rollsum pendingHole WrittenOut IsLastChunkZeros].
  destruct e as [e|].
  - destruct (is_EOF e); [destruct (i =? 0)%nat|]; eexists; reflexivity.
  - destruct (0 <? holeLen); [eexists; reflexivity|].
    destruct (OnSplitWithBits (Roll (rollsum rc) c) RollsumBits); [eexists; reflexivity|].
    apply IH.
Qed.


Lemma Read_length (b : list byte) (rc : rollingChecksumReader RollSum) res b' rc' :
  Read Roll OnSplitWithBits b rc = Some (res, b', rc') -> length b' = length b.
Proof.
  unfold Read. cbn [rc_reader closed rollsum pendingHole WrittenOut IsLastChunkZeros].
  destruct (0 <? pendingHole rc).
  - intros H. injection H as _ <- _. apply zero_fill_length.
  - destruct (closed rc).
    + intros H. now injection H as _ <- _.
    + destruct res as [[ms n] err]. intros H.
      now destruct (Read_loop_shape (length b) 0 b _ _ _ _ _ _ eq_refl H).
Qed.

(** ** The loop over a payload *)
Section Orchestration.

Variable Out : Type.
Variable ZstdWriterWithLevel : Out -> Z -> goerror * Out.
Variable zw_Write : Out -> list byte -> goerror * Out.
Variable zw_Close : Out -> goerror * Out.
Variable zw_Flush : Out -> goerror * Out.
Variable zw_Reset : Out -> Out.
Variable dest_Count : Out -> Z.
Variable WriteZstdChunkedManifest :
  Out -> list (string * string) -> Z -> list FileMetadata -> Z -> goerror * Out.
Variable digest_String : list byte -> string.
Variable base64_EncodeToString : string -> string.
Variable GetType : byte -> string * goerror.
Variable TypeChunk : string.
Variable ChunkTypeData : string.
Variable ChunkTypeZeros : string.

Local Abbreviation pstate := (payloadState RollSum Out).
Local Abbreviation restart := (restartCompression zw_Close zw_Flush zw_Reset dest_Count).
Local Abbreviation positive := (restart_positive zw_Close zw_Flush zw_Reset dest_Count).
Local Abbreviation wpayload := (write_payload zw_Write zw_Close zw_Flush zw_Reset dest_Count).
Local Abbreviation cchunk :=
  (close_chunk zw_Close zw_Flush zw_Reset dest_Count digest_String
     ChunkTypeData ChunkTypeZeros).
Local Abbreviation pbody :=
  (payload_body Roll OnSplitWithBits zw_Write zw_Close zw_Flush zw_Reset dest_Count
     digest_String ChunkTypeData ChunkTypeZeros).
Local Abbreviation ploop :=
  (payload_loop Roll OnSplitWithBits zw_Write zw_Close zw_Flush zw_Reset dest_Count
     digest_String ChunkTypeData ChunkTypeZeros).
Local Abbreviation cmatch := (chunks_match digest_String ChunkTypeData ChunkTypeZeros).
Local Abbreviation inv := (ps_inv digest_String ChunkTypeData ChunkTypeZeros).
Local Abbreviation final := (ps_final digest_String ChunkTypeData ChunkTypeZeros).
Local Abbreviation canon := (ps_canon Roll OnSplitWithBits).
Local Abbreviation eerr := (encoder_error zw_Write zw_Close zw_Flush).

Ltac psimpl :=
  cbn [ps_out ps_err ps_buf startOffset lastOffset lastChunkOffset checksum chunks
       payloadDigester chunkDigester rcReader].
Ltac psimpl_all :=
  cbn [ps_out ps_err ps_buf startOffset lastOffset lastChunkOffset checksum chunks
       payloadDigester chunkDigester rcReader] in *.

Lemma restart_error (o : Out) (off : Z) (e : error) (o' : Out) :
  restart o = ((off, Some e), o') -> off = 0 /\ eerr (Some e).
Proof.
  unfold restartCompression. destruct (zw_Close o) as [[x|] o1] eqn:Hc.
  - intros H. injection H as <- <- _. split; [reflexivity|].
    exists x. split; [reflexivity|]. right; left. exists o. now rewrite Hc.
  - destruct (zw_Flush o1) as [[x|] o2] eqn:Hf; intros H; [|discriminate].
    injection H as <- <- _. split; [reflexivity|].
    exists x. split; [reflexivity|]. right; right. exists o1. now rewrite Hf.
Qed.

Ltac fails_with H :=
  eexists; split; [reflexivity|]; split; [|discriminate];
  let g := fresh "g" in let o' := fresh "o'" in let E := fresh "E" in
  intros g o' E; injection E as <- <-; H.

Lemma write_error (o : Out) (p : list byte) (x : error) (o' : Out) :
  zw_Write o p = (Some x, o') -> eerr (Some x).
Proof.
  intros H. exists x. split; [reflexivity|]. left. exists o, p. now rewrite H.
Qed.

Lemma write_payload_spec (d : list byte) (st : pstate) :
  ps_err st = None ->
  firstn (length d) (ps_buf st) = d ->
  match wpayload (Z.of_nat (length d)) st with
  | inr (e, o) => eerr e
  | inl st' =>
      rcReader st' = rcReader st /\ ps_buf st' = ps_buf st /\
      chunks st' = chunks st /\ lastChunkOffset st' = lastChunkOffset st /\
      checksum st' = checksum st /\ ps_err st' = None /\
      payloadDigester st' = payloadDigester st ++ d /\
      chunkDigester st' = chunkDigester st ++ d /\
      (startOffset st <> 0 -> startOffset st' = startOffset st) /\
      (d = [] -> startOffset st' = startOffset st) /\
      (positive (ps_out st) -> d <> [] -> 0 <= startOffset st -> 0 < startOffset st')
  end.
Proof.
  intros Herr Hfirst. unfold write_payload.
  destruct d as [|c t].
  - cbn [length Z.of_nat]. change (0 <? 0) with false. cbv iota.
    rewrite !app_nil_r. splits; auto. congruence.
  - destruct (Z.ltb_spec 0 (Z.of_nat (length (c :: t)))) as [_|Hc]; [|cbn [length] in Hc; lia].
    rewrite Nat2Z.id.
    destruct (Z.eqb_spec (startOffset st) 0) as [H0|H0].
    + destruct (restart (ps_out st)) as [[off [e|]] o] eqn:Hr; psimpl.
      * exact (proj2 (restart_error _ _ _ _ Hr)).
      * rewrite Hfirst.
        destruct (zw_Write o (c :: t)) as [[e|] o1] eqn:Hwr; psimpl;
          [exact (write_error _ _ _ _ Hwr)|].
        splits; auto; try congruence.
        intros Hpos _ _. eapply Hpos. exact Hr.
    + rewrite Hfirst.
      destruct (zw_Write (ps_out st) (c :: t)) as [[e|] o1] eqn:Hwr; psimpl;
        [exact (write_error _ _ _ _ Hwr)|].
      splits; auto; try congruence.
      intros _ _ Hge. lia.
Qed.

Lemma chunks_match_snoc (ks : list (bool * list byte)) :
  forall off cs k c,
  cmatch off ks cs ->
  chunk_matches digest_String ChunkTypeData ChunkTypeZeros
    (off + Z.of_nat (length (chunk_bytes ks))) k c ->
  cmatch off (ks ++ [k]) (cs ++ [c]).
Proof.
  induction ks as [|k0 ks IH]; intros off cs k c Hm Hk.
  - destruct cs; [|destruct Hm]. cbn in *. rewrite Z.add_0_r in Hk. auto.
  - destruct cs as [|c0 cs]; [destruct Hm|]. destruct Hm as [H0 Hm].
    cbn [app chunks_match]. split; [exact H0|].
    apply IH; [exact Hm|].
    unfold chunk_bytes in *. cbn [map concat] in Hk. rewrite length_app in Hk.
    replace (off + Z.of_nat (length (snd k0)) +
             Z.of_nat (length (concat (map snd ks))))
      with (off + Z.of_nat (length (snd k0) + length (concat (map snd ks)))) by lia.
    exact Hk.
Qed.

Lemma chunks_match_nil (off : Z) (ks : list (bool * list byte)) (cs : list chunk) :
  cmatch off ks cs -> (cs = [] <-> ks = []).
Proof.
  destruct ks, cs; cbn; intros H; try destruct H; split; congruence.
Qed.

Lemma chunk_bytes_app (a b : list (bool * list byte)) :
  chunk_bytes (a ++ b) = chunk_bytes a ++ chunk_bytes b.
Proof. unfold chunk_bytes. now rewrite map_app, concat_app. Qed.

Lemma chunk_bytes_one (zeros : bool) (bs : list byte) :
  chunk_bytes (one_chunk zeros bs) = bs.
Proof. destruct bs; [reflexivity|]. unfold chunk_bytes. cbn. now rewrite app_nil_r. Qed.

Lemma close_chunk_spec (ms eof : bool) (st : pstate) (done : list (bool * list byte)) :
  WrittenOut (rcReader st) = Z.of_nat (length (payloadDigester st)) ->
  Z.of_nat (length (payloadDigester st)) <= max_int64 ->
  chunk_bytes done ++ chunkDigester st = payloadDigester st ->
  lastChunkOffset st = Z.of_nat (length (chunk_bytes done)) ->
  cmatch 0 done (chunks st) ->
  match cchunk ms eof st with
  | inr (e, o) => eerr e
  | inl st' =>
      rcReader st' = rcReader st /\ ps_buf st' = ps_buf st /\
      startOffset st' = startOffset st /\ checksum st' = checksum st /\
      ps_err st' = ps_err st /\ payloadDigester st' = payloadDigester st /\
      if (ms || eof) && (0 <? startOffset st) then
        cmatch 0 (done ++ one_chunk (IsLastChunkZeros (rcReader st)) (chunkDigester st))
          (chunks st') /\
        chunkDigester st' = [] /\
        lastChunkOffset st' = Z.of_nat (length (payloadDigester st))
      else st' = st
  end.
Proof.
  intros Hw Hmax Hbytes Hlast Hm. unfold close_chunk.
  destruct ((ms || eof) && (0 <? startOffset st)); [|splits; auto].
  destruct (restart (ps_out st)) as [[off [e|]] o] eqn:Hr;
    [exact (proj2 (restart_error _ _ _ _ Hr))|].
  cbn [rcReader ps_buf startOffset checksum ps_err payloadDigester chunkDigester
       lastChunkOffset chunks].
  splits; auto.
  apply (f_equal (@length byte)) in Hbytes. rewrite length_app in Hbytes.
  rewrite Hw, Hlast.
  rewrite sub64_small by (unfold max_int64 in *; lia).
  destruct (chunkDigester st) as [|c t] eqn:Hcur.
  - cbn [length] in Hbytes.
    destruct (Z.ltb_spec 0 (Z.of_nat (length (payloadDigester st)) -
                            Z.of_nat (length (chunk_bytes done)))); [lia|].
    cbn [one_chunk]. now rewrite app_nil_r.
  - cbn [length] in Hbytes.
    destruct (Z.ltb_spec 0 (Z.of_nat (length (payloadDigester st)) -
                            Z.of_nat (length (chunk_bytes done)))); [|lia].
    cbn [one_chunk]. apply chunks_match_snoc; [exact Hm|].
    unfold chunk_matches. cbn [c_ChunkOffset c_ChunkSize c_Checksum c_ChunkType fst snd length].
    splits; auto; try lia.
Qed.


Lemma payload_body_step (p : list byte) (st : pstate) (done : list (bool * list byte)) :
  inv p st done ->
  exists r,
    pbody st = Some r /\
    match r with
    | Next st' =>
        exists done',
          inv p st' done' /\
          (ps_measure st' < ps_measure st)%nat /\
          (forall target, positive (ps_out st) ->
             canon target st done -> canon target st' done')
    | Break st' =>
        exists done',
          final p st' done' /\
          (forall target, positive (ps_out st) ->
             canon target st done -> done' = target /\ (p <> [] -> 0 < startOffset st'))
    | Stop e o => eerr e
    end.
Proof.
  intros (Hok & Hb & Hp & Hw & Hbytes & Hlast & Hm & Hne & Herr & Hck).
  destruct (Read_view Roll OnSplitWithBits (length (ps_buf st)) (view_of (rcReader st)))
    as [[[[ms d] eof] il] v'] eqn:Hv.
  destruct (Read_view_spec (ps_buf st) (rcReader st) _ _ _ _ _ Hok Hb Hv)
    as (b' & rc' & HR & Hfirst & Hlen & Hok' & Hview & Hil & Hw' & Hle).
  destruct (Read_view_chunks _ _ (chunkDigester st) _ _ _ _ _
              (rc_ok_hole _ Hok) (rc_ok_closed _ Hok) (rc_ok_events _ Hok) Hv)
    as [Hchunks Heof].
  pose proof (Read_view_flat _ _ _ _ _ _ _ (rc_ok_hole _ Hok) Hv) as Hflat.
  unfold payload_body. rewrite HR. cbn [obind]. psimpl.
  replace (match (if eof then Some EOF else None) with
           | Some e => negb (is_EOF e) | None => false end) with false
    by (destruct eof; reflexivity).
  replace (match (if eof then Some EOF else None) with
           | Some e => is_EOF e | None => false end) with eof
    by (destruct eof; reflexivity).
  cbv iota.
  set (st1 := {| ps_out := ps_out st; ps_err := ps_err st; ps_buf := b';
                 startOffset := startOffset st; lastOffset := lastOffset st;
                 lastChunkOffset := lastChunkOffset st; checksum := checksum st;
                 chunks := chunks st; payloadDigester := payloadDigester st;
                 chunkDigester := chunkDigester st; rcReader := rc' |}).
  pose proof (write_payload_spec d st1 Herr Hfirst) as Hwp.
  destruct (wpayload (Z.of_nat (length d)) st1) as [st2|[e o]];
    [|exists (Stop e o); split; [reflexivity | exact Hwp]].
  destruct Hwp as (Hrc2 & Hbuf2 & Hchunks2 & Hlast2 & Hck2 & Herr2 & Hall2 & Hcur2 &
                   Hso_keep & Hso_nil & Hso_pos).
  subst st1. psimpl_all.
  assert (Hmax2 : Z.of_nat (length (payloadDigester st2)) <= max_int64).
  { destruct Hok' as (_ & _ & Hph' & Hw0' & Hmax' & _).
    rewrite Hall2, length_app. lia. }
  assert (Hw2 : WrittenOut (rcReader st2) = Z.of_nat (length (payloadDigester st2))).
  { rewrite Hrc2, Hall2, length_app. lia. }
  assert (Hbytes2 : chunk_bytes done ++ chunkDigester st2 = payloadDigester st2).
  { rewrite Hcur2, Hall2. now rewrite app_assoc, Hbytes. }
  assert (Hlast2' : lastChunkOffset st2 = Z.of_nat (length (chunk_bytes done))).
  { rewrite Hlast2. exact Hlast. }
  assert (Hm2 : cmatch 0 done (chunks st2)).
  { rewrite Hchunks2. exact Hm. }
  pose proof (close_chunk_spec ms eof st2 done Hw2 Hmax2 Hbytes2 Hlast2' Hm2) as Hcc.
  destruct (cchunk ms eof st2) as [st3|[e o]];
    [|exists (Stop e o); split; [reflexivity | exact Hcc]].
  destruct Hcc as (Hrc3 & Hbuf3 & Hso3 & Hck3 & Herr3 & Hall3 & Hcc).
  psimpl_all.
  assert (Hil2 : IsLastChunkZeros (rcReader st2) = il) by (now rewrite Hrc2).
  rewrite Hil2 in Hcc.
  assert (Hp2 : payloadDigester st2 ++ repeat x00 (Z.to_nat (v_hole v')) ++ flat (v_evs v') = p).
  { rewrite Hall2, <- app_assoc, <- Hflat. exact Hp. }
  assert (Hne2 : chunks st <> [] -> 0 < startOffset st2).
  { intros H. pose proof (Hne H). rewrite Hso_keep; lia. }
  assert (Hcur0 : forall target, canon target st done -> startOffset st <= 0 ->
                  chunkDigester st = [] /\ payloadDigester st = [] /\ startOffset st = 0).
  { intros target [_ [[Hall0 Hso0]|Hso0]] Hle0; [|lia].
    rewrite Hall0 in Hbytes. apply app_eq_nil in Hbytes. now destruct Hbytes. }
  destruct eof.
  - (* end-of-stream: the loop is left *)
    destruct (Heof eq_refl) as (-> & -> & Hh' & Hevs' & Hnil).
    rewrite orb_true_r in Hcc, Hchunks. cbn [andb] in Hcc.
    rewrite Hh', Hevs' in Hp2. cbn [repeat Z.to_nat flat flat_map app] in Hp2.
    rewrite app_nil_r in Hp2, Hall2, Hcur2.
    rewrite Hnil, !app_nil_r in Hchunks.
    rewrite Hso3. rewrite (Hso_nil eq_refl) in *.
    destruct (Z.ltb_spec 0 (startOffset st)) as [Hpos|Hnpos].
    + destruct Hcc as (Hm3 & Hcur3 & Hlast3).
      eexists (Break _). split; [reflexivity|].
      exists (done ++ one_chunk false (chunkDigester st2)).
      split.
      * unfold ps_final. psimpl.
        splits; auto; try lia.
        -- intros _. rewrite Hall3, Hp2. split; [reflexivity|].
           rewrite chunk_bytes_app, chunk_bytes_one, Hbytes2. exact Hp2.
        -- congruence.
      * intros target _ [Hc _]. psimpl.
        split; [|auto]. rewrite Hcur2, <- Hc, Hchunks. reflexivity.
    + subst st3.
      exists (Break st2). split; [reflexivity|].
      exists done. split.
      * unfold ps_final. rewrite (Hso_nil eq_refl), Hck2, Hchunks2.
        splits; auto; try lia.
        intros _. split; [exact Hck|].
        destruct (chunks st); [reflexivity|].
        assert (0 < startOffset st) by (apply Hne; discriminate). lia.
      * intros target _ Hc. rewrite (Hso_nil eq_refl).
        destruct (Hcur0 target Hc Hnpos) as (Hcur & Hall & _).
        destruct Hc as [Hc _].
        rewrite Hchunks, Hcur in Hc. cbn [one_chunk] in Hc. rewrite app_nil_r in Hc.
        split; [exact Hc|]. intros Hpne. exfalso. apply Hpne.
        rewrite <- Hp2, Hall2. exact Hall.
  - (* the loop goes on *)
    rewrite orb_false_r in Hcc, Hchunks.
    pose proof (Read_view_measure _ _ _ _ _ _ _ Hb (rc_ok_hole _ Hok) (rc_ok_events _ Hok)
                  Hv eq_refl) as Hmeasure.
    exists (Next st3). split; [reflexivity|].
    assert (Hmeasure3 : (ps_measure st3 < ps_measure st)%nat).
    { unfold ps_measure. rewrite Hrc3, Hrc2, Hview. exact Hmeasure. }
    destruct (ms && (0 <? startOffset st2)) eqn:Hcond.
    + apply andb_prop in Hcond. destruct Hcond as [-> Hpos]. apply Z.ltb_lt in Hpos.
      destruct Hcc as (Hm3 & Hcur3 & Hlast3).
      exists (done ++ one_chunk il (chunkDigester st2)).
      split; [|split; [exact Hmeasure3|]].
      * unfold ps_inv. rewrite Hrc3, Hrc2, Hbuf3, Hbuf2, Hall3, Hcur3, Hlast3, Hso3,
          Hck3, Hck2, Herr3, Hview, Hlen, chunk_bytes_app, chunk_bytes_one, Hbytes2,
          app_nil_r.
        rewrite Hrc2 in Hw2.
        splits; auto.
      * intros target _ [Hc _]. unfold ps_canon.
        rewrite Hrc3, Hrc2, Hview, Hcur3, Hso3, Hcur2, <- app_assoc.
        rewrite Hchunks in Hc. split; [exact Hc | now right].
    + subst st3. exists done.
      split; [|split; [exact Hmeasure3|]].
      * unfold ps_inv. rewrite Hrc2, Hbuf2, Hlast2, Hck2, Hchunks2, Hview, Hlen.
        rewrite Hrc2 in Hw2.
        splits; auto.
      * intros target Hposv Hc. unfold ps_canon. rewrite Hrc2, Hview.
        pose proof Hc as [Hc1 Hc2].
        destruct ms.
        -- (* a split before anything was written *)
           cbn [andb] in Hcond. apply Z.ltb_ge in Hcond.
           assert (Hd : d = []).
           { destruct d as [|c t]; [reflexivity|].
             assert (0 < startOffset st2); [|lia].
             apply Hso_pos; [exact Hposv | discriminate |].
             destruct Hc2 as [[_ H0]|H0]; lia. }
           subst d. rewrite (Hso_nil eq_refl) in *.
           destruct (Hcur0 target Hc Hcond) as (Hcur & Hall & Hso0).
           rewrite Hchunks, Hcur in Hc1. cbn [one_chunk app] in Hc1.
           rewrite Hcur2, Hall2, Hcur, Hall. cbn [app].
           split; [exact Hc1 | left; auto].
        -- rewrite Hchunks in Hc1. rewrite Hcur2. split; [exact Hc1|].
           destruct d as [|c t].
           ++ rewrite (Hso_nil eq_refl), Hall2, app_nil_r. exact Hc2.
           ++ right. apply Hso_pos; [exact Hposv | discriminate |].
              destruct Hc2 as [[_ H0]|H0]; lia.
Qed.

Lemma payload_loop_spec (p : list byte) (fuel : nat) :
  forall (st : pstate) done,
  inv p st done -> (ps_measure st < fuel)%nat ->
  exists r,
    ploop fuel st = Some r /\
    match r with
    | inl st' =>
        exists done',
          final p st' done' /\
          (forall target, (forall o, positive o) ->
             canon target st done -> done' = target /\ (p <> [] -> 0 < startOffset st'))
    | inr (e, o) => eerr e
    end.
Proof.
  induction fuel as [|fuel IH]; intros st done Hinv Hfuel; [lia|].
  destruct (payload_body_step p st done Hinv) as (r & Hbody & Hr).
  cbn [payload_loop]. rewrite Hbody. cbn [obind].
  destruct r as [st'|st'|e o].
  - destruct Hr as (done' & Hinv' & Hm & Hcanon).
    destruct (IH st' done' Hinv' ltac:(lia)) as (r & Hloop & Hres).
    exists r. split; [exact Hloop|].
    destruct r as [st''|[e o]]; [|exact Hres].
    destruct Hres as (done'' & Hfinal & Hc).
    exists done''. split; [exact Hfinal|].
    intros target Hpos Hcan. apply Hc; [exact Hpos|].
    apply Hcanon; [apply Hpos | exact Hcan].
  - destruct Hr as (done' & Hfinal & Hc).
    exists (inl st'). split; [reflexivity|].
    exists done'. split; [exact Hfinal|].
    intros target Hpos Hcan. apply Hc; [apply Hpos | exact Hcan].
  - exists (inr (e, o)). split; [reflexivity | exact Hr].
Qed.

Local Abbreviation pchunks := (payload_chunks NewRollSum Roll OnSplitWithBits).

Lemma init_inv (ss : streamState Out) (o : Out) (e : tarEntry) :
  te_fin e = EOF ->
  Z.of_nat (length (te_payload e)) <= max_int64 ->
  (0 < length (ss_buf ss))%nat ->
  inv (te_payload e) (init_payloadState NewRollSum ss o e) [] /\
  canon (pchunks (te_payload e)) (init_payloadState NewRollSum ss o e) [] /\
  ps_measure (init_payloadState NewRollSum ss o e) = (2 * length (te_payload e) + 1)%nat.
Proof.
  intros Hfin Hlen Hbuf. unfold ps_inv, ps_canon, ps_measure, init_payloadState.
  psimpl. rewrite Hfin, newReader_measure, newReader_view.
  cbn [v_hole v_evs v_sum]. rewrite flat_scan by lia.
  change (Z.to_nat 0) with O. cbn [repeat app chunk_bytes map concat length chunks_match].
  splits; auto.
  - apply newReader_ok. exact Hlen.
  - congruence.
Qed.

(** ** The records of an entry *)

Lemma append_chunk_entries_map (name : string) (cs : list chunk) :
  forall entries,
  append_chunk_entries TypeChunk name cs entries =
    entries ++ map (chunk_entry TypeChunk name) cs.
Proof.
  induction cs as [|c cs IH]; intros entries; cbn [append_chunk_entries map].
  - now rewrite app_nil_r.
  - rewrite IH, <- app_assoc. reflexivity.
Qed.

Lemma upd_entry_mid (f : FileMetadata -> FileMetadata) (pre : list FileMetadata) :
  forall m post, upd_entry (length pre) f (pre ++ m :: post) = pre ++ f m :: post.
Proof.
  induction pre as [|x pre IH]; intros m post; cbn [length app upd_entry].
  - reflexivity.
  - now rewrite IH.
Qed.

Lemma backfill_from_combine (cs : list chunk) :
  forall pre es, length es = length cs ->
  backfill_from (length pre) cs (pre ++ es) =
    pre ++ map (fun cm => backfill (fst cm) (snd cm)) (combine cs es).
Proof.
  induction cs as [|c cs IH]; intros pre es Hlen.
  - destruct es; [|discriminate]. reflexivity.
  - destruct es as [|m es]; [discriminate|]. injection Hlen as Hlen.
    cbn [backfill_from combine map fst snd].
    rewrite upd_entry_mid.
    replace (pre ++ backfill c m :: es) with ((pre ++ [backfill c m]) ++ es)
      by (now rewrite <- app_assoc).
    replace (S (length pre)) with (length (pre ++ [backfill c m]))
      by (rewrite length_app; cbn; lia).
    rewrite IH by exact Hlen. now rewrite <- app_assoc.
Qed.

Lemma map_combine_map (g : chunk -> FileMetadata) (cs : list chunk) :
  map (fun cm => backfill (fst cm) (snd cm)) (combine cs (map g cs)) =
  map (fun c => backfill c (g c)) cs.
Proof.
  induction cs as [|c cs IH]; cbn [combine map fst snd]; [reflexivity|].
  now rewrite IH.
Qed.

Lemma make_entries_many (typ : string) (hdr : Header) (xattrs : list (string * string))
  (st : pstate) (c0 c1 : chunk) (cs : list chunk) :
  chunks st = c0 :: c1 :: cs ->
  make_entries TypeChunk typ hdr xattrs st =
    backfill c0 (primary_entry typ hdr xattrs st) ::
    map (fun c => backfill c (chunk_entry TypeChunk (hdr_Name hdr) c)) (c1 :: cs).
Proof.
  intros Hcs. unfold make_entries. rewrite Hcs.
  cbn [skipn]. rewrite append_chunk_entries_map.
  change ((1 <? length (c0 :: c1 :: cs))%nat) with true. cbv iota.
  pose proof (backfill_from_combine (c0 :: c1 :: cs) []
                ([primary_entry typ hdr xattrs st] ++
                 map (chunk_entry TypeChunk (hdr_Name hdr)) (c1 :: cs))) as H.
  cbn [length app] in H. rewrite length_map in H. cbn [app]. rewrite H by reflexivity.
  set (M := map (chunk_entry TypeChunk (hdr_Name hdr)) (c1 :: cs)).
  change (combine (c0 :: c1 :: cs) (primary_entry typ hdr xattrs st :: M))
    with ((c0, primary_entry typ hdr xattrs st) :: combine (c1 :: cs) M).
  rewrite map_cons. cbn [fst snd]. f_equal. apply map_combine_map.
Qed.

Lemma make_entries_few (typ : string) (hdr : Header) (xattrs : list (string * string))
  (st : pstate) :
  (length (chunks st) <= 1)%nat ->
  make_entries TypeChunk typ hdr xattrs st = [primary_entry typ hdr xattrs st].
Proof.
  intros Hlen. unfold make_entries.
  destruct (chunks st) as [|c0 [|c1 cs]]; cbn in *; try reflexivity. lia.
Qed.

(** ** Offsets, sizes and kinds of the chunks *)

Local Abbreviation kind_name :=
  (fun k : bool * list byte => if fst k then ChunkTypeZeros else ChunkTypeData).
Local Abbreviation size_of := (fun k : bool * list byte => Z.of_nat (length (snd k))).

Lemma chunks_match_proj (ks : list (bool * list byte)) :
  forall off cs, cmatch off ks cs ->
  length cs = length ks /\
  map c_ChunkType cs = map kind_name ks /\
  map c_ChunkSize cs = map size_of ks /\
  map c_Checksum cs = map (fun k => digest_String (snd k)) ks /\
  map c_ChunkOffset cs = starts off (map size_of ks) /\
  Forall (fun s => 0 < s) (map size_of ks).
Proof.
  induction ks as [|k ks IH]; intros off cs H; destruct cs as [|c cs]; try destruct H.
  - cbn. splits; auto.
  - rename H into Hk. rename H0 into Hrest.
    destruct Hk as (Hoff & Hsize & Hpos & Hsum & Htype).
    destruct (IH _ _ Hrest) as (H1 & H2 & H3 & H4 & H5 & H6).
    cbn [map length starts]. rewrite H1, H2, H3, H4, H5, Hoff, Hsize, Hsum, Htype.
    splits; auto. constructor; [cbn beta; lia | exact H6].
Qed.


Lemma total_app (a b : list Z) : total (a ++ b) = total a + total b.
Proof.
  unfold total. induction a as [|x a IH]; cbn [app fold_right]; [reflexivity|].
  rewrite IH. apply Z.add_assoc.
Qed.



(** ** The records of an entry, read off its chunks *)

Lemma make_entries_proj (typ : string) (hdr : Header) (xattrs : list (string * string))
  (st : pstate) (c0 : chunk) (cs : list chunk) :
  chunks st = c0 :: cs -> c_ChunkOffset c0 = 0 ->
  let entries := make_entries TypeChunk typ hdr xattrs st in
  length entries = length (chunks st) /\
  map ChunkOffset entries = map c_ChunkOffset (chunks st) /\
  (exists m rest, entries = m :: rest /\ Type_ m = typ /\
                  Forall (fun x => Type_ x = TypeChunk) rest) /\
  (cs <> [] ->
   map ChunkType entries = map c_ChunkType (chunks st) /\
   map ChunkSize entries = map c_ChunkSize (chunks st) /\
   map ChunkDigest entries = map c_Checksum (chunks st) /\
   map Offset entries = map c_Offset (chunks st)).
Proof.
  intros Hcs H0. destruct cs as [|c1 cs].
  - rewrite make_entries_few by (rewrite Hcs; cbn; lia).
    rewrite Hcs. cbn. rewrite H0. splits; auto.
    + eexists _, _. splits; [reflexivity | reflexivity | constructor].
    + congruence.
  - rewrite (make_entries_many typ hdr xattrs st c0 c1 cs Hcs).
    rewrite Hcs. cbn [map length]. rewrite length_map, !map_map. cbn. rewrite H0.
    splits; auto.
    eexists _, _. splits; [reflexivity | reflexivity |].
    constructor; [reflexivity|]. apply Forall_map, Forall_forall. reflexivity.
Qed.

Local Abbreviation ebody :=
  (entry_body NewRollSum Roll OnSplitWithBits zw_Write zw_Close zw_Flush zw_Reset
     dest_Count digest_String base64_EncodeToString GetType TypeChunk
     ChunkTypeData ChunkTypeZeros).

Lemma chunks_match_head (k : bool * list byte) (ks : list (bool * list byte))
  (c : chunk) (cs : list chunk) (off : Z) :
  cmatch off (k :: ks) (c :: cs) -> c_ChunkOffset c = off.
Proof. intros [(H & _) _]. exact H. Qed.


(** ** A hole between data *)










(** ** One entry: the merge rule, the empty payload *)

(** C7. When the payload of an entry was cut into more than one chunk,
    there is one record per chunk: the record of the first chunk is the
    primary record, every later chunk has a record of type chunk that
    carries the entry's name and the chunk's [ChunkOffset], and the
    [ChunkSize], compressed [Offset], [ChunkDigest] and [ChunkType] of
    each chunk are written onto its record, the primary one included.
    When there is exactly one chunk, the primary record is the only
    record, and none of these four fields is written: the chunk is
    accounted for by the primary record's own digest and offsets. *)
Theorem chunk_records_backfilled (typ : string) (hdr : Header)
  (xattrs : list (string * string)) (st : pstate) :
  let entries := make_entries TypeChunk typ hdr xattrs st in
  ((1 < length (chunks st))%nat ->
   length entries = length (chunks st) /\
   forall i c, nth_error (chunks st) i = Some c ->
     exists m,
       nth_error entries i = Some m /\
       ChunkSize m = c_ChunkSize c /\ Offset m = c_Offset c /\
       ChunkDigest m = c_Checksum c /\ ChunkType m = c_ChunkType c /\
       match i with
       | O => m = backfill c (primary_entry typ hdr xattrs st)
       | S _ =>
           m = backfill c (chunk_entry TypeChunk (hdr_Name hdr) c) /\
           Type_ m = TypeChunk /\ Name m = hdr_Name hdr /\
           ChunkOffset m = c_ChunkOffset c
       end) /\
  (length (chunks st) = 1%nat ->
   entries = [primary_entry typ hdr xattrs st] /\
   Forall (fun m => ChunkSize m = 0 /\ ChunkDigest m = String.EmptyString /\
                    ChunkType m = String.EmptyString /\
                    Digest m = checksum st /\ Offset m = startOffset st /\
                    EndOffset m = lastOffset st) entries).
Proof.
  cbv zeta. split.
  - intros Hlen.
    destruct (chunks st) as [|c0 [|c1 cs]] eqn:Hcs; cbn [length] in Hlen; try lia.
    rewrite (make_entries_many typ hdr xattrs st c0 c1 cs Hcs).
    split; [cbn [length]; now rewrite length_map|].
    intros [|i] c Hnth.
    + cbn [nth_error] in *. injection Hnth as <-.
      eexists. split; [reflexivity|]. cbn. auto.
    + cbn [nth_error] in *.
      eexists. split; [rewrite nth_error_map, Hnth; reflexivity|]. cbn. auto 10.
  - intros Hlen. rewrite make_entries_few by lia.
    split; [reflexivity|]. constructor; [cbn; auto 10 | constructor].
Qed.

(** C8. For every archive entry whose payload is empty: processing the
    entry returns; it fails only with an error of the encoder or of the
    type lookup; and when it succeeds (the header bytes were written
    and the type flag is known) exactly one record is appended to the
    metadata, the primary record of the entry, with an empty digest and
    with [Offset] and [EndOffset] both zero. The encoder is not
    restarted and no chunk is recorded. *)
Theorem empty_payload_one_record (fuel : nat) (ss : streamState Out) (e : tarEntry) :
  te_payload e = [] -> te_fin e = EOF ->
  (0 < length (ss_buf ss))%nat -> (0 < fuel)%nat ->
  exists r,
    ebody fuel ss e = Some r /\
    (forall g o', r = inr (g, o') ->
       eerr g \/ g <> None /\ snd (GetType (Typeflag (te_hdr e))) = g) /\
    forall ss', r = inl ss' ->
    exists m,
      metadata ss' = metadata ss ++ [m] /\
      Digest m = String.EmptyString /\ Offset m = 0 /\ EndOffset m = 0 /\
      Name m = hdr_Name (te_hdr e) /\ Type_ m = fst (GetType (Typeflag (te_hdr e))) /\
      ChunkDigest m = String.EmptyString /\
      snd (zw_Write (ss_out ss) (te_raw e)) = ss_out ss'.
Proof.
  intros Hp Hfin Hbuf Hfuel.
  destruct e as [hdr raw payload fin]. cbn [te_payload te_fin te_hdr te_raw] in *. subst.
  destruct fuel as [|fuel]; [lia|].
  destruct ss as [o0 [|b0 bt] md]; cbn [ss_buf length] in Hbuf; [lia|].
  unfold entry_body. cbn [te_hdr te_raw ss_out].
  destruct (zw_Write o0 raw) as [[x|] o] eqn:Hwrite.
  { fails_with ltac:(left; exact (write_error _ _ _ _ Hwrite)). }
  cbn.
  destruct (GetType (Typeflag hdr)) as [typ [x|]] eqn:Hg.
  { fails_with ltac:(right; split; [discriminate | reflexivity]). }
  eexists. split; [reflexivity|]. split; [discriminate|].
  intros ss' Hss. injection Hss as <-.
  eexists. split; [reflexivity|]. cbn. auto 10.
Qed.

(** ** A failing payload source *)

Lemma write_payload_err (read : Z) (st : pstate) :
  ps_err st = None ->
  match wpayload read st with
  | inl st' => ps_err st' = None
  | inr (g, _) => eerr g
  end.
Proof.
  intros Herr. unfold write_payload.
  destruct (0 <? read); [|exact Herr].
  destruct (startOffset st =? 0).
  - destruct (restart (ps_out st)) as [[off [x|]] o] eqn:Hr; psimpl.
    + exact (proj2 (restart_error _ _ _ _ Hr)).
    + destruct (zw_Write o _) as [[x|] o1] eqn:Hwr; psimpl;
        [exact (write_error _ _ _ _ Hwr) | reflexivity].
  - destruct (zw_Write (ps_out st) _) as [[x|] o1] eqn:Hwr; psimpl;
      [exact (write_error _ _ _ _ Hwr) | exact Herr].
Qed.

Lemma close_chunk_err (ms eof : bool) (st : pstate) :
  match cchunk ms eof st with
  | inl st' => ps_err st' = ps_err st
  | inr (g, _) => eerr g
  end.
Proof.
  unfold close_chunk.
  destruct ((ms || eof) && (0 <? startOffset st)); [|reflexivity].
  destruct (restart (ps_out st)) as [[off [x|]] o] eqn:Hr;
    [exact (proj2 (restart_error _ _ _ _ Hr)) | reflexivity].
Qed.

(** Whenever [Read] reports an error other than end-of-stream, the
    iteration returns from the function with the variable [err] of the
    enclosing loop, not with the error that was read. *)
Lemma payload_body_read_error (st : pstate) (ms : bool) (n : Z) (e : error)
  (b : list byte) (rc : rollingChecksumReader RollSum) :
  Read Roll OnSplitWithBits (ps_buf st) (rcReader st) = Some ((ms, n, Some e), b, rc) ->
  is_EOF e = false ->
  pbody st = Some (Stop (ps_err st) (ps_out st)).
Proof.
  intros HR He. unfold payload_body. rewrite HR. cbn [obind]. psimpl.
  now rewrite He.
Qed.

(** That variable is [nil] all along the loop: what the loop over a
    payload returns from the function is [nil] or an error of the
    encoder, whatever the payload source does. *)
Lemma payload_loop_error (fuel : nat) :
  forall (st : pstate) (g : goerror) (o : Out),
  ps_err st = None ->
  ploop fuel st = Some (inr (g, o)) ->
  g = None \/ eerr g.
Proof.
  induction fuel as [|fuel IH]; intros st g o Herr H; [discriminate|].
  cbn [payload_loop] in H. unfold payload_body in H.
  destruct (Read Roll OnSplitWithBits (ps_buf st) (rcReader st))
    as [[[[[ms n] errRead] b] rc]|]; [|discriminate].
  cbn [obind] in H. psimpl_all.
  destruct (match errRead with Some e => negb (is_EOF e) | None => false end).
  { cbn [obind] in H. injection H as <- _. now left. }
  match type of H with context [wpayload ?r ?s] =>
    pose proof (write_payload_err r s Herr) as Hw;
    destruct (wpayload r s) as [st1|[g1 o1]]
  end.
  2:{ cbn [obind] in H. injection H as <- _. now right. }
  match type of H with context [cchunk ?a ?b ?s] =>
    pose proof (close_chunk_err a b s) as Hc;
    destruct (cchunk a b s) as [st2|[g2 o2]]
  end.
  2:{ cbn [obind] in H. injection H as <- _. now right. }
  rewrite Hw in Hc.
  destruct (match errRead with Some e => is_EOF e | None => false end).
  - destruct (0 <? startOffset st2); discriminate.
  - cbn [obind] in H. exact (IH st2 g o Hc H).
Qed.

Local Abbreviation wstream :=
  (writeZstdChunkedStream NewRollSum Roll OnSplitWithBits ZstdWriterWithLevel
     zw_Write zw_Close zw_Flush zw_Reset dest_Count WriteZstdChunkedManifest
     digest_String base64_EncodeToString GetType TypeChunk ChunkTypeData ChunkTypeZeros).

Lemma entry_body_read_error (fuel : nat) (ss : streamState Out) (e : tarEntry) (o1 : Out) :
  te_payload e = [] -> is_EOF (te_fin e) = false ->
  zw_Write (ss_out ss) (te_raw e) = (None, o1) ->
  (0 < length (ss_buf ss))%nat -> (0 < fuel)%nat ->
  ebody fuel ss e = Some (inr (None, o1)).
Proof.
  intros Hp Herr Hwrite Hbuf Hfuel.
  destruct e as [hdr raw payload fin]. cbn [te_payload te_fin te_hdr te_raw] in *. subst.
  destruct fuel as [|fuel]; [lia|].
  destruct ss as [o0 [|b0 bt] md]; cbn [ss_buf ss_out length] in *; [lia|].
  unfold entry_body. cbn [te_hdr te_raw ss_out]. rewrite Hwrite.
  destruct fin; try discriminate; reflexivity.
Qed.

(** C1 (the code at a failing input). An archive whose first entry has
    a payload source that fails at once with an error [err] other than
    end-of-stream (a truncated archive gives [io.ErrUnexpectedEOF]):
    [Read] reports [err], and [writeZstdChunkedStream] stops there, but
    what it returns is the variable [err] of the enclosing loop, which
    is [nil] at that point: the caller is told that the encode
    succeeded, and no manifest was written. *)
Theorem payload_read_error_returns_nil (fuel : nat) (destFile : Out)
  (outMetadata : list (string * string)) (e : tarEntry) (rest : list tarEntry)
  (tend : error) (trailer : list byte) (level : Z) (o0 o1 : Out) :
  te_payload e = [] -> is_EOF (te_fin e) = false ->
  ZstdWriterWithLevel destFile level = (None, o0) ->
  zw_Write o0 (te_raw e) = (None, o1) ->
  (0 < fuel)%nat ->
  wstream fuel destFile outMetadata
    {| tr_entries := e :: rest; tr_end := tend; tr_trailer := trailer |} level =
    Some (None, deferred zw_Close zw_Flush o1).
Proof.
  intros Hp Herr Hnew Hwrite Hfuel.
  unfold writeZstdChunkedStream. rewrite Hnew.
  cbn [tr_entries tr_end stream_loop].
  rewrite (entry_body_read_error fuel
             {| ss_out := o0; ss_buf := repeat x00 4096; metadata := [] |} e o1 Hp Herr Hwrite);
    [reflexivity | | exact Hfuel].
  cbn [ss_buf]. rewrite repeat_length. apply Nat.lt_0_succ.
Qed.

(** The records of the entries come in the order of the archive: every
    entry appends to what the entries before it left. *)
Lemma entry_body_appends (fuel : nat) (ss ss' : streamState Out) (e : tarEntry) :
  ebody fuel ss e = Some (inl ss') ->
  exists entries, metadata ss' = metadata ss ++ entries.
Proof.
  unfold entry_body.
  destruct (zw_Write (ss_out ss) (te_raw e)) as [[x|] o]; [discriminate|].
  destruct (ploop fuel (init_payloadState NewRollSum ss o e)) as [[st|a]|];
    cbn [obind]; try discriminate.
  destruct (GetType (Typeflag (te_hdr e))) as [typ [x|]]; [discriminate|].
  intros H. injection H as <-. cbn [metadata]. eexists. reflexivity.
Qed.

Lemma stream_loop_appends (fuel : nat) (tend : error) (es : list tarEntry) :
  forall ss ss',
  stream_loop NewRollSum Roll OnSplitWithBits zw_Write zw_Close zw_Flush zw_Reset
    dest_Count digest_String base64_EncodeToString GetType TypeChunk
    ChunkTypeData ChunkTypeZeros fuel tend es ss = Some (inl ss') ->
  exists entries, metadata ss' = metadata ss ++ entries.
Proof.
  induction es as [|e es IH]; intros ss ss' H; cbn [stream_loop] in H.
  - destruct (is_EOF tend); [|discriminate]. injection H as <-.
    exists []. now rewrite app_nil_r.
  - destruct (ebody fuel ss e) as [[ss1|a]|] eqn:He; cbn [obind] in H; try discriminate.
    destruct (entry_body_appends fuel ss ss1 e He) as (l1 & H1).
    destruct (IH ss1 ss' H) as (l2 & H2).
    exists (l1 ++ l2). rewrite H2, H1. now rewrite app_assoc.
Qed.

(** * Further properties of the orchestrator *)

(** ** The records of an entry and the chunks of its payload *)

Lemma cut_bytes (evs : list event) :
  forall r cur, chunk_bytes (cut Roll OnSplitWithBits r cur evs) = cur ++ flat evs.
Proof.
  induction evs as [|[c|h] t IH]; intros r cur; cbn [cut].
  - rewrite chunk_bytes_one. cbn. now rewrite app_nil_r.
  - destruct (OnSplitWithBits (Roll r c) RollsumBits).
    + unfold chunk_bytes in *. cbn [map concat snd]. rewrite IH.
      cbn. now rewrite <- app_assoc.
    + rewrite IH. cbn. now rewrite <- app_assoc.
  - rewrite chunk_bytes_app, chunk_bytes_one.
    unfold chunk_bytes in *. cbn [map concat snd]. rewrite IH. reflexivity.
Qed.

Lemma one_chunk_Forall (P : bool * list byte -> Prop) (zeros : bool) (bs : list byte) :
  (bs <> [] -> P (zeros, bs)) -> Forall P (one_chunk zeros bs).
Proof.
  intros H. destruct bs as [|c t]; cbn; constructor; [|constructor].
  apply H. discriminate.
Qed.

Lemma cut_kinds (th : Z) (evs : list event) :
  1 <= th -> Forall (ev_ok th) evs ->
  forall r cur,
  Forall (fun k => snd k <> [] /\
                   (fst k = true ->
                    exists n, th <= Z.of_nat n /\ snd k = repeat x00 n))
         (cut Roll OnSplitWithBits r cur evs).
Proof.
  intros Hth. induction evs as [|[c|h] t IH]; intros Hok r cur; cbn [cut].
  - apply one_chunk_Forall. intros H. split; [exact H | discriminate].
  - apply Forall_inv_tail in Hok.
    destruct (OnSplitWithBits (Roll r c) RollsumBits).
    + constructor; [|now apply IH]. cbn. split; [|discriminate].
      intros H. apply app_eq_nil in H. destruct H; discriminate.
    + now apply IH.
  - pose proof (Forall_inv Hok) as Hh. cbn in Hh. apply Forall_inv_tail in Hok.
    apply Forall_app. split.
    + apply one_chunk_Forall. intros H. split; [exact H | discriminate].
    + constructor; [|now apply IH]. cbn. split.
      * destruct (Z.to_nat h) eqn:E; [lia | discriminate].
      * intros _. exists (Z.to_nat h). split; [lia | reflexivity].
Qed.

Lemma payload_chunks_shape (p : list byte) :
  chunk_bytes (pchunks p) = p /\
  Forall (fun k => snd k <> [] /\
                   (fst k = true ->
                    exists n, holesThreshold <= Z.of_nat n /\ snd k = repeat x00 n))
         (pchunks p).
Proof.
  unfold payload_chunks. split.
  - rewrite cut_bytes, flat_scan by lia. reflexivity.
  - apply cut_kinds; [rewrite holesThreshold_eq; lia | apply Forall_ev_ok_scan].
Qed.

Lemma make_entries_primary (typ : string) (hdr : Header) (xattrs : list (string * string))
  (st : pstate) :
  exists m rest,
    make_entries TypeChunk typ hdr xattrs st = m :: rest /\
    Type_ m = typ /\ Digest m = checksum st /\ EndOffset m = lastOffset st /\
    Forall (fun x => Name x = hdr_Name hdr) (m :: rest) /\
    Forall (fun x => Type_ x = TypeChunk) rest.
Proof.
  destruct (chunks st) as [|c0 [|c1 cs]] eqn:Hcs.
  - rewrite make_entries_few by (rewrite Hcs; cbn; lia).
    do 2 eexists. split; [reflexivity|]. cbn. splits; auto.
  - rewrite make_entries_few by (rewrite Hcs; cbn; lia).
    do 2 eexists. split; [reflexivity|]. cbn. splits; auto.
  - rewrite (make_entries_many typ hdr xattrs st c0 c1 cs Hcs).
    do 2 eexists. split; [reflexivity|]. cbn [Type_ Digest EndOffset backfill primary_entry].
    splits; auto.
    + constructor; [reflexivity|]. apply Forall_map, Forall_forall. intros c _. reflexivity.
    + apply Forall_map, Forall_forall. intros c _. reflexivity.
Qed.

(** X9. For every entry with a non-empty payload that ends with
    [io.EOF], when each restart of the encoder reports a positive
    offset: processing the entry returns; it fails only with an error
    of the encoder or of the type lookup; and when it succeeds the
    records of the entry are those of the chunks [ks] of the payload,
    which are a function of the payload alone. [ks] is not empty, its
    chunks are not empty and concatenate to the payload, and a chunk of
    zeros is a run of at least 1024 zero bytes. There is one record per
    chunk, all under the entry's name; the first one has the entry's
    type and the digest of the whole payload, the others the chunk
    type. With more than one chunk the records carry, in order, the
    kinds, the sizes and the digests of the chunks, and the offsets at
    which the chunks start in the payload; with one chunk the only
    record has none of these. *)
Theorem entry_records_follow_chunks (fuel : nat) (ss : streamState Out) (e : tarEntry) :
  (forall o, positive o) ->
  te_fin e = EOF ->
  te_payload e <> [] ->
  Z.of_nat (length (te_payload e)) <= max_int64 ->
  (0 < length (ss_buf ss))%nat ->
  (2 * length (te_payload e) + 1 < fuel)%nat ->
  exists r,
    ebody fuel ss e = Some r /\
    (forall g o', r = inr (g, o') ->
       eerr g \/ g <> None /\ snd (GetType (Typeflag (te_hdr e))) = g) /\
    forall ss', r = inl ss' ->
    let ks := pchunks (te_payload e) in
    exists m rest,
      metadata ss' = metadata ss ++ m :: rest /\
      length (m :: rest) = length ks /\
      chunk_bytes ks = te_payload e /\
      Forall (fun k => snd k <> [] /\
                       (fst k = true ->
                        exists n, 1024 <= Z.of_nat n /\ snd k = repeat x00 n)) ks /\
      Forall (fun x => Name x = hdr_Name (te_hdr e)) (m :: rest) /\
      Type_ m = fst (GetType (Typeflag (te_hdr e))) /\
      Forall (fun x => Type_ x = TypeChunk) rest /\
      Digest m = digest_String (te_payload e) /\
      ((1 < length ks)%nat ->
       map ChunkType (m :: rest) = map kind_name ks /\
       map ChunkSize (m :: rest) = map size_of ks /\
       map ChunkDigest (m :: rest) = map (fun k => digest_String (snd k)) ks /\
       map ChunkOffset (m :: rest) = starts 0 (map size_of ks)) /\
      (length ks = 1%nat ->
       rest = [] /\ ChunkSize m = 0 /\ ChunkOffset m = 0 /\
       ChunkDigest m = String.EmptyString /\ ChunkType m = String.EmptyString).
Proof.
  intros Hposv Hfin Hne Hlen Hbuf Hfuel. unfold entry_body.
  destruct (zw_Write (ss_out ss) (te_raw e)) as [[x|] o] eqn:Hwrite.
  { fails_with ltac:(left; exact (write_error _ _ _ _ Hwrite)). }
  destruct (init_inv ss o e Hfin Hlen Hbuf) as (Hinv & Hcanon & Hmeasure).
  destruct (payload_loop_spec (te_payload e) fuel _ [] Hinv ltac:(lia)) as (r & Hloop & Hres).
  rewrite Hloop. cbn [obind].
  destruct r as [st|[e0 o0]]; [|fails_with ltac:(left; exact Hres)].
  destruct (GetType (Typeflag (te_hdr e))) as [typ [x|]] eqn:Hg;
    [fails_with ltac:(right; split; [discriminate | reflexivity])|].
  eexists. split; [reflexivity|]. split; [discriminate|].
  intros ss' Hss. injection Hss as <-. cbn [metadata fst]. cbv zeta.
  destruct Hres as (done' & (Hm & Hpos & _) & Hc).
  destruct (Hc _ Hposv Hcanon) as [-> Hso].
  destruct (Hpos (Hso Hne)) as [Hck Hbytes].
  destruct (payload_chunks_shape (te_payload e)) as [_ Hshape].
  rewrite holesThreshold_eq in Hshape.
  destruct (chunks_match_proj _ _ _ Hm) as (Hlen' & Htypes & Hsizes & Hsums & Hoffs & _).
  set (xattrs := map (fun kv => (fst kv, base64_EncodeToString (snd kv)))
                     (hdr_Xattrs (te_hdr e))).
  destruct (make_entries_primary typ (te_hdr e) xattrs st)
    as (m & rest & Hent & Htyp & Hdig & _ & Hnames & Hrest).
  exists m, rest. rewrite Hent.
  destruct (pchunks (te_payload e)) as [|k ks] eqn:Hks.
  { cbn in Hbytes. congruence. }
  destruct (chunks st) as [|c0 cs] eqn:Hcs; [destruct Hm|].
  pose proof (chunks_match_head _ _ _ _ _ Hm) as H0.
  destruct (make_entries_proj typ (te_hdr e) xattrs st c0 cs Hcs H0)
    as (Hel & Heo & _ & Hback).
  rewrite Hent, Hcs in Hel, Heo, Hback.
  splits; auto.
  - rewrite Hel. exact Hlen'.
  - congruence.
  - intros Hmany. cbn [length] in Hmany, Hlen'.
    destruct cs as [|c1 cs]; [cbn in Hlen'; lia|].
    destruct (Hback ltac:(discriminate)) as (Het & Hes & Hed & _).
    rewrite Het, Hes, Hed, Heo. splits; auto.
  - intros Hone. cbn [length] in Hone, Hlen'.
    destruct cs as [|c1 cs]; [|cbn in Hlen'; lia].
    rewrite make_entries_few in Hent by (rewrite Hcs; cbn; lia).
    injection Hent as <- <-. cbn. splits; auto.
Qed.

(** ** The whole archive *)

Lemma write_payload_buf (read : Z) (st : pstate) :
  match wpayload read st with
  | inl st' => ps_buf st' = ps_buf st
  | inr _ => True
  end.
Proof.
  unfold write_payload. destruct (0 <? read); [|reflexivity].
  destruct (startOffset st =? 0).
  - destruct (restart (ps_out st)) as [[off [x|]] o]; psimpl; [exact I|].
    match goal with |- context [zw_Write ?a ?b] => destruct (zw_Write a b) as [[x|] o1] end;
      [exact I | reflexivity].
  - match goal with |- context [zw_Write ?a ?b] => destruct (zw_Write a b) as [[x|] o1] end;
      [exact I | reflexivity].
Qed.

Lemma close_chunk_buf (ms eof : bool) (st : pstate) :
  match cchunk ms eof st with
  | inl st' => ps_buf st' = ps_buf st
  | inr _ => True
  end.
Proof.
  unfold close_chunk. destruct ((ms || eof) && (0 <? startOffset st)); [|reflexivity].
  destruct (restart (ps_out st)) as [[off [x|]] o]; [exact I | reflexivity].
Qed.

Lemma payload_body_buf (st : pstate) (r : flow Out pstate) :
  pbody st = Some r ->
  match r with
  | Next st' | Break st' => length (ps_buf st') = length (ps_buf st)
  | Stop _ _ => True
  end.
Proof.
  unfold payload_body.
  destruct (Read Roll OnSplitWithBits (ps_buf st) (rcReader st))
    as [[[[[ms n] errRead] b] rc]|] eqn:HR; [|discriminate].
  apply Read_length in HR. cbn [obind]. psimpl.
  destruct (match errRead with Some e => negb (is_EOF e) | None => false end).
  { intros H. injection H as <-. exact I. }
  match goal with |- context [wpayload ?r ?s] =>
    pose proof (write_payload_buf r s) as Hw; destruct (wpayload r s) as [st1|[g1 o1]]
  end.
  2:{ intros H. injection H as <-. exact I. }
  match goal with |- context [cchunk ?a ?c ?s] =>
    pose proof (close_chunk_buf a c s) as Hc; destruct (cchunk a c s) as [st2|[g2 o2]]
  end.
  2:{ intros H. injection H as <-. exact I. }
  psimpl_all.
  destruct (match errRead with Some e => is_EOF e | None => false end).
  - destruct (0 <? startOffset st2); intros H; injection H as <-; psimpl; congruence.
  - intros H. injection H as <-. congruence.
Qed.

Lemma payload_loop_buf (fuel : nat) :
  forall (st st' : pstate),
  ploop fuel st = Some (inl st') -> length (ps_buf st') = length (ps_buf st).
Proof.
  induction fuel as [|fuel IH]; intros st st' H; [discriminate|].
  cbn [payload_loop] in H.
  destruct (pbody st) as [[st1|st1|g o]|] eqn:Hb; cbn [obind] in H; try discriminate;
    apply payload_body_buf in Hb.
  - rewrite (IH _ _ H). exact Hb.
  - injection H as <-. exact Hb.
Qed.

Local Abbreviation sloop :=
  (stream_loop NewRollSum Roll OnSplitWithBits zw_Write zw_Close zw_Flush zw_Reset
     dest_Count digest_String base64_EncodeToString GetType TypeChunk
     ChunkTypeData ChunkTypeZeros).
Local Abbreviation group := (entry_group GetType TypeChunk).
Local Abbreviation type_error :=
  (fun (es : list tarEntry) (g : goerror) =>
     g <> None /\ Exists (fun e => snd (GetType (Typeflag (te_hdr e))) = g) es).
Local Abbreviation fits :=
  (fun (fuel : nat) (e : tarEntry) =>
     te_fin e = EOF /\ Z.of_nat (length (te_payload e)) <= max_int64 /\
     (2 * length (te_payload e) + 1 < fuel)%nat).

Lemma entry_body_group (fuel : nat) (ss : streamState Out) (e : tarEntry) :
  fits fuel e -> (0 < length (ss_buf ss))%nat ->
  exists r,
    ebody fuel ss e = Some r /\
    match r with
    | inl ss' =>
        length (ss_buf ss') = length (ss_buf ss) /\
        exists g, metadata ss' = metadata ss ++ g /\ group e g
    | inr (g, _) => eerr g \/ type_error [e] g
    end.
Proof.
  intros (Hfin & Hlen & Hfuel) Hbuf. unfold entry_body.
  destruct (zw_Write (ss_out ss) (te_raw e)) as [[x|] o] eqn:Hwrite.
  { eexists. split; [reflexivity|]. left. exact (write_error _ _ _ _ Hwrite). }
  destruct (init_inv ss o e Hfin Hlen Hbuf) as (Hinv & _ & Hmeasure).
  destruct (payload_loop_spec (te_payload e) fuel _ [] Hinv ltac:(lia)) as (r & Hloop & Hres).
  rewrite Hloop. cbn [obind].
  destruct r as [st|[e0 o0]]; [|eexists; split; [reflexivity | left; exact Hres]].
  destruct (GetType (Typeflag (te_hdr e))) as [typ [x|]] eqn:Hg.
  { eexists. split; [reflexivity|]. right. split; [discriminate|].
    constructor. now rewrite Hg. }
  eexists. split; [reflexivity|]. cbn [ss_buf metadata].
  split; [exact (payload_loop_buf _ _ _ Hloop)|].
  eexists. split; [reflexivity|].
  destruct (make_entries_primary typ (te_hdr e)
              (map (fun kv => (fst kv, base64_EncodeToString (snd kv)))
                   (hdr_Xattrs (te_hdr e))) st)
    as (m & rest & Hent & Htyp & _ & _ & Hnames & Hrest).
  exists m, rest. rewrite Hg, Hent. cbn [fst]. splits; auto.
Qed.

Lemma stream_loop_groups (fuel : nat) (tend : error) (es : list tarEntry) :
  forall ss,
  Forall (fits fuel) es -> (0 < length (ss_buf ss))%nat ->
  exists r,
    sloop fuel tend es ss = Some r /\
    match r with
    | inl ss' =>
        is_EOF tend = true /\
        exists groups,
          metadata ss' = metadata ss ++ concat groups /\ Forall2 group es groups
    | inr (g, _) =>
        eerr g \/ type_error es g \/ g = Some tend /\ is_EOF tend = false
    end.
Proof.
  induction es as [|e es IH]; intros ss Hes Hbuf; cbn [stream_loop].
  - destruct (is_EOF tend) eqn:Ht; eexists; (split; [reflexivity|]).
    + split; [reflexivity|]. exists []. cbn. rewrite app_nil_r. auto.
    + right; right. split; reflexivity.
  - pose proof (Forall_inv Hes) as He. apply Forall_inv_tail in Hes.
    destruct (entry_body_group fuel ss e He Hbuf) as (r & Hr & Hres).
    rewrite Hr. cbn [obind].
    destruct r as [ss1|[g o]].
    + destruct Hres as (Hb1 & g1 & Hm1 & Hg1).
      destruct (IH ss1 Hes ltac:(lia)) as (r & Hr' & Hres').
      exists r. split; [exact Hr'|].
      destruct r as [ss'|[g o]].
      * destruct Hres' as (Ht & groups & Hm & Hgs). split; [exact Ht|].
        exists (g1 :: groups). cbn [concat]. rewrite Hm, Hm1, app_assoc.
        split; [reflexivity | constructor; assumption].
      * destruct Hres' as [H|[[Hn Hx]|H]];
          [left; exact H
          |right; left; split; [exact Hn | now apply Exists_cons_tl]
          |right; right; exact H].
    + eexists. split; [reflexivity|].
      destruct Hres as [H|[Hn Hx]]; [left; exact H|].
      right; left. split; [exact Hn|]. apply Exists_cons_hd.
      inversion Hx as [? ? H0|? ? H0]; [exact H0 | inversion H0].
Qed.

(** X10. For every archive whose entries have payloads that end with
    [io.EOF] and whose reader ends with [io.EOF]:
    [writeZstdChunkedStream] returns. Either it returns what
    [WriteZstdChunkedManifest] returns, and then the records it was
    given are the records of the entries in the order of the archive,
    each entry contributing its primary record followed by its chunk
    records, all under its name; or it returns an error that is not
    nil: the one of [ZstdWriterWithLevel], one of the encoder, or one
    of [GetType] for an entry of the archive. *)
Theorem archive_records_in_order (fuel : nat) (destFile : Out)
  (outMetadata : list (string * string)) (reader : tarReader) (level : Z) :
  tr_end reader = EOF ->
  Forall (fits fuel) (tr_entries reader) ->
  exists res,
    wstream fuel destFile outMetadata reader level = Some res /\
    ((exists o groups,
        res = WriteZstdChunkedManifest o outMetadata (dest_Count o mod 2 ^ 64)
                (concat groups) level /\
        Forall2 group (tr_entries reader) groups) \/
     (fst res <> None /\
      (fst res = fst (ZstdWriterWithLevel destFile level) \/
       eerr (fst res) \/
       Exists (fun e => snd (GetType (Typeflag (te_hdr e))) = fst res) (tr_entries reader)))).
Proof.
  intros Hend Hes. unfold writeZstdChunkedStream.
  destruct (ZstdWriterWithLevel destFile level) as [[x|] o0] eqn:Hnew.
  { eexists. split; [reflexivity|]. right. cbn. split; [discriminate | now left]. }
  destruct (stream_loop_groups fuel (tr_end reader) (tr_entries reader)
              {| ss_out := o0; ss_buf := repeat x00 4096; metadata := [] |} Hes)
    as (r & Hr & Hres).
  { cbn [ss_buf]. rewrite repeat_length. apply Nat.lt_0_succ. }
  rewrite Hr. cbn [obind].
  destruct r as [ss|[g o]].
  - destruct Hres as (_ & groups & Hm & Hgs). cbn [metadata app] in Hm.
    destruct (zw_Write (ss_out ss) (tr_trailer reader)) as [[x|] o1] eqn:Hw.
    { eexists. split; [reflexivity|]. right. cbn [fst].
      split; [discriminate|]. right; left. exact (write_error _ _ _ _ Hw). }
    destruct (zw_Flush o1) as [[x|] o2] eqn:Hf.
    { eexists. split; [reflexivity|]. right. cbn [fst].
      split; [discriminate|]. right; left.
      exists x. split; [reflexivity|]. right; right. exists o1. now rewrite Hf. }
    destruct (zw_Close o2) as [[x|] o3] eqn:Hc.
    { eexists. split; [reflexivity|]. right. cbn [fst].
      split; [discriminate|]. right; left.
      exists x. split; [reflexivity|]. right; left. exists o2. now rewrite Hc. }
    eexists. split; [reflexivity|]. left. exists o3, groups. rewrite Hm. auto.
  - eexists. split; [reflexivity|]. right. cbn [fst].
    destruct Hres as [H|[[Hn Hx]|[_ Ht]]].
    + split; [|right; left; exact H]. destruct H as (x & -> & _). discriminate.
    + split; [exact Hn | right; right; exact Hx].
    + rewrite Hend in Ht. discriminate.
Qed.

(** X11. For every archive whose entries have payloads that end with
    [io.EOF] and whose reader then fails with an error other than
    [io.EOF], the encoder having been created: [writeZstdChunkedStream]
    returns an error that is not nil, after the deferred close and
    flush of the encoder, and writes no manifest. The error is the one
    of the archive reader, unless the encoder or [GetType] failed on an
    entry before. *)
Theorem archive_error_is_returned (fuel : nat) (destFile : Out)
  (outMetadata : list (string * string)) (reader : tarReader) (level : Z) (o0 : Out) :
  is_EOF (tr_end reader) = false ->
  ZstdWriterWithLevel destFile level = (None, o0) ->
  Forall (fits fuel) (tr_entries reader) ->
  exists x o,
    wstream fuel destFile outMetadata reader level =
      Some (Some x, deferred zw_Close zw_Flush o) /\
    (x = tr_end reader \/
     eerr (Some x) \/
     Exists (fun e => snd (GetType (Typeflag (te_hdr e))) = Some x) (tr_entries reader)).
Proof.
  intros Hend Hnew Hes. unfold writeZstdChunkedStream. rewrite Hnew.
  destruct (stream_loop_groups fuel (tr_end reader) (tr_entries reader)
              {| ss_out := o0; ss_buf := repeat x00 4096; metadata := [] |} Hes)
    as (r & Hr & Hres).
  { cbn [ss_buf]. rewrite repeat_length. apply Nat.lt_0_succ. }
  rewrite Hr. cbn [obind].
  destruct r as [ss|[g o]].
  - destruct Hres as (Ht & _). congruence.
  - destruct Hres as [H|[[Hn Hx]|[-> _]]].
    + pose proof H as (x & -> & _). exists x, o. auto.
    + destruct g as [x|]; [|congruence]. exists x, o. auto.
    + exists (tr_end reader), o. auto.
Qed.

(** ** A payload source that fails inside a hole *)

Lemma Read_loop_silent (k : nat) :
  forall i b (rc : rollingChecksumReader RollSum) res b' rc',
  silent (rc_reader rc) -> closed rc = false ->
  Read_loop Roll OnSplitWithBits k i b rc = Some (res, b', rc') ->
  snd res = None /\ silent (rc_reader rc') /\ closed rc' = false.
Proof.
  induction k as [|k IH]; intros i b rc res b' rc' Hs Hc H; cbn [Read_loop] in H.
  - injection H as <- _ <-. auto.
  - destruct (silent_step _ Hs) as (h & c & f' & Hr & Hs').
    rewrite Hr in H. cbn [obind] in H.
    cbn [rc_reader closed rollsum pendingHole WrittenOut IsLastChunkZeros] in H.
    destruct (0 <? h).
    + injection H as <- _ <-. auto.
    + destruct (OnSplitWithBits (Roll (rollsum rc) c) RollsumBits).
      * injection H as <- _ <-. auto.
      * apply IH in H; auto.
Qed.

Lemma Read_silent (b : list byte) (rc : rollingChecksumReader RollSum) res b' rc' :
  silent (rc_reader rc) -> closed rc = false ->
  Read Roll OnSplitWithBits b rc = Some (res, b', rc') ->
  snd res = None /\ silent (rc_reader rc') /\ closed rc' = false.
Proof.
  intros Hs Hc. unfold Read.
  cbn [rc_reader closed rollsum pendingHole WrittenOut IsLastChunkZeros].
  destruct (0 <? pendingHole rc).
  - intros H. injection H as <- _ <-. auto.
  - rewrite Hc. intros H. apply Read_loop_silent in H; auto.
Qed.

Lemma write_payload_spec_rc (read : Z) (st : pstate) :
  match wpayload read st with
  | inl st' => rcReader st' = rcReader st
  | inr _ => True
  end.
Proof.
  unfold write_payload. destruct (0 <? read); [|reflexivity].
  destruct (startOffset st =? 0).
  - destruct (restart (ps_out st)) as [[off [x|]] o]; psimpl; [exact I|].
    match goal with |- context [zw_Write ?a ?b] => destruct (zw_Write a b) as [[x|] o1] end;
      [exact I | reflexivity].
  - match goal with |- context [zw_Write ?a ?b] => destruct (zw_Write a b) as [[x|] o1] end;
      [exact I | reflexivity].
Qed.

Lemma close_chunk_rc (ms eof : bool) (st : pstate) :
  match cchunk ms eof st with
  | inl st' => rcReader st' = rcReader st
  | inr _ => True
  end.
Proof.
  unfold close_chunk. destruct ((ms || eof) && (0 <? startOffset st)); [|reflexivity].
  destruct (restart (ps_out st)) as [[off [x|]] o]; [exact I | reflexivity].
Qed.

Lemma payload_loop_silent (fuel : nat) :
  forall st : pstate,
  silent (rc_reader (rcReader st)) -> closed (rcReader st) = false -> ps_err st = None ->
  ploop fuel st = None \/
  exists g o, ploop fuel st = Some (inr (g, o)) /\ eerr g.
Proof.
  induction fuel as [|fuel IH]; intros st Hs Hc Herr; [now left|].
  cbn [payload_loop]. unfold payload_body.
  destruct (Read Roll OnSplitWithBits (ps_buf st) (rcReader st))
    as [[[[[ms n] errRead] b] rc]|] eqn:HR; [|now left].
  destruct (Read_silent _ _ _ _ _ Hs Hc HR) as (He & Hs' & Hc'). cbn in He. subst errRead.
  cbn [obind]. psimpl.
  match goal with |- context [wpayload ?r ?s] =>
    pose proof (write_payload_err r s Herr) as Hw;
    pose proof (write_payload_spec_rc r s) as Hwr;
    destruct (wpayload r s) as [st1|[g1 o1]]
  end.
  2:{ right. exists g1, o1. auto. }
  match goal with |- context [cchunk ?a ?c ?s] =>
    pose proof (close_chunk_err a c s) as Hcc;
    pose proof (close_chunk_rc a c s) as Hcr;
    destruct (cchunk a c s) as [st2|[g2 o2]]
  end.
  2:{ right. exists g2, o2. auto. }
  cbn [obind]. psimpl_all. apply IH; rewrite ?Hcr, ?Hwr; try assumption. congruence.
Qed.

(** X12. An entry whose payload is [L] zero bytes, [L] at least the
    hole threshold, after which the payload source fails with an error
    other than [io.EOF] (an archive cut inside a hole). The hole
    detector never reports the error, so the loop over the payload
    never sees the end of it: however many iterations it is given,
    [writeZstdChunkedStream] is still inside that loop, writing zero
    bytes to the encoder, unless the encoder fails, in which case its
    error is returned. It never returns nil and never gets to the next
    entry. *)
Theorem payload_cut_in_hole_never_ends (fuel : nat) (destFile : Out)
  (outMetadata : list (string * string)) (e : tarEntry) (rest : list tarEntry)
  (tend : error) (trailer : list byte) (level : Z) (o0 : Out) (L : nat) :
  te_payload e = repeat x00 L ->
  1024 <= Z.of_nat L <= max_int64 ->
  is_EOF (te_fin e) = false ->
  ZstdWriterWithLevel destFile level = (None, o0) ->
  wstream fuel destFile outMetadata
    {| tr_entries := e :: rest; tr_end := tend; tr_trailer := trailer |} level = None \/
  exists x o,
    wstream fuel destFile outMetadata
      {| tr_entries := e :: rest; tr_end := tend; tr_trailer := trailer |} level =
      Some (Some x, deferred zw_Close zw_Flush o) /\
    eerr (Some x).
Proof.
  intros Hp HL Hfin Hnew. unfold writeZstdChunkedStream. rewrite Hnew.
  cbn [tr_entries tr_end stream_loop]. unfold entry_body.
  destruct (zw_Write o0 (te_raw e)) as [[x|] o] eqn:Hwrite; cbn [ss_out].
  { rewrite Hwrite. cbn [obind]. right. exists x, o.
    split; [reflexivity | exact (write_error _ _ _ _ Hwrite)]. }
  rewrite Hwrite.
  match goal with |- context [ploop fuel ?s] =>
    destruct (payload_loop_silent fuel s) as [H|(g & o' & H & Hg)]
  end.
  - unfold init_payloadState, newRollingChecksumReader, newHolesFinder.
    cbn [rcReader rc_reader]. rewrite Hp.
    apply hole_then_silent; [exact Hfin | | | ]; rewrite ?holesThreshold_eq; lia.
  - reflexivity.
  - reflexivity.
  - rewrite H. now left.
  - rewrite H. cbn [obind]. right.
    pose proof Hg as (x & -> & _). exists x, o'. auto.
Qed.

(** ** Where the errors come from *)

Lemma entry_body_error (fuel : nat) (ss : streamState Out) (e : tarEntry)
  (g : goerror) (o : Out) :
  ebody fuel ss e = Some (inr (g, o)) ->
  g = None \/ eerr g \/ type_error [e] g.
Proof.
  unfold entry_body.
  destruct (zw_Write (ss_out ss) (te_raw e)) as [[x|] o1] eqn:Hwrite.
  { intros H. injection H as <- _. right; left. exact (write_error _ _ _ _ Hwrite). }
  destruct (ploop fuel (init_payloadState NewRollSum ss o1 e)) as [[st|[g1 o2]]|] eqn:Hloop;
    cbn [obind]; try discriminate.
  - destruct (GetType (Typeflag (te_hdr e))) as [typ [x|]] eqn:Hg; [|discriminate].
    intros H. injection H as <- _. right; right. split; [discriminate|].
    constructor. now rewrite Hg.
  - intros H. injection H as <- _.
    destruct (payload_loop_error fuel (init_payloadState NewRollSum ss o1 e) _ _ eq_refl Hloop)
      as [H|H]; auto.
Qed.

Lemma stream_loop_error (fuel : nat) (tend : error) (es : list tarEntry) :
  forall ss g o,
  sloop fuel tend es ss = Some (inr (g, o)) ->
  g = None \/ eerr g \/ type_error es g \/ g = Some tend.
Proof.
  induction es as [|e es IH]; intros ss g o H; cbn [stream_loop] in H.
  - destruct (is_EOF tend); [discriminate|]. injection H as <- _. auto.
  - destruct (ebody fuel ss e) as [[ss1|[g1 o1]]|] eqn:He; cbn [obind] in H;
      try discriminate.
    + destruct (IH _ _ _ H) as [H1|[H1|[[Hn Hx]|H1]]]; auto.
      right; right; left. split; [exact Hn | now apply Exists_cons_tl].
    + injection H as <- <-.
      destruct (entry_body_error _ _ _ _ _ He) as [H1|[H1|[Hn Hx]]]; auto.
      right; right; left. split; [exact Hn|]. apply Exists_cons_hd.
      inversion Hx as [? ? H0|? ? H0]; [exact H0 | inversion H0].
Qed.

(** X13. For every archive, whatever its payload sources do: an error
    that [writeZstdChunkedStream] returns is the error of
    [ZstdWriterWithLevel], an error of the encoder, the error of
    [GetType] for an entry, the error that ended the archive reader, or
    what [WriteZstdChunkedManifest] returned. An error that [Read]
    reported for a payload is not among them: when the function stops
    on one it returns nil. *)
Theorem stream_error_provenance (fuel : nat) (destFile : Out)
  (outMetadata : list (string * string)) (reader : tarReader) (level : Z)
  (x : error) (o : Out) :
  wstream fuel destFile outMetadata reader level = Some (Some x, o) ->
  fst (ZstdWriterWithLevel destFile level) = Some x \/
  eerr (Some x) \/
  Exists (fun e => snd (GetType (Typeflag (te_hdr e))) = Some x) (tr_entries reader) \/
  x = tr_end reader \/
  exists o' md,
    fst (WriteZstdChunkedManifest o' outMetadata (dest_Count o' mod 2 ^ 64) md level) = Some x.
Proof.
  unfold writeZstdChunkedStream.
  destruct (ZstdWriterWithLevel destFile level) as [[y|] o0] eqn:Hnew.
  { intros H. injection H as <- _. now left. }
  destruct (sloop fuel (tr_end reader) (tr_entries reader) _) as [[ss|[g o1]]|] eqn:Hloop;
    cbn [obind]; try discriminate.
  - destruct (zw_Write (ss_out ss) (tr_trailer reader)) as [[y|] o1] eqn:Hw.
    { intros H. injection H as <- _. right; left. exact (write_error _ _ _ _ Hw). }
    destruct (zw_Flush o1) as [[y|] o2] eqn:Hf.
    { intros H. injection H as <- _. right; left.
      exists y. split; [reflexivity|]. right; right. exists o1. now rewrite Hf. }
    destruct (zw_Close o2) as [[y|] o3] eqn:Hc.
    { intros H. injection H as <- _. right; left.
      exists y. split; [reflexivity|]. right; left. exists o2. now rewrite Hc. }
    intros H. right; right; right; right. exists o3, (metadata ss).
    destruct (WriteZstdChunkedManifest o3 _ _ _ _) as [g' o4]. now injection H as -> _.
  - intros H. injection H as -> _.
    destruct (stream_loop_error _ _ _ _ _ _ Hloop) as [H|[H|[[_ H]|H]]];
      [discriminate
      |right; left; exact H
      |right; right; left; exact H
      |right; right; right; left; congruence].
Qed.

(** ** The compressed offsets of an entry *)

Local Abbreviation offs := (ps_offsets zw_Close zw_Flush zw_Reset dest_Count).

Lemma restart_result (o : Out) (off : Z) (o' : Out) :
  restart o = ((off, None), o') ->
  exists ob, o' = zw_Reset ob /\ off = dest_Count ob.
Proof.
  unfold restartCompression.
  destruct (zw_Close o) as [[x|] o1]; [discriminate|].
  destruct (zw_Flush o1) as [[x|] o2]; [discriminate|].
  intros H. injection H as <- <-. exists o2. auto.
Qed.

Lemma write_payload_offsets (read : Z) (st : pstate) :
  match wpayload read st with
  | inr _ => True
  | inl st' =>
      (read <= 0 -> st' = st) /\
      (0 < read -> startOffset st = 0 ->
       (exists oa, restart (ps_out st) = ((startOffset st', None), oa)) /\
       lastOffset st' = startOffset st') /\
      (startOffset st <> 0 ->
       startOffset st' = startOffset st /\ lastOffset st' = lastOffset st)
  end.
Proof.
  unfold write_payload.
  destruct (Z.ltb_spec 0 read) as [Hr|Hr]; [|splits; auto; lia].
  destruct (Z.eqb_spec (startOffset st) 0) as [H0|H0].
  - destruct (restart (ps_out st)) as [[off [x|]] o] eqn:Hrs; psimpl; [exact I|].
    match goal with |- context [zw_Write ?a ?b] => destruct (zw_Write a b) as [[x|] o1] end;
      [exact I|]. psimpl. splits; try lia; try congruence.
    intros _ _. split; [eexists; reflexivity | reflexivity].
  - match goal with |- context [zw_Write ?a ?b] => destruct (zw_Write a b) as [[x|] o1] end;
      [exact I|]. psimpl. splits; auto; try lia; try congruence.
Qed.

Lemma close_chunk_offsets (ms eof : bool) (st : pstate) :
  match cchunk ms eof st with
  | inr _ => True
  | inl st' =>
      startOffset st' = startOffset st /\ payloadDigester st' = payloadDigester st /\
      if (ms || eof) && (0 <? startOffset st) then
        (exists ob, ps_out st' = zw_Reset ob /\ lastOffset st' = dest_Count ob) /\
        (0 < sub64 (WrittenOut (rcReader st)) (lastChunkOffset st) ->
         exists c, chunks st' = chunks st ++ [c] /\ c_Offset c = lastOffset st) /\
        (sub64 (WrittenOut (rcReader st)) (lastChunkOffset st) <= 0 ->
         chunks st' = chunks st)
      else st' = st
  end.
Proof.
  unfold close_chunk.
  destruct ((ms || eof) && (0 <? startOffset st)); [|auto].
  destruct (restart (ps_out st)) as [[off [x|]] o] eqn:Hrs; [exact I|].
  psimpl. destruct (restart_result _ _ _ Hrs) as (ob & -> & ->).
  splits; auto.
  - exists ob. auto.
  - intros Hpos. destruct (Z.ltb_spec 0 (sub64 (WrittenOut (rcReader st)) (lastChunkOffset st)));
      [|lia]. eexists. split; reflexivity.
  - intros Hle. destruct (Z.ltb_spec 0 (sub64 (WrittenOut (rcReader st)) (lastChunkOffset st)));
      [lia | reflexivity].
Qed.

Lemma payload_body_offsets (p : list byte) (o : Out) (st : pstate)
  (done : list (bool * list byte)) (r : flow Out pstate) :
  inv p st done -> (forall o, positive o) -> offs o st ->
  pbody st = Some r ->
  match r with
  | Next st' => offs o st'
  | Break st' =>
      offs o st' /\
      (0 < startOffset st' ->
       exists ob, ps_out st' = zw_Reset ob /\ lastOffset st' = dest_Count ob)
  | Stop _ _ => True
  end.
Proof.
  intros (Hok & Hb & Hp & Hw & Hbytes & Hlast & Hm & Hne & Herr & Hck) Hposv
         (Hso0 & Hzero & Hposd).
  destruct (Read_view Roll OnSplitWithBits (length (ps_buf st)) (view_of (rcReader st)))
    as [[[[ms d] eof] il] v'] eqn:Hv.
  destruct (Read_view_spec (ps_buf st) (rcReader st) _ _ _ _ _ Hok Hb Hv)
    as (b' & rc' & HR & Hfirst & Hlen & Hok' & Hview & Hil & Hw' & Hle).
  unfold payload_body. rewrite HR. cbn [obind]. psimpl.
  replace (match (if eof then Some EOF else None) with
           | Some e => negb (is_EOF e) | None => false end) with false
    by (destruct eof; reflexivity).
  replace (match (if eof then Some EOF else None) with
           | Some e => is_EOF e | None => false end) with eof
    by (destruct eof; reflexivity).
  cbv iota.
  set (st1 := {| ps_out := ps_out st; ps_err := ps_err st; ps_buf := b';
                 startOffset := startOffset st; lastOffset := lastOffset st;
                 lastChunkOffset := lastChunkOffset st; checksum := checksum st;
                 chunks := chunks st; payloadDigester := payloadDigester st;
                 chunkDigester := chunkDigester st; rcReader := rc' |}).
  pose proof (write_payload_spec d st1 Herr Hfirst) as Hwp.
  pose proof (write_payload_offsets (Z.of_nat (length d)) st1) as Hwo.
  destruct (wpayload (Z.of_nat (length d)) st1) as [st2|[e1 o1]];
    [|intros H; injection H as <-; exact I].
  destruct Hwp as (Hrc2 & _ & Hchunks2 & Hlast2 & _ & _ & Hall2 & _ & _ & _ & _).
  destruct Hwo as (Hw_nil & Hw_first & Hw_keep).
  pose proof (close_chunk_offsets ms eof st2) as Hco.
  destruct (cchunk ms eof st2) as [st3|[e2 o2]];
    [|intros H; injection H as <-; exact I].
  destruct Hco as (Hso3 & Hall3 & Hco).
  subst st1. psimpl_all.
  (* the state after the write *)
  assert (H2 : offs o st2).
  { destruct d as [|c t].
    - rewrite (Hw_nil ltac:(cbn; lia)). unfold ps_offsets. psimpl. auto.
    - assert (Hd : 0 < Z.of_nat (length (c :: t))) by (cbn [length]; lia).
      assert (Hpd : payloadDigester st2 <> []).
      { rewrite Hall2. intros H. apply app_eq_nil in H. destruct H; discriminate. }
      destruct (Z.eq_dec (startOffset st) 0) as [H0|H0].
      + destruct (Hzero H0) as (Ho & Hpd0 & Hc0).
        destruct (Hw_first Hd H0) as ((oa & Hrs) & Hlo). rewrite Ho in Hrs.
        pose proof (Hposv o _ _ Hrs) as Hpos.
        unfold ps_offsets. split; [lia|]. split; [lia|]. intros _. splits.
        * exact Hpd.
        * exists oa. exact Hrs.
        * intros _. exact Hlo.
        * intros c0 cs Hc. rewrite Hchunks2, Hc0 in Hc. discriminate.
      + destruct (Hw_keep H0) as (Hs & Hl).
        destruct (Hposd ltac:(lia)) as (_ & Hrs & Hnil & Hhd).
        unfold ps_offsets. rewrite Hs, Hl, Hchunks2.
        split; [lia|]. split; [lia|]. intros _. splits; auto. }
  (* the state after the chunk is closed *)
  assert (H3 : offs o st3 /\
               (eof = true -> 0 < startOffset st3 ->
                exists ob, ps_out st3 = zw_Reset ob /\ lastOffset st3 = dest_Count ob)).
  { destruct H2 as (Ha2 & Hb2 & Hc2).
    destruct (Z.ltb_spec 0 (startOffset st2)) as [Hpos2|Hnpos2].
    2:{ rewrite andb_false_r in Hco. subst st3. split; [unfold ps_offsets; auto|]. lia. }
    rewrite andb_true_r in Hco.
    destruct (ms || eof) eqn:Hfire.
    2:{ subst st3. split; [unfold ps_offsets; auto|].
        intros ->. rewrite orb_true_r in Hfire. discriminate. }
    destruct Hco as (Hob & Happ & Hkeep).
    split; [|intros _ _; exact Hob].
    destruct (Hc2 Hpos2) as (Hpd & Hrs & Hnil & Hhd).
    assert (Hsize : chunks st2 = [] ->
                    0 < sub64 (WrittenOut (rcReader st2)) (lastChunkOffset st2)).
    { intros Hc. rewrite Hchunks2 in Hc.
      assert (Hdone : done = []) by (apply (chunks_match_nil 0 done (chunks st)); assumption).
      rewrite Hrc2, Hlast2, Hlast, Hdone. cbn [chunk_bytes map concat length Z.of_nat].
      destruct Hok' as (_ & _ & Hph' & Hw0' & Hmax' & _).
      rewrite sub64_small by (unfold max_int64 in *; lia).
      rewrite Hw', Hw, <- Nat2Z.inj_add, <- length_app, <- Hall2.
      destruct (payloadDigester st2); [congruence | cbn [length]; lia]. }
    unfold ps_offsets. rewrite Hso3, Hall3.
    split; [lia|]. split; [lia|]. intros _. splits; auto.
    - intros Hc3.
      destruct (chunks st2) as [|c0 cs] eqn:Hcs.
      + destruct (Happ (Hsize eq_refl)) as (c & Hc & _). rewrite Hc in Hc3. discriminate.
      + destruct (Z.ltb_spec 0 (sub64 (WrittenOut (rcReader st2)) (lastChunkOffset st2)))
          as [Hs|Hs].
        * destruct (Happ Hs) as (c & Hc & _). rewrite Hc in Hc3. discriminate.
        * rewrite (Hkeep Hs) in Hc3. discriminate.
    - intros c cs Hc3.
      destruct (chunks st2) as [|c0 cs0] eqn:Hcs.
      + destruct (Happ (Hsize eq_refl)) as (c' & Hc & Hoff). rewrite Hc in Hc3.
        injection Hc3 as <- _. rewrite Hoff. now apply Hnil.
      + destruct (Z.ltb_spec 0 (sub64 (WrittenOut (rcReader st2)) (lastChunkOffset st2)))
          as [Hs|Hs].
        * destruct (Happ Hs) as (c' & Hc & _). rewrite Hc in Hc3.
          injection Hc3 as <- _. exact (Hhd c0 cs0 eq_refl).
        * rewrite (Hkeep Hs) in Hc3. injection Hc3 as <- _. exact (Hhd c0 cs0 eq_refl). }
  destruct H3 as [H3 Hend].
  destruct eof.
  - destruct (0 <? startOffset st3); intros H; injection H as <-; psimpl.
    + split; [exact H3 | exact (Hend eq_refl)].
    + split; [exact H3 | exact (Hend eq_refl)].
  - intros H. injection H as <-. exact H3.
Qed.

Lemma payload_loop_offsets (p : list byte) (o : Out) (fuel : nat) :
  forall (st st' : pstate) done,
  inv p st done -> (forall o, positive o) -> offs o st ->
  ploop fuel st = Some (inl st') ->
  offs o st' /\
  (0 < startOffset st' ->
   exists ob, ps_out st' = zw_Reset ob /\ lastOffset st' = dest_Count ob).
Proof.
  induction fuel as [|fuel IH]; intros st st' done Hinv Hposv Hoffs H; [discriminate|].
  destruct (payload_body_step p st done Hinv) as (r & Hbody & Hr).
  pose proof (payload_body_offsets p o st done r Hinv Hposv Hoffs Hbody) as Ho.
  cbn [payload_loop] in H. rewrite Hbody in H. cbn [obind] in H.
  destruct r as [st1|st1|g o1]; [| |discriminate].
  - destruct Hr as (done' & Hinv' & _). exact (IH st1 st' done' Hinv' Hposv Ho H).
  - injection H as <-. exact Ho.
Qed.

(** X16. For every entry with a non-empty payload that ends with
    [io.EOF], when each restart of the encoder reports a positive
    offset: processing the entry returns; it fails only with an error
    of the encoder or of the type lookup; and when it succeeds the
    compressed offsets of the primary record are frame boundaries of
    the destination. [Offset] is what the first restart reports, on the
    encoder as the write of the header bytes left it: the frame that
    holds the header is closed before the first payload byte is
    written. [EndOffset] is the count of the destination when the last
    frame of the payload was closed, and the encoder is handed on
    reset at that point, so the next header starts a frame of its
    own. *)
Theorem entry_offsets_are_frame_boundaries (fuel : nat) (ss : streamState Out)
  (e : tarEntry) :
  (forall o, positive o) ->
  te_fin e = EOF ->
  te_payload e <> [] ->
  Z.of_nat (length (te_payload e)) <= max_int64 ->
  (0 < length (ss_buf ss))%nat ->
  (2 * length (te_payload e) + 1 < fuel)%nat ->
  exists r,
    ebody fuel ss e = Some r /\
    (forall g o', r = inr (g, o') ->
       eerr g \/ g <> None /\ snd (GetType (Typeflag (te_hdr e))) = g) /\
    forall ss', r = inl ss' ->
    exists m rest oa ob,
      metadata ss' = metadata ss ++ m :: rest /\
      restart (snd (zw_Write (ss_out ss) (te_raw e))) = ((Offset m, None), oa) /\
      0 < Offset m /\
      EndOffset m = dest_Count ob /\
      ss_out ss' = zw_Reset ob.
Proof.
  intros Hposv Hfin Hne Hlen Hbuf Hfuel. unfold entry_body.
  destruct (zw_Write (ss_out ss) (te_raw e)) as [[x|] o] eqn:Hwrite.
  { fails_with ltac:(left; exact (write_error _ _ _ _ Hwrite)). }
  destruct (init_inv ss o e Hfin Hlen Hbuf) as (Hinv & Hcanon & Hmeasure).
  destruct (payload_loop_spec (te_payload e) fuel _ [] Hinv ltac:(lia)) as (r & Hloop & Hres).
  rewrite Hloop. cbn [obind].
  destruct r as [st|[e0 o0]]; [|fails_with ltac:(left; exact Hres)].
  destruct (GetType (Typeflag (te_hdr e))) as [typ [x|]] eqn:Hg;
    [fails_with ltac:(right; split; [discriminate | reflexivity])|].
  eexists. split; [reflexivity|]. split; [discriminate|].
  intros ss' Hss. injection Hss as <-. cbn [metadata ss_out snd].
  destruct Hres as (done' & _ & Hc).
  destruct (Hc _ Hposv Hcanon) as [_ Hso]. specialize (Hso Hne).
  assert (Hinit : offs o (init_payloadState NewRollSum ss o e)).
  { unfold ps_offsets, init_payloadState. psimpl.
    split; [lia|]. split; [auto | lia]. }
  destruct (payload_loop_offsets _ o fuel _ st [] Hinv Hposv Hinit Hloop)
    as ((_ & _ & Hpos) & Hend).
  destruct (Hpos Hso) as (_ & (oa & Hrs) & Hnil & Hhd).
  destruct (Hend Hso) as (ob & Hout & Hlast).
  set (xattrs := map (fun kv => (fst kv, base64_EncodeToString (snd kv)))
                     (hdr_Xattrs (te_hdr e))).
  destruct (chunks st) as [|c0 [|c1 cs]] eqn:Hcs.
  - rewrite make_entries_few by (rewrite Hcs; cbn; lia).
    exists (primary_entry typ (te_hdr e) xattrs st), [], oa, ob. cbn. auto.
  - rewrite make_entries_few by (rewrite Hcs; cbn; lia).
    exists (primary_entry typ (te_hdr e) xattrs st), [], oa, ob. cbn. auto.
  - rewrite (make_entries_many typ (te_hdr e) xattrs st c0 c1 cs Hcs).
    do 2 eexists. exists oa, ob. split; [reflexivity|].
    cbn [Offset EndOffset backfill primary_entry].
    rewrite (Hhd c0 (c1 :: cs) eq_refl). auto.
Qed.

(** ** A payload that is one hole *)

Lemma payload_chunks_zeros (L : nat) :
  1024 <= Z.of_nat L ->
  pchunks (repeat x00 L) = [(true, repeat x00 L)].
Proof.
  intros HL. unfold payload_chunks.
  replace (scan holesThreshold 0 (repeat x00 L))
    with (scan holesThreshold 0 (repeat x00 L ++ [])) by now rewrite app_nil_r.
  rewrite scan_zeros. cbn [scan].
  rewrite flush_hole by (rewrite holesThreshold_eq; lia).
  cbn [cut one_chunk app]. rewrite Z.add_0_l, Nat2Z.id. reflexivity.
Qed.

(** X17. An entry whose whole payload is a run of at least 1024 zero
    bytes (and ends with [io.EOF]), when each restart of the encoder
    reports a positive offset: the payload is one chunk of zeros, so,
    when processing succeeds, the entry has exactly one record, the
    primary one, with the digest of the payload and a positive
    [Offset]; since the chunk fields are written only when there is
    more than one chunk, the record does not say that the payload is a
    hole: its [ChunkType] is empty and its [ChunkSize] is 0. *)
Theorem all_zero_payload_one_untyped_record (fuel : nat) (ss : streamState Out)
  (e : tarEntry) (L : nat) :
  (forall o, positive o) ->
  te_fin e = EOF ->
  te_payload e = repeat x00 L ->
  1024 <= Z.of_nat L <= max_int64 ->
  (0 < length (ss_buf ss))%nat ->
  (2 * L + 1 < fuel)%nat ->
  exists r,
    ebody fuel ss e = Some r /\
    (forall g o', r = inr (g, o') ->
       eerr g \/ g <> None /\ snd (GetType (Typeflag (te_hdr e))) = g) /\
    forall ss', r = inl ss' ->
    exists m,
      metadata ss' = metadata ss ++ [m] /\
      Type_ m = fst (GetType (Typeflag (te_hdr e))) /\
      Digest m = digest_String (repeat x00 L) /\
      0 < Offset m /\
      ChunkType m = String.EmptyString /\ ChunkSize m = 0 /\
      ChunkDigest m = String.EmptyString.
Proof.
  intros Hposv Hfin Hp HL Hbuf Hfuel.
  assert (Hlen : Z.of_nat (length (te_payload e)) <= max_int64)
    by (rewrite Hp, repeat_length; lia).
  assert (Hne : te_payload e <> []).
  { rewrite Hp. destruct L; [cbn in HL; lia | discriminate]. }
  unfold entry_body.
  destruct (zw_Write (ss_out ss) (te_raw e)) as [[x|] o] eqn:Hwrite.
  { fails_with ltac:(left; exact (write_error _ _ _ _ Hwrite)). }
  destruct (init_inv ss o e Hfin Hlen Hbuf) as (Hinv & Hcanon & Hmeasure).
  destruct (payload_loop_spec (te_payload e) fuel _ [] Hinv
              ltac:(rewrite Hmeasure, Hp, repeat_length; lia)) as (r & Hloop & Hres).
  rewrite Hloop. cbn [obind].
  destruct r as [st|[e0 o0]]; [|fails_with ltac:(left; exact Hres)].
  destruct (GetType (Typeflag (te_hdr e))) as [typ [x|]] eqn:Hg;
    [fails_with ltac:(right; split; [discriminate | reflexivity])|].
  eexists. split; [reflexivity|]. split; [discriminate|].
  intros ss' Hss. injection Hss as <-. cbn [metadata fst].
  destruct Hres as (done' & (Hm & Hpos & _) & Hc).
  destruct (Hc _ Hposv Hcanon) as [-> Hso]. specialize (Hso Hne).
  destruct (Hpos Hso) as [Hck _].
  rewrite Hp, payload_chunks_zeros in Hm by lia.
  destruct (chunks st) as [|c0 [|c1 cs]] eqn:Hcs;
    [destruct Hm | | destruct Hm as [_ []]].
  rewrite make_entries_few by (rewrite Hcs; cbn; lia).
  eexists. split; [reflexivity|]. cbn. rewrite Hck, Hp. auto 10.
Qed.

(** ** The header fields of the primary record *)

(** X18. Whenever processing an entry succeeds, whatever its payload:
    the records of the entry are appended to the metadata, the first
    one is the primary record, and it carries the fields of the
    archive header unchanged (name, link name, mode, size, owner,
    times, device numbers), the type that [GetType] gives for the type
    flag, and the extended attributes with their values encoded in
    base64; writing the chunk fields onto it does not touch them. The
    records after it are of the chunk type and carry the name only. *)
Theorem primary_record_carries_header (fuel : nat) (ss ss' : streamState Out)
  (e : tarEntry) :
  ebody fuel ss e = Some (inl ss') ->
  exists m rest,
    metadata ss' = metadata ss ++ m :: rest /\
    GetType (Typeflag (te_hdr e)) = (Type_ m, None) /\
    Name m = hdr_Name (te_hdr e) /\ Linkname m = hdr_Linkname (te_hdr e) /\
    Mode m = hdr_Mode (te_hdr e) /\ Size m = hdr_Size (te_hdr e) /\
    UID m = hdr_Uid (te_hdr e) /\ GID m = hdr_Gid (te_hdr e) /\
    ModTime m = Some (hdr_ModTime (te_hdr e)) /\
    AccessTime m = Some (hdr_AccessTime (te_hdr e)) /\
    ChangeTime m = Some (hdr_ChangeTime (te_hdr e)) /\
    Devmajor m = hdr_Devmajor (te_hdr e) /\ Devminor m = hdr_Devminor (te_hdr e) /\
    Xattrs m =
      map (fun kv => (fst kv, base64_EncodeToString (snd kv))) (hdr_Xattrs (te_hdr e)) /\
    Forall (fun x => Type_ x = TypeChunk /\ Name x = hdr_Name (te_hdr e) /\
                     Size x = 0 /\ Xattrs x = [] /\ Digest x = String.EmptyString) rest.
Proof.
  unfold entry_body.
  destruct (zw_Write (ss_out ss) (te_raw e)) as [[x|] o]; [discriminate|].
  destruct (ploop fuel (init_payloadState NewRollSum ss o e)) as [[st|a]|];
    cbn [obind]; try discriminate.
  destruct (GetType (Typeflag (te_hdr e))) as [typ [x|]]; [discriminate|].
  intros H. injection H as <-. cbn [metadata].
  set (xattrs := map (fun kv => (fst kv, base64_EncodeToString (snd kv)))
                     (hdr_Xattrs (te_hdr e))).
  destruct (chunks st) as [|c0 [|c1 cs]] eqn:Hcs.
  - rewrite make_entries_few by (rewrite Hcs; cbn; lia).
    do 2 eexists. split; [reflexivity|]. cbn. splits; auto.
  - rewrite make_entries_few by (rewrite Hcs; cbn; lia).
    do 2 eexists. split; [reflexivity|]. cbn. splits; auto.
  - rewrite (make_entries_many typ (te_hdr e) xattrs st c0 c1 cs Hcs).
    do 2 eexists. split; [reflexivity|]. cbn -[map]. splits; auto.
    apply Forall_map, Forall_forall. intros c _. cbn. auto.
Qed.

(** ** The bytes that reach the encoder *)

Lemma payload_body_digester (p : list byte) (st : pstate)
  (done : list (bool * list byte)) (r : flow Out pstate) :
  inv p st done ->
  pbody st = Some r ->
  match r with
  | Break st' => payloadDigester st' = p
  | _ => True
  end.
Proof.
  intros (Hok & Hb & Hp & Hw & Hbytes & Hlast & Hm & Hne & Herr & Hck).
  destruct (Read_view Roll OnSplitWithBits (length (ps_buf st)) (view_of (rcReader st)))
    as [[[[ms d] eof] il] v'] eqn:Hv.
  destruct (Read_view_spec (ps_buf st) (rcReader st) _ _ _ _ _ Hok Hb Hv)
    as (b' & rc' & HR & Hfirst & Hlen & Hok' & Hview & Hil & Hw' & Hle).
  destruct (Read_view_chunks _ _ (chunkDigester st) _ _ _ _ _
              (rc_ok_hole _ Hok) (rc_ok_closed _ Hok) (rc_ok_events _ Hok) Hv)
    as [_ Heof].
  pose proof (Read_view_flat _ _ _ _ _ _ _ (rc_ok_hole _ Hok) Hv) as Hflat.
  unfold payload_body. rewrite HR. cbn [obind]. psimpl.
  replace (match (if eof then Some EOF else None) with
           | Some e => negb (is_EOF e) | None => false end) with false
    by (destruct eof; reflexivity).
  replace (match (if eof then Some EOF else None) with
           | Some e => is_EOF e | None => false end) with eof
    by (destruct eof; reflexivity).
  cbv iota.
  set (st1 := {| ps_out := ps_out st; ps_err := ps_err st; ps_buf := b';
                 startOffset := startOffset st; lastOffset := lastOffset st;
                 lastChunkOffset := lastChunkOffset st; checksum := checksum st;
                 chunks := chunks st; payloadDigester := payloadDigester st;
                 chunkDigester := chunkDigester st; rcReader := rc' |}).
  pose proof (write_payload_spec d st1 Herr Hfirst) as Hwp.
  destruct (wpayload (Z.of_nat (length d)) st1) as [st2|[e1 o1]];
    [|intros H; injection H as <-; exact I].
  destruct Hwp as (_ & _ & _ & _ & _ & _ & Hall2 & _).
  pose proof (close_chunk_offsets ms eof st2) as Hco.
  destruct (cchunk ms eof st2) as [st3|[e2 o2]];
    [|intros H; injection H as <-; exact I].
  destruct Hco as (_ & Hall3 & _).
  subst st1. psimpl_all.
  destruct eof; [|intros H; injection H as <-; exact I].
  destruct (Heof eq_refl) as (-> & _ & Hh' & Hevs' & _).
  cbn [view_of v_hole v_evs] in Hflat, Hp.
  rewrite Hflat, Hh', Hevs' in Hp. cbn in Hp. rewrite app_nil_r in Hp, Hall2.
  destruct (0 <? startOffset st3); intros H; injection H as <-; psimpl; congruence.
Qed.

Lemma payload_loop_digester (p : list byte) (fuel : nat) :
  forall (st st' : pstate) done,
  inv p st done ->
  ploop fuel st = Some (inl st') ->
  payloadDigester st' = p.
Proof.
  induction fuel as [|fuel IH]; intros st st' done Hinv H; [discriminate|].
  destruct (payload_body_step p st done Hinv) as (r & Hbody & Hr).
  pose proof (payload_body_digester p st done r Hinv Hbody) as Hd.
  cbn [payload_loop] in H. rewrite Hbody in H. cbn [obind] in H.
  destruct r as [st1|st1|g o1]; [| |discriminate].
  - destruct Hr as (done' & Hinv' & _). exact (IH st1 st' done' Hinv' H).
  - injection H as <-. exact Hd.
Qed.

Section EncoderLog.

(** What the encoder has been given so far, for an encoder of which
    this can be told: a write that succeeds adds its bytes, and closing,
    flushing and resetting add nothing. *)
Variable log : Out -> list byte.
Hypothesis log_Write :
  forall o p o', zw_Write o p = (None, o') -> log o' = log o ++ p.
Hypothesis log_Close : forall o o', zw_Close o = (None, o') -> log o' = log o.
Hypothesis log_Flush : forall o o', zw_Flush o = (None, o') -> log o' = log o.
Hypothesis log_Reset : forall o, log (zw_Reset o) = log o.

Lemma restart_log (o : Out) (off : Z) (o' : Out) :
  restart o = ((off, None), o') -> log o' = log o.
Proof.
  unfold restartCompression.
  destruct (zw_Close o) as [[x|] o1] eqn:Hc; [discriminate|].
  destruct (zw_Flush o1) as [[x|] o2] eqn:Hf; [discriminate|].
  intros H. injection H as _ <-.
  now rewrite log_Reset, (log_Flush _ _ Hf), (log_Close _ _ Hc).
Qed.

Lemma write_payload_log (read : Z) (st : pstate) :
  match wpayload read st with
  | inr _ => True
  | inl st' =>
      exists w,
        log (ps_out st') = log (ps_out st) ++ w /\
        payloadDigester st' = payloadDigester st ++ w
  end.
Proof.
  unfold write_payload.
  destruct (0 <? read); [|exists []; now rewrite !app_nil_r].
  destruct (startOffset st =? 0).
  - destruct (restart (ps_out st)) as [[off [x|]] o] eqn:Hrs; psimpl; [exact I|].
    match goal with |- context [zw_Write ?a ?b] =>
      destruct (zw_Write a b) as [[x|] o1] eqn:Hw end; [exact I|].
    psimpl. eexists. split; [|reflexivity].
    now rewrite (log_Write _ _ _ Hw), (restart_log _ _ _ Hrs).
  - match goal with |- context [zw_Write ?a ?b] =>
      destruct (zw_Write a b) as [[x|] o1] eqn:Hw end; [exact I|].
    psimpl. eexists. split; [|reflexivity]. exact (log_Write _ _ _ Hw).
Qed.

Lemma close_chunk_log (ms eof : bool) (st : pstate) :
  match cchunk ms eof st with
  | inr _ => True
  | inl st' =>
      log (ps_out st') = log (ps_out st) /\ payloadDigester st' = payloadDigester st
  end.
Proof.
  unfold close_chunk. destruct ((ms || eof) && (0 <? startOffset st)); [|auto].
  destruct (restart (ps_out st)) as [[off [x|]] o] eqn:Hrs; [exact I|].
  psimpl. split; [exact (restart_log _ _ _ Hrs) | reflexivity].
Qed.

Lemma payload_loop_log (fuel : nat) :
  forall st st' : pstate,
  ploop fuel st = Some (inl st') ->
  exists w,
    log (ps_out st') = log (ps_out st) ++ w /\
    payloadDigester st' = payloadDigester st ++ w.
Proof.
  induction fuel as [|fuel IH]; intros st st' H; [discriminate|].
  cbn [payload_loop] in H. unfold payload_body in H.
  destruct (Read Roll OnSplitWithBits (ps_buf st) (rcReader st))
    as [[[[[ms n] errRead] b] rc]|]; [|discriminate].
  cbn [obind] in H. psimpl_all.
  destruct (match errRead with Some e => negb (is_EOF e) | None => false end);
    [discriminate|].
  match type of H with context [wpayload ?r ?s] =>
    pose proof (write_payload_log r s) as Hw; destruct (wpayload r s) as [st1|[g1 o1]]
  end; [|discriminate].
  match type of H with context [cchunk ?a ?c ?s] =>
    pose proof (close_chunk_log a c s) as Hc; destruct (cchunk a c s) as [st2|[g2 o2]]
  end; [|discriminate].
  psimpl_all. destruct Hw as (w & Hw1 & Hw2). destruct Hc as (Hc1 & Hc2).
  destruct (match errRead with Some e => is_EOF e | None => false end).
  - exists w. destruct (0 <? startOffset st2); injection H as <-; psimpl; split; congruence.
  - cbn [obind] in H. destruct (IH _ _ H) as (w' & H1 & H2).
    exists (w ++ w'). rewrite H1, H2, Hc1, Hc2, Hw1, Hw2, !app_assoc. auto.
Qed.

Lemma stream_loop_log (fuel : nat) (tend : error) (es : list tarEntry) :
  forall ss ss',
  Forall (fits fuel) es -> (0 < length (ss_buf ss))%nat ->
  sloop fuel tend es ss = Some (inl ss') ->
  log (ss_out ss') =
    log (ss_out ss) ++ concat (map (fun e => te_raw e ++ te_payload e) es).
Proof.
  induction es as [|e es IH]; intros ss ss' Hes Hbuf H; cbn [stream_loop] in H.
  - destruct (is_EOF tend); [|discriminate]. injection H as <-.
    cbn. now rewrite app_nil_r.
  - pose proof (Forall_inv Hes) as (Hfin & Hlen & Hfuel). apply Forall_inv_tail in Hes.
    unfold entry_body in H.
    destruct (zw_Write (ss_out ss) (te_raw e)) as [[x|] o] eqn:Hwrite; [discriminate|].
    destruct (init_inv ss o e Hfin Hlen Hbuf) as (Hinv & _ & _).
    destruct (ploop fuel (init_payloadState NewRollSum ss o e)) as [[st|[g o1]]|] eqn:Hloop;
      cbn [obind] in H; try discriminate.
    destruct (GetType (Typeflag (te_hdr e))) as [typ [x|]]; [discriminate|].
    destruct (payload_loop_log _ _ _ Hloop) as (w & Hl & Hd).
    rewrite (payload_loop_digester _ _ _ _ _ Hinv Hloop) in Hd. cbn in Hd, Hl. subst w.
    apply IH in H; [|exact Hes|].
    + rewrite H. cbn [ss_out map concat].
      rewrite Hl, (log_Write _ _ _ Hwrite), <- !app_assoc. reflexivity.
    + cbn [ss_buf]. rewrite (payload_loop_buf _ _ _ Hloop). exact Hbuf.
Qed.

(** X19. For every archive whose entries have payloads that end with
    [io.EOF] and whose reader ends with [io.EOF], and every encoder of
    which it can be told what it was given: when
    [writeZstdChunkedStream] gets as far as the manifest, the bytes it
    has handed to the encoder are, in this order, for each entry the
    raw bytes of its header and the bytes of its payload, holes
    written out as their zero bytes, and at the end the raw bytes that
    close the archive. Nothing else is written to the encoder and
    nothing is left out: the frames decode to the archive that was
    read. Otherwise the function returns an error that is not nil. *)
Theorem encoder_receives_the_archive (fuel : nat) (destFile : Out)
  (outMetadata : list (string * string)) (reader : tarReader) (level : Z) :
  tr_end reader = EOF ->
  Forall (fits fuel) (tr_entries reader) ->
  exists res,
    wstream fuel destFile outMetadata reader level = Some res /\
    ((exists o0 o md,
        ZstdWriterWithLevel destFile level = (None, o0) /\
        res = WriteZstdChunkedManifest o outMetadata (dest_Count o mod 2 ^ 64) md level /\
        log o =
          log o0 ++
          concat (map (fun e => te_raw e ++ te_payload e) (tr_entries reader)) ++
          tr_trailer reader) \/
     fst res <> None).
Proof.
  intros Hend Hes. unfold writeZstdChunkedStream.
  destruct (ZstdWriterWithLevel destFile level) as [[x|] o0] eqn:Hnew.
  { eexists. split; [reflexivity|]. right. discriminate. }
  assert (Hbuf : (0 < length (ss_buf {| ss_out := o0; ss_buf := repeat x00 4096;
                                        metadata := [] |}))%nat).
  { cbn [ss_buf]. rewrite repeat_length. apply Nat.lt_0_succ. }
  destruct (stream_loop_groups fuel (tr_end reader) (tr_entries reader) _ Hes Hbuf)
    as (r & Hr & Hres).
  rewrite Hr. cbn [obind].
  destruct r as [ss|[g o]].
  - pose proof (stream_loop_log _ _ _ _ _ Hes Hbuf Hr) as Hlog. cbn [ss_out] in Hlog.
    destruct (zw_Write (ss_out ss) (tr_trailer reader)) as [[x|] o1] eqn:Hw.
    { eexists. split; [reflexivity|]. right. discriminate. }
    destruct (zw_Flush o1) as [[x|] o2] eqn:Hf.
    { eexists. split; [reflexivity|]. right. discriminate. }
    destruct (zw_Close o2) as [[x|] o3] eqn:Hc.
    { eexists. split; [reflexivity|]. right. discriminate. }
    eexists. split; [reflexivity|]. left. exists o0, o3, (metadata ss).
    split; [reflexivity|]. split; [reflexivity|].
    rewrite (log_Close _ _ Hc), (log_Flush _ _ Hf), (log_Write _ _ _ Hw), Hlog.
    now rewrite <- app_assoc.
  - eexists. split; [reflexivity|]. right. cbn [fst].
    destruct Hres as [H|[[Hn _]|[_ Ht]]].
    + destruct H as (x & -> & _). discriminate.
    + exact Hn.
    + rewrite Hend in Ht. discriminate.
Qed.

End EncoderLog.

End Orchestration.

(** ** The chunk reader: end-of-stream, fidelity, determinism *)

Lemma Read_loop_closed (k : nat) :
  forall i b (rc : rollingChecksumReader RollSum) res b' rc',
  Read_loop Roll OnSplitWithBits k i b rc = Some (res, b', rc') ->
  closed rc = false -> closed rc' = true ->
  pendingHole rc' = pendingHole rc.
Proof.
  induction k as [|k IH]; intros i b rc res b' rc' H Hc Hc'; cbn [Read_loop] in H.
  - injection H as _ _ <-. congruence.
  - destruct (readByte (rc_reader rc)) as [[[[holeLen n] err] hf]|]; [|discriminate].
    cbn [obind] in H.
    cbn [rc_reader closed rollsum pendingHole WrittenOut IsLastChunkZeros] in H.
    destruct err as [e|].
    + destruct (is_EOF e).
      * destruct (i =? 0)%nat; injection H as _ _ <-; reflexivity.
      * injection H as _ _ <-. cbn in Hc'. congruence.
    + destruct (0 <? holeLen).
      * injection H as _ _ <-. cbn in Hc'. congruence.
      * destruct (OnSplitWithBits (Roll (rollsum rc) n) RollsumBits).
        -- injection H as _ _ <-. cbn in Hc'. congruence.
        -- apply IH in H; [exact H | exact Hc | exact Hc'].
Qed.

(** The call of [Read] that sets [closed] leaves no hole pending. *)
Lemma Read_sets_closed (b : list byte) (rc : rollingChecksumReader RollSum) res b' rc' :
  Read Roll OnSplitWithBits b rc = Some (res, b', rc') ->
  closed rc = false -> closed rc' = true ->
  pendingHole rc' <= 0.
Proof.
  unfold Read. cbn [rc_reader closed rollsum pendingHole WrittenOut IsLastChunkZeros].
  intros H Hc Hc'.
  destruct (Z.ltb_spec 0 (pendingHole rc)) as [Hpos|Hnpos].
  - injection H as _ _ <-. cbn in Hc'. congruence.
  - rewrite Hc in H.
    apply Read_loop_closed in H; [|reflexivity|exact Hc'].
    cbn [pendingHole] in H. lia.
Qed.

(** C10. Once the chunk reader has seen end-of-stream, that is its
    [closed] flag is set, every later call of [Read] with no hole
    pending returns [(false, 0, io.EOF)], whatever buffer it is given;
    it writes nothing to the buffer and touches neither the hole
    detector nor the source under it, so the flag stays set and the
    next call finds the same state: end-of-stream is sticky. *)
Theorem Read_eof_sticky (rc : rollingChecksumReader RollSum) (bufs : list (list byte)) :
  closed rc = true -> pendingHole rc <= 0 ->
  exists rc',
    Read_many Roll OnSplitWithBits bufs rc =
      Some (map (fun b => ((false, 0, Some EOF), b)) bufs, rc') /\
    rc_reader rc' = rc_reader rc /\ closed rc' = true /\
    pendingHole rc' = pendingHole rc /\ rollsum rc' = rollsum rc /\
    WrittenOut rc' = WrittenOut rc.
Proof.
  intros Hc Hph. revert rc Hc Hph.
  induction bufs as [|b bufs IH]; intros rc Hc Hph.
  - exists rc. cbn [Read_many map]. splits; auto.
  - cbn [Read_many map]. unfold Read.
    cbn [rc_reader closed rollsum pendingHole WrittenOut IsLastChunkZeros].
    destruct (Z.ltb_spec 0 (pendingHole rc)) as [Hpos|_]; [lia|].
    rewrite Hc. cbn [obind].
    destruct (IH {| rc_reader := rc_reader rc; closed := true; rollsum := rollsum rc;
                    pendingHole := pendingHole rc; WrittenOut := WrittenOut rc;
                    IsLastChunkZeros := false |} eq_refl Hph)
      as (rc' & Hmany & Hrest).
    rewrite Hmany. cbn [obind]. exists rc'. split; [reflexivity | exact Hrest].
Qed.

(** C4. For every payload with no run of zero bytes as long as the hole
    threshold, calling [Read] until it reports end-of-stream hands out
    slices whose concatenation is the payload, byte for byte, the zero
    bytes of its short runs included; every slice is literal data (no
    call goes through the path that hands out a hole). This holds for
    any buffer that is not empty, whatever it contains. *)
Theorem Read_reproduces_payload (p b : list byte) (fuel : nat) :
  runs_below holesThreshold 0 p = true ->
  Z.of_nat (length p) <= max_int64 ->
  (0 < length b)%nat ->
  (2 * length p + 1 < fuel)%nat ->
  exists calls,
    Read_all Roll OnSplitWithBits fuel b
      (newRollingChecksumReader NewRollSum (newHolesFinder p EOF)) = Some (calls, EOF) /\
    concat (map (fun c => snd (fst c)) calls) = p /\
    Forall (fun c => snd c = false) calls.
Proof.
  intros Hruns Hlen Hb Hfuel.
  destruct (Read_all_spec fuel b _ [] (newReader_ok p Hlen) Hb) as (calls & Hall & _ & Hcat & Hlit).
  { rewrite newReader_measure. exact Hfuel. }
  exists calls. split; [exact Hall|].
  cbn [newRollingChecksumReader pendingHole rc_reader] in Hcat, Hlit.
  change (remaining (newHolesFinder p EOF)) with (scan holesThreshold 0 p) in Hcat, Hlit.
  rewrite flat_scan in Hcat by lia.
  split; [exact Hcat|].
  apply Hlit; [reflexivity|].
  apply runs_below_scan; [rewrite holesThreshold_eq; lia | exact Hruns].
Qed.

(** C9. Chunking is a function of the payload bytes alone: two runs of
    the chunk reader over the same payload, with buffers of any
    (non-zero) lengths and contents, delimit the same chunks
    ([payload_chunks]): the same split positions, the same kinds and the
    same bytes in each chunk, hence the same checksum of each chunk
    under any digest. *)
Theorem chunking_deterministic (p b1 b2 : list byte) (fuel1 fuel2 : nat)
  (digest : list byte -> string) :
  Z.of_nat (length p) <= max_int64 ->
  (0 < length b1)%nat -> (0 < length b2)%nat ->
  (2 * length p + 1 < fuel1)%nat -> (2 * length p + 1 < fuel2)%nat ->
  exists calls1 calls2,
    Read_all Roll OnSplitWithBits fuel1 b1
      (newRollingChecksumReader NewRollSum (newHolesFinder p EOF)) = Some (calls1, EOF) /\
    Read_all Roll OnSplitWithBits fuel2 b2
      (newRollingChecksumReader NewRollSum (newHolesFinder p EOF)) = Some (calls2, EOF) /\
    group_chunks [] calls1 = payload_chunks NewRollSum Roll OnSplitWithBits p /\
    group_chunks [] calls2 = group_chunks [] calls1 /\
    map (fun k => (fst k, Z.of_nat (length (snd k)), digest (snd k))) (group_chunks [] calls2) =
    map (fun k => (fst k, Z.of_nat (length (snd k)), digest (snd k))) (group_chunks [] calls1).
Proof.
  intros Hlen Hb1 Hb2 Hf1 Hf2.
  destruct (Read_all_spec fuel1 b1 _ [] (newReader_ok p Hlen) Hb1) as (calls1 & Hall1 & Hg1 & _).
  { rewrite newReader_measure. exact Hf1. }
  destruct (Read_all_spec fuel2 b2 _ [] (newReader_ok p Hlen) Hb2) as (calls2 & Hall2 & Hg2 & _).
  { rewrite newReader_measure. exact Hf2. }
  exists calls1, calls2.
  rewrite Hg1, Hg2. splits; auto.
Qed.

(** * Further properties of the chunk reader *)

(** ** What a call returns, in any state *)

(** X5. In every state of the reader and for every buffer, [Read]
    returns, and the buffer keeps its length. With a nil error the
    count [n] is between 0 and [len(b)] and the bytes of the buffer
    from [n] on are untouched; with [io.EOF] the count is 0, nothing
    was written to the buffer and the reader is closed; with any other
    error the count is -1. [mustSplit] is never set together with an
    error. *)
Theorem Read_result_bounds (b : list byte) (rc : rollingChecksumReader RollSum) :
  exists ms n err b' rc',
    Read Roll OnSplitWithBits b rc = Some ((ms, n, err), b', rc') /\
    length b' = length b /\
    match err with
    | None =>
        0 <= n <= Z.of_nat (length b) /\
        skipn (Z.to_nat n) b' = skipn (Z.to_nat n) b
    | Some e =>
        ms = false /\
        if is_EOF e then n = 0 /\ b' = b /\ closed rc' = true else n = -1
    end.
Proof.
  unfold Read. cbn [rc_reader closed rollsum pendingHole WrittenOut IsLastChunkZeros].
  destruct (Z.ltb_spec 0 (pendingHole rc)) as [Hpos|Hnpos].
  - do 5 eexists. split; [reflexivity|].
    rewrite zero_fill_length. split; [reflexivity|].
    destruct (Z.ltb_spec (pendingHole rc) (Z.of_nat (length b))); split; try lia;
      apply (skipn_zero_fill _ 0).
  - destruct (closed rc) eqn:Hc.
    + do 5 eexists. split; [reflexivity|]. cbn. auto.
    + destruct (Read_loop_total (length b) 0 b
                  {| rc_reader := rc_reader rc; closed := false; rollsum := rollsum rc;
                     pendingHole := pendingHole rc; WrittenOut := WrittenOut rc;
                     IsLastChunkZeros := false |}) as ([[[[ms n] err] b'] rc'] & HR).
      exists ms, n, err, b', rc'. split; [exact HR|].
      destruct (Read_loop_shape (length b) 0 b _ _ _ _ _ _ eq_refl HR) as (Hlen & _ & Herr).
      split; [exact Hlen|].
      destruct err as [e|].
      * destruct Herr as [Hms Herr]. split; [exact Hms|].
        destruct (is_EOF e); [|exact Herr]. destruct Herr as (Hn & _ & Hb & Hcl). auto.
      * destruct Herr as [Hn Hskip]. split; [lia | exact Hskip].
Qed.

Lemma Read_loop_written (k : nat) :
  forall i b (rc : rollingChecksumReader RollSum) ms n err b' rc',
  (i + k = length b)%nat ->
  0 <= WrittenOut rc -> WrittenOut rc + Z.of_nat k <= max_int64 ->
  Read_loop Roll OnSplitWithBits k i b rc = Some ((ms, n, err), b', rc') ->
  match err with
  | None => WrittenOut rc' = WrittenOut rc + (n - Z.of_nat i)
  | Some e =>
      if is_EOF e then WrittenOut rc' = WrittenOut rc
      else WrittenOut rc <= WrittenOut rc' <= WrittenOut rc + Z.of_nat k
  end.
Proof.
  induction k as [|k IH]; intros i b rc ms n err b' rc' Hik Hw Hmax H.
  - cbn [Read_loop] in H. injection H as <- <- <- <- <-. lia.
  - cbn [Read_loop] in H.
    destruct (readByte (rc_reader rc)) as [[[[holeLen c] e] hf]|]; [|discriminate].
    cbn [obind] in H.
    cbn [rc_reader closed rollsum pendingHole WrittenOut IsLastChunkZeros] in H.
    destruct e as [e|].
    + destruct (is_EOF e) eqn:He.
      * destruct (i =? 0)%nat; injection H as <- <- <- <- <-; [rewrite He|]; cbn; lia.
      * injection H as <- <- <- <- <-. rewrite He. cbn. lia.
    + destruct (0 <? holeLen).
      * injection H as <- <- <- <- <-. cbn. lia.
      * destruct (OnSplitWithBits (Roll (rollsum rc) c) RollsumBits).
        -- injection H as <- <- <- <- <-. cbn [WrittenOut].
           rewrite add64_small by (unfold max_int64 in *; lia). lia.
        -- pose proof H as Hin. apply Read_loop_shape in Hin; [|rewrite upd_length; lia].
           apply IH in H; cbn [WrittenOut] in *;
             rewrite ?upd_length, ?add64_small by (unfold max_int64 in *; lia); try lia.
           rewrite add64_small in H by (unfold max_int64 in *; lia).
           destruct err as [e|]; [|lia].
           destruct (is_EOF e); [|lia].
           destruct Hin as (_ & _ & _ & _ & Hi & _). discriminate.
Qed.

(** X6. [WrittenOut] counts the bytes handed out. For every reader whose
    counter cannot overflow during the call: a call that returns [n]
    with a nil error adds exactly [n] to [WrittenOut], a call that
    returns [io.EOF] leaves it alone, and a call that returns another
    error (with [n = -1]) has counted the bytes it stored before the
    error, at most [len(b)]. *)
Theorem Read_counts_delivered_bytes (b : list byte) (rc : rollingChecksumReader RollSum)
  ms n err b' rc' :
  0 <= WrittenOut rc -> WrittenOut rc + Z.of_nat (length b) <= max_int64 ->
  Read Roll OnSplitWithBits b rc = Some ((ms, n, err), b', rc') ->
  match err with
  | None => WrittenOut rc' = WrittenOut rc + n
  | Some e =>
      if is_EOF e then WrittenOut rc' = WrittenOut rc
      else WrittenOut rc <= WrittenOut rc' <= WrittenOut rc + Z.of_nat (length b)
  end.
Proof.
  intros Hw Hmax. unfold Read.
  cbn [rc_reader closed rollsum pendingHole WrittenOut IsLastChunkZeros].
  destruct (Z.ltb_spec 0 (pendingHole rc)) as [Hpos|Hnpos].
  - intros H. injection H as <- <- <- <- <-. cbn [WrittenOut].
    apply add64_small.
    destruct (Z.ltb_spec (pendingHole rc) (Z.of_nat (length b))); unfold max_int64 in *; lia.
  - destruct (closed rc).
    + intros H. injection H as <- <- <- <- <-. reflexivity.
    + intros H.
      apply (Read_loop_written (length b) 0 b) in H; cbn [WrittenOut] in *; try lia.
      destruct err as [e|]; [exact H | lia].
Qed.

(** X7. A pending hole is handed out before anything else is read. For
    every reader with [pendingHole > 0] and every non-empty buffer: the
    call stores [min(pendingHole, len(b))] zero bytes at the start of
    the buffer and returns that count with a nil error; [mustSplit] is
    set exactly when the hole is used up by this call;
    [IsLastChunkZeros] is set; the hole left is shorter by the count;
    the detector, the checksum and the [closed] flag are as before. *)
Theorem Read_hands_out_pending_hole (b : list byte) (rc : rollingChecksumReader RollSum) :
  0 < pendingHole rc <= max_int64 -> (0 < length b)%nat ->
  let k := Z.min (pendingHole rc) (Z.of_nat (length b)) in
  exists b',
    Read Roll OnSplitWithBits b rc =
      Some ((pendingHole rc <=? Z.of_nat (length b), k, None), b',
            {| rc_reader := rc_reader rc; closed := closed rc; rollsum := rollsum rc;
               pendingHole := pendingHole rc - k;
               WrittenOut := add64 (WrittenOut rc) k;
               IsLastChunkZeros := true |}) /\
    0 < k /\
    firstn (Z.to_nat k) b' = repeat x00 (Z.to_nat k) /\
    skipn (Z.to_nat k) b' = skipn (Z.to_nat k) b /\
    length b' = length b.
Proof.
  intros Hph Hb k. unfold Read.
  cbn [rc_reader closed rollsum pendingHole WrittenOut IsLastChunkZeros].
  destruct (Z.ltb_spec 0 (pendingHole rc)) as [_|]; [|lia].
  assert (Hk : (if pendingHole rc <? Z.of_nat (length b)
                then pendingHole rc else Z.of_nat (length b)) = k).
  { unfold k. destruct (Z.ltb_spec (pendingHole rc) (Z.of_nat (length b))); lia. }
  rewrite Hk.
  rewrite sub64_small by (unfold max_int64 in *; lia).
  eexists. split.
  - do 3 f_equal. f_equal. f_equal.
    destruct (Z.eqb_spec (pendingHole rc - k) 0), (Z.leb_spec (pendingHole rc) (Z.of_nat (length b)));
      try reflexivity; lia.
  - split; [lia|]. split; [|split].
    + apply (firstn_zero_fill (Z.to_nat k) 0 b). cbn [Nat.add]. lia.
    + apply (skipn_zero_fill _ 0).
    + apply zero_fill_length.
Qed.

(** ** Reading a whole payload, holes included *)

Lemma Read_view_zeros (n : nat) (v : view RollSum) ms d eof il v' :
  Read_view Roll OnSplitWithBits n v = ((ms, d, eof, il), v') ->
  il = true -> exists k, d = repeat x00 k.
Proof.
  unfold Read_view. destruct (0 <? v_hole v).
  - intros H _. injection H as _ <- _ _ _. eexists. reflexivity.
  - destruct (v_closed v); [intros H; injection H as _ _ _ <- _; discriminate|].
    destruct (fill Roll OnSplitWithBits n (v_sum v) (v_evs v)) as [[[d0 o] r] evs].
    destruct o; intros H; injection H as _ _ _ <- _; discriminate.
Qed.

Lemma Read_all_zeros (fuel : nat) :
  forall b (rc : rollingChecksumReader RollSum) calls e,
  rc_ok rc -> (0 < length b)%nat ->
  Read_all Roll OnSplitWithBits fuel b rc = Some (calls, e) ->
  Forall (fun c => (length (snd (fst c)) <= length b)%nat /\
                   (snd c = true -> exists k, snd (fst c) = repeat x00 k)) calls.
Proof.
  induction fuel as [|fuel IH]; intros b rc calls e Hok Hb H; [discriminate|].
  destruct (Read_view Roll OnSplitWithBits (length b) (view_of rc))
    as [[[[ms d] eof] il] v'] eqn:Hv.
  destruct (Read_view_spec b rc _ _ _ _ _ Hok Hb Hv)
    as (b' & rc' & HR & Hfirst & Hlen & Hok' & Hview & Hil & Hw & Hle).
  cbn [Read_all] in H. rewrite HR in H. cbn [obind] in H.
  destruct eof.
  - injection H as <- _. constructor.
  - destruct (Read_all Roll OnSplitWithBits fuel b' rc') as [[calls' e']|] eqn:Hrest;
      [|discriminate].
    cbn [obind] in H. injection H as <- _.
    constructor.
    + cbn [fst snd]. rewrite Nat2Z.id, Hfirst, Hil. split; [exact Hle|].
      exact (Read_view_zeros _ _ _ _ _ _ _ Hv).
    + rewrite <- Hlen. apply (IH b' rc' calls' e' Hok'); [lia | exact Hrest].
Qed.

(** X8. For every payload that ends with [io.EOF], holes included, and
    any buffer that is not empty: calling [Read] until it reports the
    end hands out slices whose concatenation is the payload, byte for
    byte; no slice is longer than the buffer, and a slice handed out
    with [IsLastChunkZeros] set holds zero bytes only. *)
Theorem Read_reproduces_any_payload (p b : list byte) (fuel : nat) :
  Z.of_nat (length p) <= max_int64 ->
  (0 < length b)%nat ->
  (2 * length p + 1 < fuel)%nat ->
  exists calls,
    Read_all Roll OnSplitWithBits fuel b
      (newRollingChecksumReader NewRollSum (newHolesFinder p EOF)) = Some (calls, EOF) /\
    concat (map (fun c => snd (fst c)) calls) = p /\
    Forall (fun c => (length (snd (fst c)) <= length b)%nat /\
                     (snd c = true -> exists k, snd (fst c) = repeat x00 k)) calls.
Proof.
  intros Hlen Hb Hfuel.
  destruct (Read_all_spec fuel b _ [] (newReader_ok p Hlen) Hb) as (calls & Hall & _ & Hcat & _).
  { rewrite newReader_measure. exact Hfuel. }
  exists calls. split; [exact Hall|]. split.
  - cbn [newRollingChecksumReader pendingHole rc_reader] in Hcat.
    change (remaining (newHolesFinder p EOF)) with (scan holesThreshold 0 p) in Hcat.
    rewrite flat_scan in Hcat by lia. exact Hcat.
  - exact (Read_all_zeros fuel b _ calls EOF (newReader_ok p Hlen) Hb Hall).
Qed.

End Chunking.

(** ** The hole detector on a run of zero bytes *)

(** C5. For every input that contains a run of exactly [L] zero bytes
    (the byte before it, if any, and the byte after it, if any, are not
    zero) and every threshold [th >= 1]: calling [readByte] until the
    end of the input reports what it reports for the bytes before the
    run, then, for the run, a single hole of length [L] when
    [L >= th], and [L] literal zero bytes and no hole when [L < th],
    then what it reports for the bytes after the run. In particular a
    run of [th] bytes is a hole and a run of [th - 1] bytes is not. *)
Theorem readByte_zero_run (th : Z) (pre post : list byte) (L fuel : nat) :
  1 <= th ->
  is_zero (last pre x01) = false ->
  is_zero (hd x01 post) = false ->
  Z.of_nat (length (pre ++ repeat x00 L ++ post)) <= max_int64 ->
  (length (pre ++ repeat x00 L ++ post) < fuel)%nat ->
  exists before after,
    readByte_all fuel (holesFinder_on th pre EOF) = Some (before, EOF) /\
    readByte_all fuel (holesFinder_on th post EOF) = Some (after, EOF) /\
    readByte_all fuel (holesFinder_on th (pre ++ repeat x00 L ++ post) EOF) =
      Some (before ++
            (if th <=? Z.of_nat L then [Hole (Z.of_nat L)] else repeat (Lit x00) L) ++
            after, EOF).
Proof.
  intros Hth Hpre Hpost Hmax Hfuel.
  rewrite !length_app, repeat_length in *.
  exists (scan th 0 pre), (scan th 0 post).
  assert (Hlen : forall l, (length (scan th 0 l) <= length l)%nat).
  { intros l. pose proof (scan_length th l 0 ltac:(lia) Hth) as H.
    change (Z.to_nat 0) with O in H. lia. }
  splits.
  - rewrite (readByte_all_remaining fuel (holesFinder_on th pre EOF)).
    + reflexivity.
    + apply holesFinder_on_ok; [exact Hth | lia].
    + rewrite remaining_holesFinder_on. specialize (Hlen pre). lia.
  - rewrite (readByte_all_remaining fuel (holesFinder_on th post EOF)).
    + reflexivity.
    + apply holesFinder_on_ok; [exact Hth | lia].
    + rewrite remaining_holesFinder_on. specialize (Hlen post). lia.
  - rewrite (readByte_all_remaining fuel
               (holesFinder_on th (pre ++ repeat x00 L ++ post) EOF)).
    + rewrite remaining_holesFinder_on, scan_run by assumption. reflexivity.
    + apply holesFinder_on_ok; [exact Hth|].
      rewrite !length_app, repeat_length. lia.
    + rewrite remaining_holesFinder_on.
      specialize (Hlen (pre ++ repeat x00 L ++ post)).
      rewrite !length_app, repeat_length in Hlen. lia.
Qed.

(** ** The pipe-backed writer *)

(** The error of the orchestrator is handed out once: a [Write] that
    finds it in the channel returns it, and the [Close] that follows
    waits for the goroutine to close the channel and then returns nil. *)
Lemma Write_takes_the_error (e : error) (w : PipeWriter.world) (bs : list byte) :
  PipeWriter.tarSplitErr w =
    {| PipeWriter.ch_buf := [Some e]; PipeWriter.ch_closed := false |} ->
  exists w1,
    PipeWriter.Write bs w = PipeWriter.Returns (0, Some e) w1 /\
    PipeWriter.Close w1 = PipeWriter.Blocks /\
    exists w2, PipeWriter.Close (PipeWriter.bg_close w1) = PipeWriter.Returns None w2.
Proof.
  intros Hch. destruct w as [c p]. cbn in Hch. subst c.
  unfold PipeWriter.Write, PipeWriter.recv. cbn.
  eexists. split; [reflexivity|].
  unfold PipeWriter.Close, PipeWriter.recv. cbn.
  split; [reflexivity|]. eexists. reflexivity.
Qed.

(** C2 (as the code has it). When the orchestrator has completed with an
    error [e] that is still in the channel: [Close] returns [e] without
    waiting, having closed the write end of the pipe and emptied the
    channel. A [Write] after that [Close] returns at once as well, with
    zero bytes written, but not with [e]: it returns [io.ErrClosedPipe]
    as long as the goroutine has not closed the channel, and a nil error
    once it has. *)
Theorem Close_then_Write (e : error) (w : PipeWriter.world) (bs : list byte)
  (closed_by_then : bool) :
  PipeWriter.tarSplitErr w =
    {| PipeWriter.ch_buf := [Some e]; PipeWriter.ch_closed := false |} ->
  exists w1,
    PipeWriter.Close w = PipeWriter.Returns (Some e) w1 /\
    PipeWriter.ch_buf (PipeWriter.tarSplitErr w1) = [] /\
    PipeWriter.pipe_done (PipeWriter.tarSplitOut w1) = true /\
    exists w2,
      PipeWriter.Write bs (PipeWriter.bg_after closed_by_then w1) =
        PipeWriter.Returns
          (0, if closed_by_then then None else Some ErrClosedPipe) w2.
Proof.
  intros Hch. destruct w as [c [we re]]. cbn in Hch. subst c.
  unfold PipeWriter.Close, PipeWriter.recv. cbn.
  eexists. split; [reflexivity|]. cbn.
  split; [reflexivity|].
  split; [destruct we; reflexivity|].
  destruct closed_by_then; unfold PipeWriter.Write, PipeWriter.recv; cbn.
  - eexists. reflexivity.
  - unfold PipeWriter.pw_Write, PipeWriter.pipe_done, PipeWriter.writeCloseError. cbn.
    destruct we; cbn; eexists; reflexivity.
Qed.

(** * Further properties of the code *)

(** ** The hole detector: what it returns with an error *)

Ltac body_cases f :=
  let l := fresh "l" in let c := fresh "c" in
  destruct f as [[l ? ?] ? ? []]; destruct l as [|c l];
  unfold readByte_body; hsimpl;
  repeat match goal with
  | |- (if ?c then _ else _) = _ -> _ => destruct c eqn:?; hsimpl
  end.

Lemma readByte_body_continue (f f' : holesFinder) :
  readByte_body f = Continue f' ->
  fin (hf_reader f') = fin (hf_reader f) /\ hf_threshold f' = hf_threshold f.
Proof.
  body_cases f; intros H; try discriminate; injection H as <-; split; reflexivity.
Qed.

Lemma readByte_body_error (f f' : holesFinder) (h : Z) (b : byte) (e : error) :
  readByte_body f = Return (h, b, Some e) f' ->
  h = 0 /\ b = x00 /\ (e = EOF \/ e = fin (hf_reader f)) /\
  readByte_body f' = Return (0, x00, Some e) f'.
Proof.
  body_cases f; intros H; try discriminate;
    injection H as <- <- <- <-;
    (split; [reflexivity|]); (split; [reflexivity|]);
    (split; [auto|]);
    unfold readByte_body; hsimpl;
    repeat match goal with
    | H : ?c = _ |- context [if ?c then _ else _] => rewrite H; hsimpl
    end; reflexivity.
Qed.

Lemma readByte_loop_error (fuel : nat) :
  forall f f' h b e,
  readByte_loop fuel f = Some ((h, b, Some e), f') ->
  h = 0 /\ b = x00 /\ (e = EOF \/ e = fin (hf_reader f)) /\
  readByte_body f' = Return (0, x00, Some e) f'.
Proof.
  induction fuel as [|fuel IH]; intros f f' h b e H; [discriminate|].
  cbn [readByte_loop] in H.
  destruct (readByte_body f) as [g|r g] eqn:Hb.
  - destruct (readByte_body_continue _ _ Hb) as [Hfin _].
    rewrite <- Hfin. exact (IH _ _ _ _ _ H).
  - injection H as -> ->. exact (readByte_body_error _ _ _ _ _ Hb).
Qed.

(** X1. In every state of the detector, over any source: when
    [readByte] returns an error it returns no hole and a zero byte with
    it, and the error is [io.EOF] or the error of the source. The
    branches that return the error of [UnreadByte] are never taken,
    since the byte pushed back is the one just read. *)
Theorem readByte_error_is_the_sources (f f' : holesFinder) (h : Z) (b : byte) (e : error) :
  readByte f = Some ((h, b, Some e), f') ->
  h = 0 /\ b = x00 /\ (e = EOF \/ e = fin (hf_reader f)).
Proof.
  intros H. destruct (readByte_loop_error _ _ _ _ _ _ H) as (Hh & Hb & He & _).
  auto.
Qed.

(** ** The hole detector: a source that fails inside a hole *)

(** X4. A source that holds [L] zero bytes, [L] at or above the
    threshold, and then fails with an error other than [io.EOF] (an
    archive cut inside a hole): the first call of [readByte] reports
    the hole of length [L] with a nil error, and every later call
    reports a zero byte with a nil error. The error of the source is
    never reported, and neither is the end of the stream. *)
Theorem readByte_swallows_error_in_hole (th : Z) (L n : nat) (e : error) :
  is_EOF e = false ->
  1 <= th -> th <= Z.of_nat L -> Z.of_nat L <= max_int64 ->
  exists f',
    readByte_n (S n) (holesFinder_on th (repeat x00 L) e) =
      Some ((Z.of_nat L, x00, None) :: repeat (0, x00, None) n, f').
Proof.
  intros He Hth HL Hmax.
  destruct (hole_first_call th L e He Hth HL Hmax) as (lb' & Hfirst).
  eexists. cbn [readByte_n]. rewrite Hfirst. cbn [obind].
  rewrite (found_stuck th e lb' n He). reflexivity.
Qed.

(** ** The hole detector: the events of a whole payload *)

Lemma lit_zeros_below_repeat (th : Z) (n : nat) :
  forall c rest, 0 <= c -> c + Z.of_nat n < th ->
  lit_zeros_below th c (repeat (Lit x00) n ++ rest) =
    lit_zeros_below th (c + Z.of_nat n) rest.
Proof.
  induction n as [|n IH]; intros c rest Hc Hn.
  - cbn [repeat app Z.of_nat]. now rewrite Z.add_0_r.
  - cbn [repeat app lit_zeros_below is_zero].
    destruct (Z.ltb_spec (c + 1) th); [|lia].
    cbn [andb]. rewrite IH by lia. f_equal. lia.
Qed.

Lemma lit_zeros_below_flush (th z : Z) (b : byte) (rest : list event) :
  0 <= z -> is_zero b = false ->
  lit_zeros_below th 0 (flush th z ++ Lit b :: rest) = lit_zeros_below th 0 rest.
Proof.
  intros Hz Hb. unfold flush.
  destruct (Z.leb_spec z 0); [cbn; now rewrite Hb|].
  destruct (Z.leb_spec th z); [cbn; now rewrite Hb|].
  rewrite lit_zeros_below_repeat by lia.
  cbn [lit_zeros_below]. now rewrite Hb.
Qed.

Lemma lit_zeros_below_scan (th : Z) (l : list byte) :
  forall z, 0 <= z -> lit_zeros_below th 0 (scan th z l) = true.
Proof.
  induction l as [|b t IH]; intros z Hz; cbn [scan].
  - unfold flush.
    destruct (Z.leb_spec z 0); [reflexivity|].
    destruct (Z.leb_spec th z); [reflexivity|].
    rewrite <- (app_nil_r (repeat _ _)), lit_zeros_below_repeat by lia. reflexivity.
  - destruct (is_zero b) eqn:Hb.
    + apply IH. lia.
    + rewrite lit_zeros_below_flush by assumption. apply IH. lia.
Qed.

(** X3. For every payload that ends with [io.EOF] and every threshold
    [th >= 1]: calling [readByte] until it reports the end gives events
    that spell out the payload, byte for byte (a hole standing for that
    many zero bytes); every hole is at least [th] long, and fewer than
    [th] zero bytes in a row are reported as literals. So a run of zero
    bytes is a hole exactly when it reaches the threshold, and nothing
    is lost or added. *)
Theorem readByte_reports_the_payload (th : Z) (l : list byte) (fuel : nat) :
  1 <= th -> Z.of_nat (length l) <= max_int64 -> (length l < fuel)%nat ->
  exists evs,
    readByte_all fuel (holesFinder_on th l EOF) = Some (evs, EOF) /\
    flat evs = l /\
    Forall (ev_ok th) evs /\
    lit_zeros_below th 0 evs = true /\
    (length evs <= length l)%nat.
Proof.
  intros Hth Hmax Hfuel.
  pose proof (scan_length th l 0 ltac:(lia) Hth) as Hlen.
  change (Z.to_nat 0) with O in Hlen.
  exists (scan th 0 l). splits.
  - rewrite (readByte_all_remaining fuel (holesFinder_on th l EOF)).
    + reflexivity.
    + apply holesFinder_on_ok; assumption.
    + rewrite remaining_holesFinder_on. lia.
  - rewrite flat_scan by lia. reflexivity.
  - apply Forall_ev_ok_scan.
  - apply lit_zeros_below_scan. lia.
  - lia.
Qed.

(** ** The pipe-backed writer once the orchestrator is done *)

(** X14. When the orchestrator has sent its result [g] (an error, or nil
    for a successful encode) and nothing has received it yet: [Write]
    returns at once with 0 bytes written and [g], whatever it was asked
    to write, and closes the write end of the pipe; for a successful
    encode that is 0 bytes and a nil error. The result is handed out
    once: after that [Write], and until the goroutine has closed the
    channel, another [Write] returns [io.ErrClosedPipe] and [Close]
    waits; once the channel is closed, both return a nil error. *)
Theorem Write_hands_out_the_result (g : goerror) (w : PipeWriter.world)
  (bs bs' : list byte) :
  PipeWriter.tarSplitErr w =
    {| PipeWriter.ch_buf := [g]; PipeWriter.ch_closed := false |} ->
  exists w1,
    PipeWriter.Write bs w = PipeWriter.Returns (0, g) w1 /\
    PipeWriter.pipe_done (PipeWriter.tarSplitOut w1) = true /\
    PipeWriter.Write bs' w1 = PipeWriter.Returns (0, Some ErrClosedPipe) w1 /\
    PipeWriter.Close w1 = PipeWriter.Blocks /\
    (exists w2, PipeWriter.Write bs' (PipeWriter.bg_close w1) = PipeWriter.Returns (0, None) w2) /\
    (exists w2, PipeWriter.Close (PipeWriter.bg_close w1) = PipeWriter.Returns None w2).
Proof.
  intros Hch. destruct w as [c [we re]]. cbn in Hch. subst c.
  unfold PipeWriter.Write at 1, PipeWriter.recv. cbn.
  eexists. split; [reflexivity|]. cbn.
  split; [destruct we; reflexivity|].
  split; [|split; [reflexivity|]].
  - unfold PipeWriter.Write, PipeWriter.recv, PipeWriter.pw_Write, PipeWriter.pipe_done,
      PipeWriter.writeCloseError. cbn. destruct we; reflexivity.
  - split; eexists; reflexivity.
Qed.

(** ** The compressor from end to end *)
Section CompressorProperties.

Variable RollSum : Type.
Variable NewRollSum : RollSum.
Variable Roll : RollSum -> byte -> RollSum.
Variable OnSplitWithBits : RollSum -> Z -> bool.
Variable Out : Type.
Variable ZstdWriterWithLevel : Out -> Z -> goerror * Out.
Variable zw_Write : Out -> list byte -> goerror * Out.
Variable zw_Close : Out -> goerror * Out.
Variable zw_Flush : Out -> goerror * Out.
Variable zw_Reset : Out -> Out.
Variable dest_Count : Out -> Z.
Variable WriteZstdChunkedManifest :
  Out -> list (string * string) -> Z -> list FileMetadata -> Z -> goerror * Out.
Variable digest_String : list byte -> string.
Variable base64_EncodeToString : string -> string.
Variable GetType : byte -> string * goerror.
Variable TypeChunk : string.
Variable ChunkTypeData : string.
Variable ChunkTypeZeros : string.

Local Abbreviation orchestrate :=
  (writeZstdChunkedStream NewRollSum Roll OnSplitWithBits ZstdWriterWithLevel
     zw_Write zw_Close zw_Flush zw_Reset dest_Count WriteZstdChunkedManifest
     digest_String base64_EncodeToString GetType TypeChunk ChunkTypeData ChunkTypeZeros).
Local Abbreviation compressor :=
  (ZstdCompressor NewRollSum Roll OnSplitWithBits ZstdWriterWithLevel
     zw_Write zw_Close zw_Flush zw_Reset dest_Count WriteZstdChunkedManifest
     digest_String base64_EncodeToString GetType TypeChunk ChunkTypeData ChunkTypeZeros).

(** X15. [ZstdCompressor] never fails: it returns a writer and starts
    the goroutine, at level 10 when no level is given. [Close] on the
    new writer waits. Once the goroutine has run
    [writeZstdChunkedStream] on the archive that came through the pipe
    and sent what it returned, [Close] returns exactly that result, nil
    for a successful encode, and has closed the write end of the pipe;
    after the goroutine has then closed the channel, another [Close]
    returns nil. *)
Theorem Close_returns_the_orchestrator_result (r : Out)
  (metadata : list (string * string)) (level : option Z)
  (fuel : nat) (reader : tarReader) (g : goerror) (o : Out) :
  orchestrate fuel r metadata reader (match level with None => 10 | Some l => l end) =
    Some (g, o) ->
  exists run w1 w2 w3,
    compressor r metadata level = ((PipeWriter.start, run), None) /\
    PipeWriter.Close PipeWriter.start = PipeWriter.Blocks /\
    run fuel reader PipeWriter.start = Some w1 /\
    PipeWriter.Close w1 = PipeWriter.Returns g w2 /\
    PipeWriter.pipe_done (PipeWriter.tarSplitOut w2) = true /\
    PipeWriter.Close (PipeWriter.bg_close w2) = PipeWriter.Returns None w3.
Proof.
  intros H. unfold ZstdCompressor, zstdChunkedWriterWithLevel.
  do 4 eexists. split; [reflexivity|]. split; [reflexivity|].
  unfold goroutine. rewrite H. cbn [obind fst].
  split; [reflexivity|].
  unfold PipeWriter.Close, PipeWriter.recv, PipeWriter.bg_finish, PipeWriter.start. cbn.
  destruct g as [e|]; (split; [reflexivity|]); split; reflexivity.
Qed.

End CompressorProperties.

(** * The theorems at concrete inputs *)

Lemma Demo_restart_positive (o : Demo.Out) :
  restart_positive Demo.zw_Close Demo.zw_Flush Demo.zw_Reset Demo.dest_Count o.
Proof.
  intros off o' H. unfold restartCompression in H. cbn in H.
  injection H as <- _. unfold Demo.dest_Count. cbn [fst]. lia.
Qed.

Lemma payload_read_error_returns_nil_witness :
  te_payload Demo.e_truncated = [] /\
  is_EOF (te_fin Demo.e_truncated) = false /\
  Demo.run_stream 1
    {| tr_entries := [Demo.e_truncated]; tr_end := EOF; tr_trailer := [] |} =
    Some (None, (513%nat, 0%nat)).
Proof.
  split; [reflexivity|]. split; [reflexivity|].
  apply (payload_read_error_returns_nil Demo.RollSum Demo.NewRollSum Demo.Roll
           Demo.OnSplitWithBits Demo.Out
           Demo.ZstdWriterWithLevel Demo.zw_Write Demo.zw_Close Demo.zw_Flush Demo.zw_Reset
           Demo.dest_Count Demo.WriteZstdChunkedManifest Demo.digest_String
           Demo.base64_EncodeToString Demo.GetType Demo.TypeChunk Demo.ChunkTypeData
           Demo.ChunkTypeZeros 1 (O, O) [] Demo.e_truncated [] EOF [] 10 (O, O) (O, 512%nat));
    [reflexivity | reflexivity | reflexivity | reflexivity | lia].
Defined.



Lemma chunk_records_backfilled_witness :
  (1 < length (chunks Demo.two_chunks))%nat /\
  length (make_entries Demo.TypeChunk Demo.reg Demo.h_two [] Demo.two_chunks) = 2%nat /\
  map ChunkSize (make_entries Demo.TypeChunk Demo.reg Demo.h_two [] Demo.two_chunks) =
    [2; 3].
Proof.
  assert (H : (1 < length (chunks Demo.two_chunks))%nat) by (cbn; lia).
  split; [exact H|].
  destruct (chunk_records_backfilled Demo.RollSum Demo.Out Demo.TypeChunk Demo.reg
              Demo.h_two [] Demo.two_chunks) as [Hmany _].
  destruct (Hmany H) as [Hlen _].
  split; [exact Hlen | reflexivity].
Defined.

Lemma empty_payload_one_record_witness :
  te_payload Demo.e_empty = [] /\ te_fin Demo.e_empty = EOF /\
  (0 < length (ss_buf Demo.ss0))%nat /\ (0 < 1)%nat /\
  exists r,
    Demo.run_entry 1 Demo.e_empty = Some r /\
    (forall g o', r = inr (g, o') ->
       encoder_error Demo.zw_Write Demo.zw_Close Demo.zw_Flush g \/
       g <> None /\ snd (Demo.GetType (Typeflag (te_hdr Demo.e_empty))) = g) /\
    forall ss', r = inl ss' ->
    exists m,
      metadata ss' = metadata Demo.ss0 ++ [m] /\
      Digest m = String.EmptyString /\ Offset m = 0 /\ EndOffset m = 0 /\
      Name m = hdr_Name (te_hdr Demo.e_empty) /\
      Type_ m = fst (Demo.GetType (Typeflag (te_hdr Demo.e_empty))) /\
      ChunkDigest m = String.EmptyString /\
      snd (Demo.zw_Write (ss_out Demo.ss0) (te_raw Demo.e_empty)) = ss_out ss'.
Proof.
  assert (H3 : (0 < length (ss_buf Demo.ss0))%nat)
    by (cbn [Demo.ss0 ss_buf]; rewrite repeat_length; apply Nat.lt_0_succ).
  split; [reflexivity|]. split; [reflexivity|]. split; [exact H3|]. split; [lia|].
  exact (empty_payload_one_record Demo.RollSum Demo.NewRollSum Demo.Roll Demo.OnSplitWithBits
           Demo.Out Demo.zw_Write Demo.zw_Close Demo.zw_Flush Demo.zw_Reset Demo.dest_Count
           Demo.digest_String Demo.base64_EncodeToString Demo.GetType Demo.TypeChunk
           Demo.ChunkTypeData Demo.ChunkTypeZeros 1 Demo.ss0 Demo.e_empty
           eq_refl eq_refl H3 (Nat.lt_0_succ 0)).
Defined.

Lemma Read_eof_sticky_witness :
  closed Demo.rc_at_eof = true /\ pendingHole Demo.rc_at_eof <= 0 /\
  exists rc',
    Read_many Demo.Roll Demo.OnSplitWithBits [[x07; x07]; []; [x09]] Demo.rc_at_eof =
      Some ([((false, 0, Some EOF), [x07; x07]); ((false, 0, Some EOF), []);
             ((false, 0, Some EOF), [x09])], rc') /\
    rc_reader rc' = rc_reader Demo.rc_at_eof /\ closed rc' = true /\
    pendingHole rc' = pendingHole Demo.rc_at_eof /\
    rollsum rc' = rollsum Demo.rc_at_eof /\
    WrittenOut rc' = WrittenOut Demo.rc_at_eof.
Proof.
  assert (H : pendingHole Demo.rc_at_eof <= 0) by (cbn; lia).
  split; [reflexivity|]. split; [exact H|].
  exact (Read_eof_sticky Demo.RollSum Demo.Roll Demo.OnSplitWithBits Demo.rc_at_eof
           [[x07; x07]; []; [x09]] eq_refl H).
Defined.

Lemma Read_reproduces_payload_witness :
  runs_below holesThreshold 0 [x01; x00; x00; x02] = true /\
  exists calls,
    Read_all Demo.Roll Demo.OnSplitWithBits 20 [x00; x00; x00]
      (newRollingChecksumReader Demo.NewRollSum (newHolesFinder [x01; x00; x00; x02] EOF)) =
      Some (calls, EOF) /\
    concat (map (fun c => snd (fst c)) calls) = [x01; x00; x00; x02] /\
    Forall (fun c => snd c = false) calls.
Proof.
  split; [reflexivity|].
  apply (Read_reproduces_payload Demo.RollSum Demo.NewRollSum Demo.Roll Demo.OnSplitWithBits
           [x01; x00; x00; x02] [x00; x00; x00] 20).
  - reflexivity.
  - vm_compute. discriminate.
  - cbn. lia.
  - cbn. lia.
Defined.

Lemma chunking_deterministic_witness :
  exists calls1 calls2,
    Read_all Demo.Roll Demo.OnSplitWithBits 3000 (repeat x00 4096)
      (newRollingChecksumReader Demo.NewRollSum (newHolesFinder Demo.sparse EOF)) =
      Some (calls1, EOF) /\
    Read_all Demo.Roll Demo.OnSplitWithBits 5000 [x05]
      (newRollingChecksumReader Demo.NewRollSum (newHolesFinder Demo.sparse EOF)) =
      Some (calls2, EOF) /\
    group_chunks [] calls1 =
      payload_chunks Demo.NewRollSum Demo.Roll Demo.OnSplitWithBits Demo.sparse /\
    group_chunks [] calls2 = group_chunks [] calls1 /\
    map (fun k => (fst k, Z.of_nat (length (snd k)), Demo.digest_String (snd k)))
      (group_chunks [] calls2) =
    map (fun k => (fst k, Z.of_nat (length (snd k)), Demo.digest_String (snd k)))
      (group_chunks [] calls1).
Proof.
  apply (chunking_deterministic Demo.RollSum Demo.NewRollSum Demo.Roll Demo.OnSplitWithBits
           Demo.sparse (repeat x00 4096) [x05] 3000 5000 Demo.digest_String).
  - vm_compute. discriminate.
  - rewrite repeat_length. apply Nat.lt_0_succ.
  - cbn. lia.
  - apply Nat.ltb_lt. vm_compute. reflexivity.
  - apply Nat.ltb_lt. vm_compute. reflexivity.
Defined.

Lemma readByte_zero_run_witness :
  exists before after,
    readByte_all 2000 (holesFinder_on 1024 [x01] EOF) = Some (before, EOF) /\
    readByte_all 2000 (holesFinder_on 1024 [x02] EOF) = Some (after, EOF) /\
    readByte_all 2000 (holesFinder_on 1024 ([x01] ++ repeat x00 1024 ++ [x02]) EOF) =
      Some (before ++ [Hole 1024] ++ after, EOF).
Proof.
  apply (readByte_zero_run 1024 [x01] [x02] 1024 2000).
  - lia.
  - reflexivity.
  - reflexivity.
  - vm_compute. discriminate.
  - apply Nat.ltb_lt. vm_compute. reflexivity.
Defined.

Lemma Close_then_Write_witness :
  PipeWriter.tarSplitErr Demo.failed =
    {| PipeWriter.ch_buf := [Some Demo.boom]; PipeWriter.ch_closed := false |} /\
  exists w1,
    PipeWriter.Close Demo.failed = PipeWriter.Returns (Some Demo.boom) w1 /\
    PipeWriter.ch_buf (PipeWriter.tarSplitErr w1) = [] /\
    PipeWriter.pipe_done (PipeWriter.tarSplitOut w1) = true /\
    exists w2,
      PipeWriter.Write [x01] (PipeWriter.bg_after false w1) =
        PipeWriter.Returns (0, Some ErrClosedPipe) w2.
Proof.
  split; [reflexivity|].
  exact (Close_then_Write Demo.boom Demo.failed [x01] false eq_refl).
Defined.

(** C2 (as the spec has it, at a concrete run). The orchestrator has
    failed with "no space left on device": [Close] returns that error,
    but the [Write] that follows does not, whether or not the goroutine
    has closed the channel by then. *)
Lemma Write_after_Close_loses_the_error :
  ~ (forall closed_by_then,
       exists w1 w2 n,
         PipeWriter.Close Demo.failed = PipeWriter.Returns (Some Demo.boom) w1 /\
         PipeWriter.Write [x01] (PipeWriter.bg_after closed_by_then w1) =
           PipeWriter.Returns (n, Some Demo.boom) w2).
Proof.
  intros H. destruct (H false) as (w1 & w2 & n & HC & HW).
  vm_compute in HC. injection HC as <-.
  vm_compute in HW. discriminate HW.
Qed.

(** ** The model run on concrete archives *)

Example run_sparse_entry :
  Demo.records_of (Demo.run_entry 3000 Demo.e_sparse) =
    Some [ (Demo.reg_flag, Demo.ChunkTypeData, 0, 2);
           (Demo.TypeChunk, Demo.ChunkTypeZeros, 2, 1024);
           (Demo.TypeChunk, Demo.ChunkTypeData, 1026, 1) ].
Proof. vm_compute. reflexivity. Qed.

Example run_empty_entry :
  Demo.records_of (Demo.run_entry 1 Demo.e_empty) =
    Some [ (Demo.reg_flag, String.EmptyString, 0, 0) ].
Proof. vm_compute. reflexivity. Qed.

Example run_truncated_after_data :
  Demo.run_stream 10
    {| tr_entries := [Demo.e_cut; Demo.e_empty]; tr_end := EOF; tr_trailer := [] |} =
    Some (None, (513%nat, 0%nat)).
Proof. vm_compute. reflexivity. Qed.

Example run_below_threshold :
  readByte_all 2000 (holesFinder_on 1024 ([x01] ++ repeat x00 1023 ++ [x02]) EOF) =
    Some (Lit x01 :: repeat (Lit x00) 1023 ++ [Lit x02], EOF).
Proof. vm_compute. reflexivity. Qed.

Example run_at_threshold :
  readByte_all 2000 (holesFinder_on 1024 ([x01] ++ repeat x00 1024 ++ [x02]) EOF) =
    Some ([Lit x01; Hole 1024; Lit x02], EOF).
Proof. vm_compute. reflexivity. Qed.

Example Read_reaches_eof :
  Read Demo.Roll Demo.OnSplitWithBits [x07]
    (newRollingChecksumReader Demo.NewRollSum (newHolesFinder [] EOF)) =
    Some ((false, 0, Some EOF), [x07], Demo.rc_at_eof).
Proof. vm_compute. reflexivity. Qed.

(** * The further properties at concrete inputs *)

Lemma readByte_error_is_the_sources_witness :
  exists f',
    readByte (holesFinder_on 3 [x00; x00] ErrUnexpectedEOF) =
      Some ((0, x00, Some ErrUnexpectedEOF), f') /\
    0 = 0 /\ x00 = x00 /\
    (ErrUnexpectedEOF = EOF \/
     ErrUnexpectedEOF = fin (hf_reader (holesFinder_on 3 [x00; x00] ErrUnexpectedEOF))).
Proof.
  eexists. split; [vm_compute; reflexivity|].
  eapply (readByte_error_is_the_sources (holesFinder_on 3 [x00; x00] ErrUnexpectedEOF)).
  vm_compute. reflexivity.
Defined.

Lemma readByte_reports_the_payload_witness :
  1 <= 3 /\
  Z.of_nat (length [x01; x00; x00; x00; x02; x00]) <= max_int64 /\
  (length [x01; x00; x00; x00; x02; x00] < 10)%nat /\
  exists evs,
    readByte_all 10 (holesFinder_on 3 [x01; x00; x00; x00; x02; x00] EOF) = Some (evs, EOF) /\
    flat evs = [x01; x00; x00; x00; x02; x00] /\
    Forall (ev_ok 3) evs /\
    lit_zeros_below 3 0 evs = true /\
    (length evs <= length [x01; x00; x00; x00; x02; x00])%nat.
Proof.
  assert (H1 : 1 <= 3) by lia.
  assert (H2 : Z.of_nat (length [x01; x00; x00; x00; x02; x00]) <= max_int64)
    by (vm_compute; discriminate).
  assert (H3 : (length [x01; x00; x00; x00; x02; x00] < 10)%nat) by (cbn; lia).
  split; [exact H1|]. split; [exact H2|]. split; [exact H3|].
  exact (readByte_reports_the_payload 3 [x01; x00; x00; x00; x02; x00] 10 H1 H2 H3).
Defined.

Lemma readByte_swallows_error_in_hole_witness :
  is_EOF ErrUnexpectedEOF = false /\ 1 <= 2 /\ 2 <= Z.of_nat 3 /\ Z.of_nat 3 <= max_int64 /\
  exists f',
    readByte_n 3 (holesFinder_on 2 (repeat x00 3) ErrUnexpectedEOF) =
      Some ((Z.of_nat 3, x00, None) :: repeat (0, x00, None) 2, f').
Proof.
  assert (H2 : 1 <= 2) by lia.
  assert (H3 : 2 <= Z.of_nat 3) by (cbn; lia).
  assert (H4 : Z.of_nat 3 <= max_int64) by (vm_compute; discriminate).
  split; [reflexivity|]. split; [exact H2|]. split; [exact H3|]. split; [exact H4|].
  exact (readByte_swallows_error_in_hole 2 3 2 ErrUnexpectedEOF eq_refl H2 H3 H4).
Defined.

Lemma Read_counts_delivered_bytes_witness :
  0 <= WrittenOut Demo.rc_in_hole /\
  WrittenOut Demo.rc_in_hole + Z.of_nat (length [x07; x07]) <= max_int64 /\
  exists b' rc',
    Read Demo.Roll Demo.OnSplitWithBits [x07; x07] Demo.rc_in_hole =
      Some ((false, 2, None), b', rc') /\
    WrittenOut rc' = WrittenOut Demo.rc_in_hole + 2.
Proof.
  assert (H1 : 0 <= WrittenOut Demo.rc_in_hole) by (cbn; lia).
  assert (H2 : WrittenOut Demo.rc_in_hole + Z.of_nat (length [x07; x07]) <= max_int64)
    by (vm_compute; discriminate).
  split; [exact H1|]. split; [exact H2|].
  do 2 eexists. split; [vm_compute; reflexivity|].
  apply (Read_counts_delivered_bytes Demo.RollSum Demo.Roll Demo.OnSplitWithBits
           [x07; x07] Demo.rc_in_hole false 2 None [x00; x00] _ H1 H2).
  vm_compute. reflexivity.
Defined.

Lemma Read_hands_out_pending_hole_witness :
  0 < pendingHole Demo.rc_in_hole <= max_int64 /\
  (0 < length [x07; x07])%nat /\
  exists b',
    Read Demo.Roll Demo.OnSplitWithBits [x07; x07] Demo.rc_in_hole =
      Some ((pendingHole Demo.rc_in_hole <=? Z.of_nat (length [x07; x07]),
             Z.min (pendingHole Demo.rc_in_hole) (Z.of_nat (length [x07; x07])), None), b',
            {| rc_reader := rc_reader Demo.rc_in_hole; closed := closed Demo.rc_in_hole;
               rollsum := rollsum Demo.rc_in_hole;
               pendingHole :=
                 pendingHole Demo.rc_in_hole -
                 Z.min (pendingHole Demo.rc_in_hole) (Z.of_nat (length [x07; x07]));
               WrittenOut :=
                 add64 (WrittenOut Demo.rc_in_hole)
                   (Z.min (pendingHole Demo.rc_in_hole) (Z.of_nat (length [x07; x07])));
               IsLastChunkZeros := true |}) /\
    0 < Z.min (pendingHole Demo.rc_in_hole) (Z.of_nat (length [x07; x07])) /\
    firstn (Z.to_nat (Z.min (pendingHole Demo.rc_in_hole) (Z.of_nat (length [x07; x07])))) b' =
      repeat x00 (Z.to_nat (Z.min (pendingHole Demo.rc_in_hole) (Z.of_nat (length [x07; x07])))) /\
    skipn (Z.to_nat (Z.min (pendingHole Demo.rc_in_hole) (Z.of_nat (length [x07; x07])))) b' =
      skipn (Z.to_nat (Z.min (pendingHole Demo.rc_in_hole) (Z.of_nat (length [x07; x07]))))
        [x07; x07] /\
    length b' = length [x07; x07].
Proof.
  assert (H1 : 0 < pendingHole Demo.rc_in_hole <= max_int64)
    by (split; [cbn; lia | vm_compute; discriminate]).
  assert (H2 : (0 < length [x07; x07])%nat) by (cbn; lia).
  split; [exact H1|]. split; [exact H2|].
  exact (Read_hands_out_pending_hole Demo.RollSum Demo.Roll Demo.OnSplitWithBits
           [x07; x07] Demo.rc_in_hole H1 H2).
Defined.

Lemma Read_reproduces_any_payload_witness :
  Z.of_nat (length Demo.sparse) <= max_int64 /\
  (0 < length [x05; x05; x05])%nat /\
  (2 * length Demo.sparse + 1 < 3000)%nat /\
  exists calls,
    Read_all Demo.Roll Demo.OnSplitWithBits 3000 [x05; x05; x05]
      (newRollingChecksumReader Demo.NewRollSum (newHolesFinder Demo.sparse EOF)) =
      Some (calls, EOF) /\
    concat (map (fun c => snd (fst c)) calls) = Demo.sparse /\
    Forall (fun c => (length (snd (fst c)) <= length [x05; x05; x05])%nat /\
                     (snd c = true -> exists k, snd (fst c) = repeat x00 k)) calls.
Proof.
  assert (H1 : Z.of_nat (length Demo.sparse) <= max_int64) by (vm_compute; discriminate).
  assert (H2 : (0 < length [x05; x05; x05])%nat) by (cbn; lia).
  assert (H3 : (2 * length Demo.sparse + 1 < 3000)%nat) by (vm_compute; lia).
  split; [exact H1|]. split; [exact H2|]. split; [exact H3|].
  exact (Read_reproduces_any_payload Demo.RollSum Demo.NewRollSum Demo.Roll
           Demo.OnSplitWithBits Demo.sparse [x05; x05; x05] 3000 H1 H2 H3).
Defined.

Lemma entry_records_follow_chunks_witness :
  te_fin Demo.e_sparse = EOF /\
  te_payload Demo.e_sparse <> [] /\
  exists r,
    Demo.run_entry 3000 Demo.e_sparse = Some r /\
    (forall g o', r = inr (g, o') ->
       encoder_error Demo.zw_Write Demo.zw_Close Demo.zw_Flush g \/
       g <> None /\ snd (Demo.GetType (Typeflag (te_hdr Demo.e_sparse))) = g) /\
    forall ss', r = inl ss' ->
    let ks := payload_chunks Demo.NewRollSum Demo.Roll Demo.OnSplitWithBits
                (te_payload Demo.e_sparse) in
    exists m rest,
      metadata ss' = metadata Demo.ss0 ++ m :: rest /\
      length (m :: rest) = length ks /\
      chunk_bytes ks = te_payload Demo.e_sparse /\
      Forall (fun k => snd k <> [] /\
                       (fst k = true ->
                        exists n, 1024 <= Z.of_nat n /\ snd k = repeat x00 n)) ks /\
      Forall (fun x => Name x = hdr_Name (te_hdr Demo.e_sparse)) (m :: rest) /\
      Type_ m = fst (Demo.GetType (Typeflag (te_hdr Demo.e_sparse))) /\
      Forall (fun x => Type_ x = Demo.TypeChunk) rest /\
      Digest m = Demo.digest_String (te_payload Demo.e_sparse) /\
      ((1 < length ks)%nat ->
       map ChunkType (m :: rest) =
         map (fun k : bool * list byte =>
                if fst k then Demo.ChunkTypeZeros else Demo.ChunkTypeData) ks /\
       map ChunkSize (m :: rest) =
         map (fun k : bool * list byte => Z.of_nat (length (snd k))) ks /\
       map ChunkDigest (m :: rest) = map (fun k => Demo.digest_String (snd k)) ks /\
       map ChunkOffset (m :: rest) =
         starts 0 (map (fun k : bool * list byte => Z.of_nat (length (snd k))) ks)) /\
      (length ks = 1%nat ->
       rest = [] /\ ChunkSize m = 0 /\ ChunkOffset m = 0 /\
       ChunkDigest m = String.EmptyString /\ ChunkType m = String.EmptyString).
Proof.
  assert (Hne : te_payload Demo.e_sparse <> []) by discriminate.
  assert (H2 : Z.of_nat (length (te_payload Demo.e_sparse)) <= max_int64)
    by (vm_compute; discriminate).
  assert (H3 : (0 < length (ss_buf Demo.ss0))%nat)
    by (cbn [Demo.ss0 ss_buf]; rewrite repeat_length; apply Nat.lt_0_succ).
  assert (H4 : (2 * length (te_payload Demo.e_sparse) + 1 < 3000)%nat) by (vm_compute; lia).
  split; [reflexivity|]. split; [exact Hne|].
  exact (entry_records_follow_chunks Demo.RollSum Demo.NewRollSum Demo.Roll
           Demo.OnSplitWithBits Demo.Out Demo.zw_Write Demo.zw_Close Demo.zw_Flush
           Demo.zw_Reset Demo.dest_Count Demo.digest_String Demo.base64_EncodeToString
           Demo.GetType Demo.TypeChunk Demo.ChunkTypeData Demo.ChunkTypeZeros
           3000 Demo.ss0 Demo.e_sparse Demo_restart_positive eq_refl Hne H2 H3 H4).
Defined.

Lemma Demo_archive_fits :
  Forall (fun e : tarEntry =>
            te_fin e = EOF /\
            Z.of_nat (length (te_payload e)) <= max_int64 /\
            (2 * length (te_payload e) + 1 < 3000)%nat)
         (tr_entries Demo.archive).
Proof.
  repeat constructor; try (vm_compute; discriminate); vm_compute; lia.
Qed.

Lemma archive_records_in_order_witness :
  tr_end Demo.archive = EOF /\
  exists res,
    Demo.run_stream 3000 Demo.archive = Some res /\
    ((exists o groups,
        res = Demo.WriteZstdChunkedManifest o [] (Demo.dest_Count o mod 2 ^ 64)
                (concat groups) 10 /\
        Forall2 (entry_group Demo.GetType Demo.TypeChunk) (tr_entries Demo.archive) groups) \/
     (fst res <> None /\
      (fst res = fst (Demo.ZstdWriterWithLevel (O, O) 10) \/
       encoder_error Demo.zw_Write Demo.zw_Close Demo.zw_Flush (fst res) \/
       Exists (fun e => snd (Demo.GetType (Typeflag (te_hdr e))) = fst res)
              (tr_entries Demo.archive)))).
Proof.
  split; [reflexivity|].
  exact (archive_records_in_order Demo.RollSum Demo.NewRollSum Demo.Roll
           Demo.OnSplitWithBits Demo.Out Demo.ZstdWriterWithLevel Demo.zw_Write
           Demo.zw_Close Demo.zw_Flush Demo.zw_Reset Demo.dest_Count
           Demo.WriteZstdChunkedManifest Demo.digest_String Demo.base64_EncodeToString
           Demo.GetType Demo.TypeChunk Demo.ChunkTypeData Demo.ChunkTypeZeros
           3000 (O, O) [] Demo.archive 10 eq_refl Demo_archive_fits).
Defined.

Lemma Demo_archive_cut_fits :
  Forall (fun e : tarEntry =>
            te_fin e = EOF /\
            Z.of_nat (length (te_payload e)) <= max_int64 /\
            (2 * length (te_payload e) + 1 < 5)%nat)
         (tr_entries Demo.archive_cut).
Proof.
  repeat constructor; try (vm_compute; discriminate); vm_compute; lia.
Qed.

Lemma archive_error_is_returned_witness :
  is_EOF (tr_end Demo.archive_cut) = false /\
  Demo.ZstdWriterWithLevel (O, O) 10 = (None, (O, O)) /\
  exists x o,
    Demo.run_stream 5 Demo.archive_cut =
      Some (Some x, deferred Demo.zw_Close Demo.zw_Flush o) /\
    (x = tr_end Demo.archive_cut \/
     encoder_error Demo.zw_Write Demo.zw_Close Demo.zw_Flush (Some x) \/
     Exists (fun e => snd (Demo.GetType (Typeflag (te_hdr e))) = Some x)
            (tr_entries Demo.archive_cut)).
Proof.
  split; [reflexivity|]. split; [reflexivity|].
  exact (archive_error_is_returned Demo.RollSum Demo.NewRollSum Demo.Roll
           Demo.OnSplitWithBits Demo.Out Demo.ZstdWriterWithLevel Demo.zw_Write
           Demo.zw_Close Demo.zw_Flush Demo.zw_Reset Demo.dest_Count
           Demo.WriteZstdChunkedManifest Demo.digest_String Demo.base64_EncodeToString
           Demo.GetType Demo.TypeChunk Demo.ChunkTypeData Demo.ChunkTypeZeros
           5 (O, O) [] Demo.archive_cut 10 (O, O) eq_refl eq_refl Demo_archive_cut_fits).
Defined.

Lemma payload_cut_in_hole_never_ends_witness :
  te_payload Demo.e_hole_cut = repeat x00 1024 /\
  1024 <= Z.of_nat 1024 <= max_int64 /\
  is_EOF (te_fin Demo.e_hole_cut) = false /\
  (Demo.run_stream 40
     {| tr_entries := [Demo.e_hole_cut]; tr_end := EOF; tr_trailer := [] |} = None \/
   exists x o,
     Demo.run_stream 40
       {| tr_entries := [Demo.e_hole_cut]; tr_end := EOF; tr_trailer := [] |} =
       Some (Some x, deferred Demo.zw_Close Demo.zw_Flush o) /\
     encoder_error Demo.zw_Write Demo.zw_Close Demo.zw_Flush (Some x)).
Proof.
  assert (H2 : 1024 <= Z.of_nat 1024 <= max_int64)
    by (split; [vm_compute | vm_compute]; discriminate).
  split; [reflexivity|]. split; [exact H2|]. split; [reflexivity|].
  exact (payload_cut_in_hole_never_ends Demo.RollSum Demo.NewRollSum Demo.Roll
           Demo.OnSplitWithBits Demo.Out Demo.ZstdWriterWithLevel Demo.zw_Write
           Demo.zw_Close Demo.zw_Flush Demo.zw_Reset Demo.dest_Count
           Demo.WriteZstdChunkedManifest Demo.digest_String Demo.base64_EncodeToString
           Demo.GetType Demo.TypeChunk Demo.ChunkTypeData Demo.ChunkTypeZeros
           40 (O, O) [] Demo.e_hole_cut [] EOF [] 10 (O, O) 1024 eq_refl H2 eq_refl eq_refl).
Defined.

Lemma stream_error_provenance_witness :
  exists o,
    Demo.run_stream 5 Demo.archive_cut = Some (Some ErrUnexpectedEOF, o) /\
    (fst (Demo.ZstdWriterWithLevel (O, O) 10) = Some ErrUnexpectedEOF \/
     encoder_error Demo.zw_Write Demo.zw_Close Demo.zw_Flush (Some ErrUnexpectedEOF) \/
     Exists (fun e => snd (Demo.GetType (Typeflag (te_hdr e))) = Some ErrUnexpectedEOF)
            (tr_entries Demo.archive_cut) \/
     ErrUnexpectedEOF = tr_end Demo.archive_cut \/
     exists o' md,
       fst (Demo.WriteZstdChunkedManifest o' [] (Demo.dest_Count o' mod 2 ^ 64) md 10) =
         Some ErrUnexpectedEOF).
Proof.
  eexists. split; [vm_compute; reflexivity|].
  eapply (stream_error_provenance Demo.RollSum Demo.NewRollSum Demo.Roll
           Demo.OnSplitWithBits Demo.Out Demo.ZstdWriterWithLevel Demo.zw_Write
           Demo.zw_Close Demo.zw_Flush Demo.zw_Reset Demo.dest_Count
           Demo.WriteZstdChunkedManifest Demo.digest_String Demo.base64_EncodeToString
           Demo.GetType Demo.TypeChunk Demo.ChunkTypeData Demo.ChunkTypeZeros
           5 (O, O) [] Demo.archive_cut 10 ErrUnexpectedEOF).
  vm_compute. reflexivity.
Defined.

Lemma Write_hands_out_the_result_witness :
  PipeWriter.tarSplitErr (PipeWriter.bg_finish None PipeWriter.start) =
    {| PipeWriter.ch_buf := [None]; PipeWriter.ch_closed := false |} /\
  exists w1,
    PipeWriter.Write [x01; x02] (PipeWriter.bg_finish None PipeWriter.start) =
      PipeWriter.Returns (0, None) w1 /\
    PipeWriter.pipe_done (PipeWriter.tarSplitOut w1) = true /\
    PipeWriter.Write [x03] w1 = PipeWriter.Returns (0, Some ErrClosedPipe) w1 /\
    PipeWriter.Close w1 = PipeWriter.Blocks /\
    (exists w2, PipeWriter.Write [x03] (PipeWriter.bg_close w1) =
                  PipeWriter.Returns (0, None) w2) /\
    (exists w2, PipeWriter.Close (PipeWriter.bg_close w1) = PipeWriter.Returns None w2).
Proof.
  split; [reflexivity|].
  exact (Write_hands_out_the_result None (PipeWriter.bg_finish None PipeWriter.start)
           [x01; x02] [x03] eq_refl).
Defined.

Lemma Close_returns_the_orchestrator_result_witness :
  exists g o,
    Demo.run_stream 3000 Demo.archive = Some (g, o) /\
    exists run w1 w2 w3,
      ZstdCompressor Demo.NewRollSum Demo.Roll Demo.OnSplitWithBits Demo.ZstdWriterWithLevel
        Demo.zw_Write Demo.zw_Close Demo.zw_Flush Demo.zw_Reset Demo.dest_Count
        Demo.WriteZstdChunkedManifest Demo.digest_String Demo.base64_EncodeToString
        Demo.GetType Demo.TypeChunk Demo.ChunkTypeData Demo.ChunkTypeZeros
        (O, O) [] None = ((PipeWriter.start, run), None) /\
      PipeWriter.Close PipeWriter.start = PipeWriter.Blocks /\
      run 3000%nat Demo.archive PipeWriter.start = Some w1 /\
      PipeWriter.Close w1 = PipeWriter.Returns g w2 /\
      PipeWriter.pipe_done (PipeWriter.tarSplitOut w2) = true /\
      PipeWriter.Close (PipeWriter.bg_close w2) = PipeWriter.Returns None w3.
Proof.
  do 2 eexists. split; [vm_compute; reflexivity|].
  eapply (Close_returns_the_orchestrator_result Demo.RollSum Demo.NewRollSum Demo.Roll
           Demo.OnSplitWithBits Demo.Out Demo.ZstdWriterWithLevel Demo.zw_Write
           Demo.zw_Close Demo.zw_Flush Demo.zw_Reset Demo.dest_Count
           Demo.WriteZstdChunkedManifest Demo.digest_String Demo.base64_EncodeToString
           Demo.GetType Demo.TypeChunk Demo.ChunkTypeData Demo.ChunkTypeZeros
           (O, O) [] None 3000 Demo.archive).
  vm_compute. reflexivity.
Defined.

Lemma entry_offsets_are_frame_boundaries_witness :
  te_fin Demo.e_sparse = EOF /\
  te_payload Demo.e_sparse <> [] /\
  exists r,
    Demo.run_entry 3000 Demo.e_sparse = Some r /\
    (forall g o', r = inr (g, o') ->
       encoder_error Demo.zw_Write Demo.zw_Close Demo.zw_Flush g \/
       g <> None /\ snd (Demo.GetType (Typeflag (te_hdr Demo.e_sparse))) = g) /\
    forall ss', r = inl ss' ->
    exists m rest oa ob,
      metadata ss' = metadata Demo.ss0 ++ m :: rest /\
      restartCompression Demo.zw_Close Demo.zw_Flush Demo.zw_Reset Demo.dest_Count
        (snd (Demo.zw_Write (ss_out Demo.ss0) (te_raw Demo.e_sparse))) =
        ((Offset m, None), oa) /\
      0 < Offset m /\
      EndOffset m = Demo.dest_Count ob /\
      ss_out ss' = Demo.zw_Reset ob.
Proof.
  assert (Hne : te_payload Demo.e_sparse <> []) by discriminate.
  assert (H2 : Z.of_nat (length (te_payload Demo.e_sparse)) <= max_int64)
    by (vm_compute; discriminate).
  assert (H3 : (0 < length (ss_buf Demo.ss0))%nat)
    by (cbn [Demo.ss0 ss_buf]; rewrite repeat_length; apply Nat.lt_0_succ).
  assert (H4 : (2 * length (te_payload Demo.e_sparse) + 1 < 3000)%nat) by (vm_compute; lia).
  split; [reflexivity|]. split; [exact Hne|].
  exact (entry_offsets_are_frame_boundaries Demo.RollSum Demo.NewRollSum Demo.Roll
           Demo.OnSplitWithBits Demo.Out Demo.zw_Write Demo.zw_Close Demo.zw_Flush
           Demo.zw_Reset Demo.dest_Count Demo.digest_String Demo.base64_EncodeToString
           Demo.GetType Demo.TypeChunk Demo.ChunkTypeData Demo.ChunkTypeZeros
           3000 Demo.ss0 Demo.e_sparse Demo_restart_positive eq_refl Hne H2 H3 H4).
Defined.

Lemma all_zero_payload_one_untyped_record_witness :
  te_fin Demo.e_zeros = EOF /\
  te_payload Demo.e_zeros = repeat x00 1024 /\
  1024 <= Z.of_nat 1024 <= max_int64 /\
  exists r,
    Demo.run_entry 3000 Demo.e_zeros = Some r /\
    (forall g o', r = inr (g, o') ->
       encoder_error Demo.zw_Write Demo.zw_Close Demo.zw_Flush g \/
       g <> None /\ snd (Demo.GetType (Typeflag (te_hdr Demo.e_zeros))) = g) /\
    forall ss', r = inl ss' ->
    exists m,
      metadata ss' = metadata Demo.ss0 ++ [m] /\
      Type_ m = fst (Demo.GetType (Typeflag (te_hdr Demo.e_zeros))) /\
      Digest m = Demo.digest_String (repeat x00 1024) /\
      0 < Offset m /\
      ChunkType m = String.EmptyString /\ ChunkSize m = 0 /\
      ChunkDigest m = String.EmptyString.
Proof.
  assert (H2 : 1024 <= Z.of_nat 1024 <= max_int64)
    by (split; [vm_compute | vm_compute]; discriminate).
  assert (H3 : (0 < length (ss_buf Demo.ss0))%nat)
    by (cbn [Demo.ss0 ss_buf]; rewrite repeat_length; apply Nat.lt_0_succ).
  assert (H4 : (2 * 1024 + 1 < 3000)%nat) by (vm_compute; lia).
  split; [reflexivity|]. split; [reflexivity|]. split; [exact H2|].
  exact (all_zero_payload_one_untyped_record Demo.RollSum Demo.NewRollSum Demo.Roll
           Demo.OnSplitWithBits Demo.Out Demo.zw_Write Demo.zw_Close Demo.zw_Flush
           Demo.zw_Reset Demo.dest_Count Demo.digest_String Demo.base64_EncodeToString
           Demo.GetType Demo.TypeChunk Demo.ChunkTypeData Demo.ChunkTypeZeros
           3000 Demo.ss0 Demo.e_zeros 1024 Demo_restart_positive eq_refl eq_refl H2 H3 H4).
Defined.

Lemma primary_record_carries_header_witness :
  exists ss',
    Demo.run_entry 3000 Demo.e_sparse = Some (inl ss') /\
    exists m rest,
      metadata ss' = metadata Demo.ss0 ++ m :: rest /\
      Demo.GetType (Typeflag (te_hdr Demo.e_sparse)) = (Type_ m, None) /\
      Name m = hdr_Name (te_hdr Demo.e_sparse) /\
      Linkname m = hdr_Linkname (te_hdr Demo.e_sparse) /\
      Mode m = hdr_Mode (te_hdr Demo.e_sparse) /\ Size m = hdr_Size (te_hdr Demo.e_sparse) /\
      UID m = hdr_Uid (te_hdr Demo.e_sparse) /\ GID m = hdr_Gid (te_hdr Demo.e_sparse) /\
      ModTime m = Some (hdr_ModTime (te_hdr Demo.e_sparse)) /\
      AccessTime m = Some (hdr_AccessTime (te_hdr Demo.e_sparse)) /\
      ChangeTime m = Some (hdr_ChangeTime (te_hdr Demo.e_sparse)) /\
      Devmajor m = hdr_Devmajor (te_hdr Demo.e_sparse) /\
      Devminor m = hdr_Devminor (te_hdr Demo.e_sparse) /\
      Xattrs m =
        map (fun kv => (fst kv, Demo.base64_EncodeToString (snd kv)))
            (hdr_Xattrs (te_hdr Demo.e_sparse)) /\
      Forall (fun x => Type_ x = Demo.TypeChunk /\ Name x = hdr_Name (te_hdr Demo.e_sparse) /\
                       Size x = 0 /\ Xattrs x = [] /\ Digest x = String.EmptyString) rest.
Proof.
  eexists. split; [vm_compute; reflexivity|].
  eapply (primary_record_carries_header Demo.RollSum Demo.NewRollSum Demo.Roll
            Demo.OnSplitWithBits Demo.Out Demo.zw_Write Demo.zw_Close Demo.zw_Flush
            Demo.zw_Reset Demo.dest_Count Demo.digest_String Demo.base64_EncodeToString
            Demo.GetType Demo.TypeChunk Demo.ChunkTypeData Demo.ChunkTypeZeros
            3000 Demo.ss0 _ Demo.e_sparse).
  vm_compute. reflexivity.
Defined.

Lemma Recorder_log_Write (o : Recorder.Out) (p : list byte) (o' : Recorder.Out) :
  Recorder.zw_Write o p = (None, o') -> o' = o ++ p.
Proof. intros H. now injection H as <-. Qed.

Lemma Recorder_log_Close (o o' : Recorder.Out) :
  Recorder.zw_Close o = (None, o') -> o' = o.
Proof. intros H. now injection H as <-. Qed.

Lemma Recorder_log_Flush (o o' : Recorder.Out) :
  Recorder.zw_Flush o = (None, o') -> o' = o.
Proof. intros H. now injection H as <-. Qed.

Lemma encoder_receives_the_archive_witness :
  (forall o p o', Recorder.zw_Write o p = (None, o') -> o' = o ++ p) /\
  (forall o o', Recorder.zw_Close o = (None, o') -> o' = o) /\
  (forall o o', Recorder.zw_Flush o = (None, o') -> o' = o) /\
  (forall o, Recorder.zw_Reset o = o) /\
  tr_end Demo.archive = EOF /\
  exists res,
    writeZstdChunkedStream Demo.NewRollSum Demo.Roll Demo.OnSplitWithBits
      Recorder.ZstdWriterWithLevel Recorder.zw_Write Recorder.zw_Close Recorder.zw_Flush
      Recorder.zw_Reset Recorder.dest_Count Recorder.WriteZstdChunkedManifest
      Demo.digest_String Demo.base64_EncodeToString Demo.GetType Demo.TypeChunk
      Demo.ChunkTypeData Demo.ChunkTypeZeros 3000 [] [] Demo.archive 10 = Some res /\
    ((exists o0 o md,
        Recorder.ZstdWriterWithLevel [] 10 = (None, o0) /\
        res = Recorder.WriteZstdChunkedManifest o [] (Recorder.dest_Count o mod 2 ^ 64) md 10 /\
        o = o0 ++
            concat (map (fun e => te_raw e ++ te_payload e) (tr_entries Demo.archive)) ++
            tr_trailer Demo.archive) \/
     fst res <> None).
Proof.
  split; [exact Recorder_log_Write|]. split; [exact Recorder_log_Close|].
  split; [exact Recorder_log_Flush|]. split; [reflexivity|]. split; [reflexivity|].
  exact (encoder_receives_the_archive Demo.RollSum Demo.NewRollSum Demo.Roll
           Demo.OnSplitWithBits Recorder.Out Recorder.ZstdWriterWithLevel Recorder.zw_Write
           Recorder.zw_Close Recorder.zw_Flush Recorder.zw_Reset Recorder.dest_Count
           Recorder.WriteZstdChunkedManifest Demo.digest_String Demo.base64_EncodeToString
           Demo.GetType Demo.TypeChunk Demo.ChunkTypeData Demo.ChunkTypeZeros
           (fun o => o) Recorder_log_Write Recorder_log_Close Recorder_log_Flush
           (fun o => eq_refl) 3000 [] [] Demo.archive 10 eq_refl Demo_archive_fits).
Defined.

(** The recording encoder on the two entries of the archive: it ends up
    with the header and the payload of each entry and the closing
    bytes, 512 + 1027 + 512 + 0 + 1024 bytes. *)
Example run_recorder :
  option_map (fun r => length (snd r))
    (writeZstdChunkedStream Demo.NewRollSum Demo.Roll Demo.OnSplitWithBits
       Recorder.ZstdWriterWithLevel Recorder.zw_Write Recorder.zw_Close Recorder.zw_Flush
       Recorder.zw_Reset Recorder.dest_Count Recorder.WriteZstdChunkedManifest
       Demo.digest_String Demo.base64_EncodeToString Demo.GetType Demo.TypeChunk
       Demo.ChunkTypeData Demo.ChunkTypeZeros 3000 [] [] Demo.archive 10) = Some 3075%nat.
Proof. vm_compute. reflexivity. Qed.
